(** * Haiku-Bot: the text pipeline of [haiku_tweeter.py]

    The syllable counter, the noise filter, the sliding-window haiku
    detector, the dedup signature and the tweet formatter, embedded as Rocq
    functions, with the properties the specification states about them. *)

From Stdlib Require Import String Ascii NArith ZArith Lia Bool List Sorted.
Import ListNotations.
Local Open Scope bool_scope.

(** ** Python values

    A Python [str] is the list of its code points.  Python integers are [Z].
    A tuple is modelled by the list of its components. *)

Definition char := N.
Definition str := list char.

(** [lit "abc"] is the Python literal ["abc"] (ASCII text only). *)
Definition lit (s : string) : str := map N_of_ascii (list_ascii_of_string s).

Definition newline : char := 10%N.
Definition carriage_return : char := 13%N.

Fixpoint str_eqb (a b : str) : bool :=
  match a, b with
  | [], [] => true
  | x :: a', y :: b' => N.eqb x y && str_eqb a' b'
  | _, _ => false
  end.

Definition is_empty {A : Type} (l : list A) : bool :=
  match l with [] => true | _ :: _ => false end.

(** [len(s)] *)
Definition len {A : Type} (l : list A) : Z := Z.of_nat (length l).

(** The exceptions the modelled operations can raise. *)
Inductive exn : Type := IndexError | KeyError | UnicodeEncodeError.

Inductive result (A : Type) : Type :=
| Ok (a : A)
| Raise (e : exn).
Arguments Ok {A} a.
Arguments Raise {A} e.

Definition bind {A B : Type} (m : result A) (k : A -> result B) : result B :=
  match m with
  | Ok a => k a
  | Raise e => Raise e
  end.

Notation "x <- m ;; k" := (bind m (fun x => k))
  (at level 61, m at next level, right associativity).

(** [a and b] on fallible operands: [b] is evaluated only when [a] is true. *)
Definition and_then (a : bool) (b : result bool) : result bool :=
  if a then b else Ok false.

(** [str.isspace] of one character: the code points CPython's
    [_PyUnicode_IsWhitespace] accepts.  [str.strip()] and the regex class
    [\s] use the same set. *)
Definition isspace (c : char) : bool :=
  ((9 <=? c) && (c <=? 13) || (28 <=? c) && (c <=? 32)
   || (c =? 133) || (c =? 160) || (c =? 5760)
   || (8192 <=? c) && (c <=? 8202)
   || (c =? 8232) || (c =? 8233) || (c =? 8239) || (c =? 8287)
   || (c =? 12288))%N.

Fixpoint lstrip (s : str) : str :=
  match s with
  | [] => []
  | c :: r => if isspace c then lstrip r else s
  end.

Definition rstrip (s : str) : str := rev (lstrip (rev s)).

(** [s.strip()] *)
Definition strip (s : str) : str := rstrip (lstrip s).

(** [str.lower].  CPython lower-cases a string character by character with
    the full lowercase mapping of the Unicode database ([_PyUnicode_ToLowerFull]),
    except for the capital sigma U+03A3, whose lowercase depends on the
    characters around it.  The tables are those of Unicode 14.0.0, the
    database of CPython 3.11.

    [lower_table]: the code points whose lowercase is one other code point,
    as [(first, last, step, lowercase of first)]: every [step]-th code point
    from [first] to [last] maps to the code point at the same distance from
    the lowercase of [first]. *)
Definition lower_table : list (N * N * N * N) :=
  [
    (65, 90, 1, 97); (192, 214, 1, 224); (216, 222, 1, 248);
    (256, 302, 2, 257); (306, 310, 2, 307); (313, 327, 2, 314);
    (330, 374, 2, 331); (376, 376, 1, 255); (377, 381, 2, 378);
    (385, 385, 1, 595); (386, 388, 2, 387); (390, 390, 1, 596);
    (391, 391, 1, 392); (393, 394, 1, 598); (395, 395, 1, 396);
    (398, 398, 1, 477); (399, 399, 1, 601); (400, 400, 1, 603);
    (401, 401, 1, 402); (403, 403, 1, 608); (404, 404, 1, 611);
    (406, 406, 1, 617); (407, 407, 1, 616); (408, 408, 1, 409);
    (412, 412, 1, 623); (413, 413, 1, 626); (415, 415, 1, 629);
    (416, 420, 2, 417); (422, 422, 1, 640); (423, 423, 1, 424);
    (425, 425, 1, 643); (428, 428, 1, 429); (430, 430, 1, 648);
    (431, 431, 1, 432); (433, 434, 1, 650); (435, 437, 2, 436);
    (439, 439, 1, 658); (440, 440, 1, 441); (444, 444, 1, 445);
    (452, 452, 1, 454); (453, 453, 1, 454); (455, 455, 1, 457);
    (456, 456, 1, 457); (458, 458, 1, 460); (459, 475, 2, 460);
    (478, 494, 2, 479); (497, 497, 1, 499); (498, 500, 2, 499);
    (502, 502, 1, 405); (503, 503, 1, 447); (504, 542, 2, 505);
    (544, 544, 1, 414); (546, 562, 2, 547); (570, 570, 1, 11365);
    (571, 571, 1, 572); (573, 573, 1, 410); (574, 574, 1, 11366);
    (577, 577, 1, 578); (579, 579, 1, 384); (580, 580, 1, 649);
    (581, 581, 1, 652); (582, 590, 2, 583); (880, 882, 2, 881);
    (886, 886, 1, 887); (895, 895, 1, 1011); (902, 902, 1, 940);
    (904, 906, 1, 941); (908, 908, 1, 972); (910, 911, 1, 973);
    (913, 929, 1, 945); (931, 939, 1, 963); (975, 975, 1, 983);
    (984, 1006, 2, 985); (1012, 1012, 1, 952); (1015, 1015, 1, 1016);
    (1017, 1017, 1, 1010); (1018, 1018, 1, 1019); (1021, 1023, 1, 891);
    (1024, 1039, 1, 1104); (1040, 1071, 1, 1072); (1120, 1152, 2, 1121);
    (1162, 1214, 2, 1163); (1216, 1216, 1, 1231); (1217, 1229, 2, 1218);
    (1232, 1326, 2, 1233); (1329, 1366, 1, 1377); (4256, 4293, 1, 11520);
    (4295, 4295, 1, 11559); (4301, 4301, 1, 11565); (5024, 5103, 1, 43888);
    (5104, 5109, 1, 5112); (7312, 7354, 1, 4304); (7357, 7359, 1, 4349);
    (7680, 7828, 2, 7681); (7838, 7838, 1, 223); (7840, 7934, 2, 7841);
    (7944, 7951, 1, 7936); (7960, 7965, 1, 7952); (7976, 7983, 1, 7968);
    (7992, 7999, 1, 7984); (8008, 8013, 1, 8000); (8025, 8031, 2, 8017);
    (8040, 8047, 1, 8032); (8072, 8079, 1, 8064); (8088, 8095, 1, 8080);
    (8104, 8111, 1, 8096); (8120, 8121, 1, 8112); (8122, 8123, 1, 8048);
    (8124, 8124, 1, 8115); (8136, 8139, 1, 8050); (8140, 8140, 1, 8131);
    (8152, 8153, 1, 8144); (8154, 8155, 1, 8054); (8168, 8169, 1, 8160);
    (8170, 8171, 1, 8058); (8172, 8172, 1, 8165); (8184, 8185, 1, 8056);
    (8186, 8187, 1, 8060); (8188, 8188, 1, 8179); (8486, 8486, 1, 969);
    (8490, 8490, 1, 107); (8491, 8491, 1, 229); (8498, 8498, 1, 8526);
    (8544, 8559, 1, 8560); (8579, 8579, 1, 8580); (9398, 9423, 1, 9424);
    (11264, 11311, 1, 11312); (11360, 11360, 1, 11361); (11362, 11362, 1, 619);
    (11363, 11363, 1, 7549); (11364, 11364, 1, 637); (11367, 11371, 2, 11368);
    (11373, 11373, 1, 593); (11374, 11374, 1, 625); (11375, 11375, 1, 592);
    (11376, 11376, 1, 594); (11378, 11378, 1, 11379); (11381, 11381, 1, 11382);
    (11390, 11391, 1, 575); (11392, 11490, 2, 11393); (11499, 11501, 2, 11500);
    (11506, 11506, 1, 11507); (42560, 42604, 2, 42561); (42624, 42650, 2, 42625);
    (42786, 42798, 2, 42787); (42802, 42862, 2, 42803); (42873, 42875, 2, 42874);
    (42877, 42877, 1, 7545); (42878, 42886, 2, 42879); (42891, 42891, 1, 42892);
    (42893, 42893, 1, 613); (42896, 42898, 2, 42897); (42902, 42920, 2, 42903);
    (42922, 42922, 1, 614); (42923, 42923, 1, 604); (42924, 42924, 1, 609);
    (42925, 42925, 1, 620); (42926, 42926, 1, 618); (42928, 42928, 1, 670);
    (42929, 42929, 1, 647); (42930, 42930, 1, 669); (42931, 42931, 1, 43859);
    (42932, 42946, 2, 42933); (42948, 42948, 1, 42900); (42949, 42949, 1, 642);
    (42950, 42950, 1, 7566); (42951, 42953, 2, 42952); (42960, 42960, 1, 42961);
    (42966, 42968, 2, 42967); (42997, 42997, 1, 42998); (65313, 65338, 1, 65345);
    (66560, 66599, 1, 66600); (66736, 66771, 1, 66776); (66928, 66938, 1, 66967);
    (66940, 66954, 1, 66979); (66956, 66962, 1, 66995); (66964, 66965, 1, 67003);
    (68736, 68786, 1, 68800); (71840, 71871, 1, 71872); (93760, 93791, 1, 93792);
    (125184, 125217, 1, 125218)
  ]%N.

(** The property Case_Ignorable, as ranges [(first, last)]. *)
Definition case_ignorable_table : list (N * N) :=
  [
    (39, 39); (46, 46); (58, 58); (94, 94); (96, 96);
    (168, 168); (173, 173); (175, 175); (180, 180); (183, 184);
    (688, 879); (884, 885); (890, 890); (900, 901); (903, 903);
    (1155, 1161); (1369, 1369); (1375, 1375); (1425, 1469); (1471, 1471);
    (1473, 1474); (1476, 1477); (1479, 1479); (1524, 1524); (1536, 1541);
    (1552, 1562); (1564, 1564); (1600, 1600); (1611, 1631); (1648, 1648);
    (1750, 1757); (1759, 1768); (1770, 1773); (1807, 1807); (1809, 1809);
    (1840, 1866); (1958, 1968); (2027, 2037); (2042, 2042); (2045, 2045);
    (2070, 2093); (2137, 2139); (2184, 2184); (2192, 2193); (2200, 2207);
    (2249, 2306); (2362, 2362); (2364, 2364); (2369, 2376); (2381, 2381);
    (2385, 2391); (2402, 2403); (2417, 2417); (2433, 2433); (2492, 2492);
    (2497, 2500); (2509, 2509); (2530, 2531); (2558, 2558); (2561, 2562);
    (2620, 2620); (2625, 2626); (2631, 2632); (2635, 2637); (2641, 2641);
    (2672, 2673); (2677, 2677); (2689, 2690); (2748, 2748); (2753, 2757);
    (2759, 2760); (2765, 2765); (2786, 2787); (2810, 2815); (2817, 2817);
    (2876, 2876); (2879, 2879); (2881, 2884); (2893, 2893); (2901, 2902);
    (2914, 2915); (2946, 2946); (3008, 3008); (3021, 3021); (3072, 3072);
    (3076, 3076); (3132, 3132); (3134, 3136); (3142, 3144); (3146, 3149);
    (3157, 3158); (3170, 3171); (3201, 3201); (3260, 3260); (3263, 3263);
    (3270, 3270); (3276, 3277); (3298, 3299); (3328, 3329); (3387, 3388);
    (3393, 3396); (3405, 3405); (3426, 3427); (3457, 3457); (3530, 3530);
    (3538, 3540); (3542, 3542); (3633, 3633); (3636, 3642); (3654, 3662);
    (3761, 3761); (3764, 3772); (3782, 3782); (3784, 3789); (3864, 3865);
    (3893, 3893); (3895, 3895); (3897, 3897); (3953, 3966); (3968, 3972);
    (3974, 3975); (3981, 3991); (3993, 4028); (4038, 4038); (4141, 4144);
    (4146, 4151); (4153, 4154); (4157, 4158); (4184, 4185); (4190, 4192);
    (4209, 4212); (4226, 4226); (4229, 4230); (4237, 4237); (4253, 4253);
    (4348, 4348); (4957, 4959); (5906, 5908); (5938, 5939); (5970, 5971);
    (6002, 6003); (6068, 6069); (6071, 6077); (6086, 6086); (6089, 6099);
    (6103, 6103); (6109, 6109); (6155, 6159); (6211, 6211); (6277, 6278);
    (6313, 6313); (6432, 6434); (6439, 6440); (6450, 6450); (6457, 6459);
    (6679, 6680); (6683, 6683); (6742, 6742); (6744, 6750); (6752, 6752);
    (6754, 6754); (6757, 6764); (6771, 6780); (6783, 6783); (6823, 6823);
    (6832, 6862); (6912, 6915); (6964, 6964); (6966, 6970); (6972, 6972);
    (6978, 6978); (7019, 7027); (7040, 7041); (7074, 7077); (7080, 7081);
    (7083, 7085); (7142, 7142); (7144, 7145); (7149, 7149); (7151, 7153);
    (7212, 7219); (7222, 7223); (7288, 7293); (7376, 7378); (7380, 7392);
    (7394, 7400); (7405, 7405); (7412, 7412); (7416, 7417); (7468, 7530);
    (7544, 7544); (7579, 7679); (8125, 8125); (8127, 8129); (8141, 8143);
    (8157, 8159); (8173, 8175); (8189, 8190); (8203, 8207); (8216, 8217);
    (8228, 8228); (8231, 8231); (8234, 8238); (8288, 8292); (8294, 8303);
    (8305, 8305); (8319, 8319); (8336, 8348); (8400, 8432); (11388, 11389);
    (11503, 11505); (11631, 11631); (11647, 11647); (11744, 11775); (11823, 11823);
    (12293, 12293); (12330, 12333); (12337, 12341); (12347, 12347); (12441, 12446);
    (12540, 12542); (40981, 40981); (42232, 42237); (42508, 42508); (42607, 42610);
    (42612, 42621); (42623, 42623); (42652, 42655); (42736, 42737); (42752, 42785);
    (42864, 42864); (42888, 42890); (42994, 42996); (43000, 43001); (43010, 43010);
    (43014, 43014); (43019, 43019); (43045, 43046); (43052, 43052); (43204, 43205);
    (43232, 43249); (43263, 43263); (43302, 43309); (43335, 43345); (43392, 43394);
    (43443, 43443); (43446, 43449); (43452, 43453); (43471, 43471); (43493, 43494);
    (43561, 43566); (43569, 43570); (43573, 43574); (43587, 43587); (43596, 43596);
    (43632, 43632); (43644, 43644); (43696, 43696); (43698, 43700); (43703, 43704);
    (43710, 43711); (43713, 43713); (43741, 43741); (43756, 43757); (43763, 43764);
    (43766, 43766); (43867, 43871); (43881, 43883); (44005, 44005); (44008, 44008);
    (44013, 44013); (64286, 64286); (64434, 64450); (65024, 65039); (65043, 65043);
    (65056, 65071); (65106, 65106); (65109, 65109); (65279, 65279); (65287, 65287);
    (65294, 65294); (65306, 65306); (65342, 65342); (65344, 65344); (65392, 65392);
    (65438, 65439); (65507, 65507); (65529, 65531); (66045, 66045); (66272, 66272);
    (66422, 66426); (67456, 67461); (67463, 67504); (67506, 67514); (68097, 68099);
    (68101, 68102); (68108, 68111); (68152, 68154); (68159, 68159); (68325, 68326);
    (68900, 68903); (69291, 69292); (69446, 69456); (69506, 69509); (69633, 69633);
    (69688, 69702); (69744, 69744); (69747, 69748); (69759, 69761); (69811, 69814);
    (69817, 69818); (69821, 69821); (69826, 69826); (69837, 69837); (69888, 69890);
    (69927, 69931); (69933, 69940); (70003, 70003); (70016, 70017); (70070, 70078);
    (70089, 70092); (70095, 70095); (70191, 70193); (70196, 70196); (70198, 70199);
    (70206, 70206); (70367, 70367); (70371, 70378); (70400, 70401); (70459, 70460);
    (70464, 70464); (70502, 70508); (70512, 70516); (70712, 70719); (70722, 70724);
    (70726, 70726); (70750, 70750); (70835, 70840); (70842, 70842); (70847, 70848);
    (70850, 70851); (71090, 71093); (71100, 71101); (71103, 71104); (71132, 71133);
    (71219, 71226); (71229, 71229); (71231, 71232); (71339, 71339); (71341, 71341);
    (71344, 71349); (71351, 71351); (71453, 71455); (71458, 71461); (71463, 71467);
    (71727, 71735); (71737, 71738); (71995, 71996); (71998, 71998); (72003, 72003);
    (72148, 72151); (72154, 72155); (72160, 72160); (72193, 72202); (72243, 72248);
    (72251, 72254); (72263, 72263); (72273, 72278); (72281, 72283); (72330, 72342);
    (72344, 72345); (72752, 72758); (72760, 72765); (72767, 72767); (72850, 72871);
    (72874, 72880); (72882, 72883); (72885, 72886); (73009, 73014); (73018, 73018);
    (73020, 73021); (73023, 73029); (73031, 73031); (73104, 73105); (73109, 73109);
    (73111, 73111); (73459, 73460); (78896, 78904); (92912, 92916); (92976, 92982);
    (92992, 92995); (94031, 94031); (94095, 94111); (94176, 94177); (94179, 94180);
    (110576, 110579); (110581, 110587); (110589, 110590); (113821, 113822); (113824, 113827);
    (118528, 118573); (118576, 118598); (119143, 119145); (119155, 119170); (119173, 119179);
    (119210, 119213); (119362, 119364); (121344, 121398); (121403, 121452); (121461, 121461);
    (121476, 121476); (121499, 121503); (121505, 121519); (122880, 122886); (122888, 122904);
    (122907, 122913); (122915, 122916); (122918, 122922); (123184, 123197); (123566, 123566);
    (123628, 123631); (125136, 125142); (125252, 125259); (127995, 127999); (917505, 917505);
    (917536, 917631); (917760, 917999)
  ]%N.

(** The property Cased, as ranges [(first, last)]. *)
Definition cased_table : list (N * N) :=
  [
    (65, 90); (97, 122); (170, 170); (181, 181); (186, 186);
    (192, 214); (216, 246); (248, 442); (444, 447); (452, 659);
    (661, 696); (704, 705); (736, 740); (837, 837); (880, 883);
    (886, 887); (890, 893); (895, 895); (902, 902); (904, 906);
    (908, 908); (910, 929); (931, 1013); (1015, 1153); (1162, 1327);
    (1329, 1366); (1376, 1416); (4256, 4293); (4295, 4295); (4301, 4301);
    (4304, 4346); (4349, 4351); (5024, 5109); (5112, 5117); (7296, 7304);
    (7312, 7354); (7357, 7359); (7424, 7615); (7680, 7957); (7960, 7965);
    (7968, 8005); (8008, 8013); (8016, 8023); (8025, 8025); (8027, 8027);
    (8029, 8029); (8031, 8061); (8064, 8116); (8118, 8124); (8126, 8126);
    (8130, 8132); (8134, 8140); (8144, 8147); (8150, 8155); (8160, 8172);
    (8178, 8180); (8182, 8188); (8305, 8305); (8319, 8319); (8336, 8348);
    (8450, 8450); (8455, 8455); (8458, 8467); (8469, 8469); (8473, 8477);
    (8484, 8484); (8486, 8486); (8488, 8488); (8490, 8493); (8495, 8500);
    (8505, 8505); (8508, 8511); (8517, 8521); (8526, 8526); (8544, 8575);
    (8579, 8580); (9398, 9449); (11264, 11492); (11499, 11502); (11506, 11507);
    (11520, 11557); (11559, 11559); (11565, 11565); (42560, 42605); (42624, 42653);
    (42786, 42887); (42891, 42894); (42896, 42954); (42960, 42961); (42963, 42963);
    (42965, 42969); (42997, 42998); (43000, 43002); (43824, 43866); (43868, 43880);
    (43888, 43967); (64256, 64262); (64275, 64279); (65313, 65338); (65345, 65370);
    (66560, 66639); (66736, 66771); (66776, 66811); (66928, 66938); (66940, 66954);
    (66956, 66962); (66964, 66965); (66967, 66977); (66979, 66993); (66995, 67001);
    (67003, 67004); (67456, 67456); (67459, 67461); (67463, 67504); (67506, 67514);
    (68736, 68786); (68800, 68850); (71840, 71903); (93760, 93823); (119808, 119892);
    (119894, 119964); (119966, 119967); (119970, 119970); (119973, 119974); (119977, 119980);
    (119982, 119993); (119995, 119995); (119997, 120003); (120005, 120069); (120071, 120074);
    (120077, 120084); (120086, 120092); (120094, 120121); (120123, 120126); (120128, 120132);
    (120134, 120134); (120138, 120144); (120146, 120485); (120488, 120512); (120514, 120538);
    (120540, 120570); (120572, 120596); (120598, 120628); (120630, 120654); (120656, 120686);
    (120688, 120712); (120714, 120744); (120746, 120770); (120772, 120779); (122624, 122633);
    (122635, 122654); (125184, 125251); (127280, 127305); (127312, 127337); (127344, 127369)
  ]%N.

Fixpoint in_ranges (t : list (N * N)) (c : char) : bool :=
  match t with
  | [] => false
  | (first, last) :: r => ((first <=? c) && (c <=? last))%N || in_ranges r c
  end.

Definition is_case_ignorable (c : char) : bool :=
  in_ranges case_ignorable_table c.

Definition is_cased (c : char) : bool := in_ranges cased_table c.

Fixpoint lookup_lower (t : list (N * N * N * N)) (c : char) : char :=
  match t with
  | [] => c
  | (first, last, step, target) :: r =>
      if ((first <=? c) && (c <=? last) && ((c - first) mod step =? 0))%N
      then (target + (c - first))%N
      else lookup_lower r c
  end.

(** The lowercase of one character on its own: one code point, but for
    U+0130, whose lowercase is [i] followed by the combining dot above. *)
Definition lower_char (c : char) : str :=
  if (c =? 304)%N then [105; 775]%N else [lookup_lower lower_table c].

(** Whether the nearest character of [s] that is not case-ignorable is
    cased. *)
Fixpoint cased_first (s : str) : bool :=
  match s with
  | [] => false
  | c :: r => if is_case_ignorable c then cased_first r else is_cased c
  end.

(** The lowercase of a capital sigma: the final form U+03C2 when a cased
    letter comes before it and none after it, case-ignorable characters
    skipped; [before] holds the characters before it, nearest first. *)
Definition handle_capital_sigma (before after : str) : char :=
  (if cased_first before && negb (cased_first after) then 962 else 963)%N.

Fixpoint lower_from (before s : str) : str :=
  match s with
  | [] => []
  | c :: r =>
      (if (c =? 931)%N then [handle_capital_sigma before r]
       else lower_char c)
      ++ lower_from (c :: before) r
  end.

(** [s.lower()] *)
Definition lower (s : str) : str := lower_from [] s.

(** What the table holds: no entry reaches the letters [a-z] but those of
    [A-Z] and of the Kelvin sign, no entry starts from a letter [a-z], none
    touches the surrogates, and none leaves the code points below them. *)
Definition entry_ok (e : N * N * N * N) : bool :=
  let '(f, l, s, g) := e in
  ((f <=? l) && ((l <? 97) || (122 <? f))
   && ((f =? 65) && (l =? 90) && (g =? 97)
       || (f =? 8490) && (l =? 8490) && (g =? 107)
       || (g + (l - f) <? 97) || (122 <? g))
   && ((l <? 55296) && (g + (l - f) <? 55296)
       || (57343 <? f) && (57343 <? g)))%N.

Fixpoint startswith (p s : str) : bool :=
  match p, s with
  | [], _ => true
  | x :: p', y :: s' => N.eqb x y && startswith p' s'
  | _ :: _, [] => false
  end.

(** [s.endswith(suffix)] *)
Definition endswith (suffix s : str) : bool := startswith (rev suffix) (rev s).

(** [s[i]], with Python's negative indices. *)
Definition getitem (s : str) (i : Z) : result char :=
  let j := (if i <? 0 then i + len s else i)%Z in
  if (j <? 0)%Z then Raise IndexError
  else match nth_error s (Z.to_nat j) with
       | Some c => Ok c
       | None => Raise IndexError
       end.

(** [c in s] for a one-character [c]. *)
Definition contains (s : str) (c : char) : bool := existsb (N.eqb c) s.

(** [s[:n]] and [s[i:j]] for non-negative bounds. *)
Definition slice_to {A : Type} (l : list A) (n : nat) : list A := firstn n l.
Definition slice {A : Type} (l : list A) (i j : nat) : list A :=
  firstn (j - i) (skipn i l).

(** [sep.join(parts)] *)
Fixpoint join (sep : str) (parts : list str) : str :=
  match parts with
  | [] => []
  | [p] => p
  | p :: rest => p ++ sep ++ join sep rest
  end.

(** A [dict] with string keys, as the association list of its literal. *)
Definition dict (V : Type) := list (str * V).

(** [k in d] *)
Definition dict_contains {V : Type} (d : dict V) (k : str) : bool :=
  existsb (fun kv => str_eqb (fst kv) k) d.

(** [d[k]] *)
Fixpoint dict_get {V : Type} (d : dict V) (k : str) : result V :=
  match d with
  | [] => Raise KeyError
  | (k', v) :: d' => if str_eqb k' k then Ok v else dict_get d' k
  end.

(** ** The regular expressions of the syllable counter *)

Definition is_az (c : char) : bool := ((97 <=? c) && (c <=? 122))%N.
Definition is_AZ (c : char) : bool := ((65 <=? c) && (c <=? 90))%N.

(** [re.sub(r"[^a-z]", "", w)] *)
Definition re_sub_non_az (w : str) : str := filter is_az w.

(** [re.findall] of a pattern [[class]+]: the scanner extends the current
    match while the class holds and emits it at the first character outside
    the class (or at the end of the text). *)
Fixpoint runs_from (p : char -> bool) (cur : str) (s : str) : list str :=
  match s with
  | [] => if is_empty cur then [] else [cur]
  | c :: r =>
      if p c then runs_from p (cur ++ [c]) r
      else (if is_empty cur then [] else [cur]) ++ runs_from p [] r
  end.

Definition re_findall_class (p : char -> bool) (s : str) : list str :=
  runs_from p [] s.

(** ** Syllable counting *)

Definition VOWELS : str := lit "aeiouy".

Definition is_vowel (c : char) : bool := contains VOWELS c.

(** The table [special] of [count_syllables_in_word]. *)
Definition special : dict Z :=
  [ (lit "queue", 1); (lit "people", 2); (lit "choir", 1); (lit "hour", 1);
    (lit "our", 1); (lit "fire", 1); (lit "one", 1); (lit "two", 1);
    (lit "once", 1); (lit "blood", 1); (lit "breathe", 1);
    (lit "breathed", 1); (lit "every", 2); (lit "even", 2); (lit "ever", 2);
    (lit "business", 2); (lit "family", 3); (lit "poem", 2); (lit "poet", 2);
    (lit "quiet", 2); (lit "quietly", 3); (lit "science", 2);
    (lit "giant", 2) ]%Z.

(** The first two statements of [count_syllables_in_word]: the normalised
    word [w]. *)
Definition normalize (word : str) : str := re_sub_non_az (lower word).

Definition count_syllables_in_word (word : str) : result Z :=
  let w := normalize word in
  if is_empty w then Ok 0%Z
  else if dict_contains special w then dict_get special w
  else
    let groups := re_findall_class is_vowel w in
    let syllables := len groups in
    (* Trailing silent 'e' *)
    let syllables :=
      if endswith (lit "e") w
         && negb (endswith (lit "le") w || endswith (lit "ye") w)
         && (1 <? syllables)%Z
      then (syllables - 1)%Z else syllables in
    (* 'le' ending after consonant *)
    le_rule <- and_then (endswith (lit "le") w)
                 (and_then (2 <? len w)%Z
                    (c <- getitem w (-3) ;; Ok (negb (contains VOWELS c)))) ;;
    let syllables := if le_rule then (syllables + 1)%Z else syllables in
    Ok (Z.max 1 syllables).


(** ** The regular expressions of the line counter and of the noise filter *)

Definition is_opener (c : char) : bool := ((c =? 91) || (c =? 40))%N.
Definition is_closer (c : char) : bool := ((c =? 93) || (c =? 41))%N.

(** [re.sub(r"[\[\(].*?[\]\)]", "", line)].  At an opening bracket the lazy
    [.*?] stops at the first closing bracket, and [.] does not cross a
    newline; when the attempt fails the bracket is kept and the scan goes on
    at the next character. *)
Fixpoint re_sub_annotations (s : str) : str :=
  match s with
  | [] => []
  | c :: r =>
      if is_opener c then
        match (fix to_closer (t : str) : option str :=
                 match t with
                 | [] => None
                 | d :: t' =>
                     if is_closer d then Some (re_sub_annotations t')
                     else if (d =? newline)%N then None
                     else to_closer t'
                 end) r with
        | Some out => out
        | None => c :: re_sub_annotations r
        end
      else c :: re_sub_annotations r
  end.

(** The class [[A-Za-z']]. *)
Definition is_word_char (c : char) : bool :=
  is_AZ c || is_az c || (c =? 39)%N.

(** [$] without [re.MULTILINE]: the end of the text, or just before a final
    newline. *)
Definition at_end (s : str) : bool :=
  match s with
  | [] => true
  | [c] => (c =? newline)%N
  | _ => false
  end.

(** [\s*$] *)
Fixpoint ws_to_end (s : str) : bool :=
  match s with
  | [] => true
  | c :: r => (isspace c && ws_to_end r) || at_end s
  end.

(** [.*?[\]\)]\s*$]: the lazy body first tries to close here, then takes one
    more character that is not a newline. *)
Fixpoint cue_body (s : str) : bool :=
  match s with
  | [] => false
  | c :: r =>
      (is_closer c && ws_to_end r) || (negb (c =? newline)%N && cue_body r)
  end.

(** [^\s*[\[\(]...] from the start of the text. *)
Fixpoint cue_head (s : str) : bool :=
  match s with
  | [] => false
  | c :: r => (isspace c && cue_head r) || (is_opener c && cue_body r)
  end.

(** [re.search(r"^\s*[\[\(].*?[\]\)]\s*$", line)] as a truth value: [^]
    anchors the only attempt that can succeed at position 0. *)
Definition re_search_stage_cue (line : str) : bool := cue_head line.

(** The class [[ ,\-!?.]]. *)
Definition is_sep (c : char) : bool :=
  ((c =? 32) || (c =? 44) || (c =? 45) || (c =? 33) || (c =? 63) || (c =? 46))%N.

(** A literal at the head of [s]: the text left after it. *)
Fixpoint strip_prefix (p s : str) : option str :=
  match p, s with
  | [], _ => Some s
  | x :: p', y :: s' => if (x =? y)%N then strip_prefix p' s' else None
  | _ :: _, [] => None
  end.

Definition lit_at (p s : str) : list (str * str) :=
  match strip_prefix p s with
  | Some r => [(p, r)]
  | None => []
  end.

(** [o+h] once the [o]s in [seen] are consumed: more [o]s first, then [h]. *)
Fixpoint ooh_from (seen s : str) : list (str * str) :=
  match s with
  | [] => []
  | c :: r =>
      (if (c =? 111)%N then ooh_from (seen ++ [c]) r else [])
      ++ (if (c =? 104)%N then [(seen ++ [c], r)] else [])
  end.

Definition ooh_at (s : str) : list (str * str) :=
  match s with
  | c :: r => if (c =? 111)%N then ooh_from [c] r else []
  | [] => []
  end.

(** The group [(la|na|o+h|yeah|ya|uh)] at the head of [s]: every way it can
    match, as (captured text, rest), in the order the engine tries them. *)
Definition filler_alt (s : str) : list (str * str) :=
  lit_at (lit "la") s ++ lit_at (lit "na") s ++ ooh_at s
  ++ lit_at (lit "yeah") s ++ lit_at (lit "ya") s ++ lit_at (lit "uh") s.

(** [[ ,\-!?.]*\1] at the head of [s], where group 1 holds [tok]: the rests
    after it, longest run of separators first. *)
Fixpoint seps_then (tok s : str) : list str :=
  (match s with
   | c :: r => if is_sep c then seps_then tok r else []
   | [] => []
   end)
  ++ (match strip_prefix tok s with Some r => [r] | None => [] end).

(** [([ ,\-!?.]*\1)*] up to the end of the text.  Every repetition consumes
    the non-empty [tok], so the search ends; [fuel] bounds its depth. *)
Fixpoint rep_loop (fuel : nat) (tok s : str) : bool :=
  match fuel with
  | O => false
  | S f => existsb (rep_loop f tok) (seps_then tok s) || is_empty s
  end.

(** [(...)+] after its first iteration: [tok] is what group 1 captured last.
    One more iteration is tried first, then the rest of the pattern. *)
Fixpoint plus_loop (fuel : nat) (tok s : str) : bool :=
  match fuel with
  | O => false
  | S f =>
      existsb (fun tr => plus_loop f (fst tr) (snd tr)) (filler_alt s)
      || rep_loop (S f) tok s
  end.

(** [re.fullmatch(r"(la|na|o+h|yeah|ya|uh)+([ ,\-!?.]*\1)*", s)] as a truth
    value. *)
Definition re_fullmatch_filler (s : str) : bool :=
  existsb (fun tr => plus_loop (length s) (fst tr) (snd tr)) (filler_alt s).

(** ** Haiku detection *)

Record Haiku : Type := mkHaiku {
  title : str;
  artist : str;
  lines : list str;
  syllables : list Z
}.

(** The property [Haiku.text]. *)
Definition text (h : Haiku) : str := join [newline] (lines h).

Definition is_noise_line (line : str) : bool :=
  if is_empty (strip line) then true
  else if re_search_stage_cue line then true
  else if re_fullmatch_filler (lower (strip line)) then true
  else false.

(** [s.replace("\r\n", "\n")] and [s.replace("\r", "\n")] *)
Fixpoint replace_crlf (s : str) : str :=
  match s with
  | [] => []
  | c :: r =>
      match r with
      | d :: r' =>
          if (c =? carriage_return)%N && (d =? newline)%N
          then newline :: replace_crlf r'
          else c :: replace_crlf r
      | [] => [c]
      end
  end.

Definition replace_cr (s : str) : str :=
  map (fun c => if (c =? carriage_return)%N then newline else c) s.

(** [s.split(sep)] for a one-character separator. *)
Fixpoint split_from (sep : char) (cur s : str) : list str :=
  match s with
  | [] => [cur]
  | c :: r =>
      if (c =? sep)%N then cur :: split_from sep [] r
      else split_from sep (cur ++ [c]) r
  end.

Definition split (sep : char) (s : str) : list str := split_from sep [] s.

(** [range(n)] *)
Definition range (n : Z) : list nat := seq 0 (Z.to_nat n).

(** A [for] loop over [xs] that threads the state [st] and stops at the first
    exception. *)
Fixpoint for_each {A S : Type} (xs : list A) (body : A -> S -> result S)
  (st : S) : result S :=
  match xs with
  | [] => Ok st
  | x :: r => st' <- body x st ;; for_each r body st'
  end.

(** [tuple(f(x) for x in xs)] *)
Fixpoint tuple_of {A B : Type} (f : A -> result B) (xs : list A)
  : result (list B) :=
  match xs with
  | [] => Ok []
  | x :: r => y <- f x ;; ys <- tuple_of f r ;; Ok (y :: ys)
  end.

(** [==] on tuples of integers. *)
Fixpoint tuple_eqb (a b : list Z) : bool :=
  match a, b with
  | [], [] => true
  | x :: a', y :: b' => (x =? y)%Z && tuple_eqb a' b'
  | _, _ => false
  end.

(** [sum(f(x) for x in xs)] *)
Fixpoint sum_of {A : Type} (f : A -> result Z) (xs : list A) (acc : Z)
  : result Z :=
  match xs with
  | [] => Ok acc
  | x :: r => v <- f x ;; sum_of f r (acc + v)%Z
  end.

Section Detector.

(** [unidecode.unidecode], the transliteration to ASCII of the third-party
    package: any total function on strings. *)
Variable unidecode : str -> str.

Definition count_syllables_in_line (line : str) : result Z :=
  let line := re_sub_annotations line in
  let line := unidecode line in
  let words := re_findall_class is_word_char line in
  sum_of count_syllables_in_word words 0%Z.

Definition find_haikus_in_lyrics (title artist lyrics : str)
  : result (list Haiku) :=
  let raw_lines :=
    map strip (split newline (replace_cr (replace_crlf lyrics))) in
  let lines := filter (fun ln => negb (is_noise_line ln)) raw_lines in
  for_each (range (len lines - 2))
    (fun i haikus =>
       let triplet := slice lines i (i + 3) in
       sylls <- tuple_of count_syllables_in_line triplet ;;
       if tuple_eqb sylls [5; 7; 5]%Z
       then Ok (haikus ++ [mkHaiku title artist triplet sylls])
       else Ok haikus)
    [].

End Detector.

(** On ASCII text [unidecode] returns its argument; this instance evaluates
    the detector on ASCII lyrics. *)
Definition unidecode_ascii (s : str) : str := s.

(** ** [hashlib.sha256]

    The hash of FIPS 180-4 on a list of bytes, written out so that signatures
    evaluate.  Words are 32-bit values in [N]; additions wrap at [2^32]. *)

Module Sha256.

Local Open Scope N_scope.

Definition wrap32 (x : N) : N := x mod 4294967296.
Definition add32 (x y : N) : N := wrap32 (x + y).
Definition rotr (n x : N) : N :=
  N.lor (N.shiftr x n) (wrap32 (N.shiftl x (32 - n))).
Definition not32 (x : N) : N := N.lxor x 0xffffffff.

Definition Ch (x y z : N) : N := N.lxor (N.land x y) (N.land (not32 x) z).
Definition Maj (x y z : N) : N :=
  N.lxor (N.lxor (N.land x y) (N.land x z)) (N.land y z).
Definition Sigma0 (x : N) : N :=
  N.lxor (N.lxor (rotr 2 x) (rotr 13 x)) (rotr 22 x).
Definition Sigma1 (x : N) : N :=
  N.lxor (N.lxor (rotr 6 x) (rotr 11 x)) (rotr 25 x).
Definition sigma0 (x : N) : N :=
  N.lxor (N.lxor (rotr 7 x) (rotr 18 x)) (N.shiftr x 3).
Definition sigma1 (x : N) : N :=
  N.lxor (N.lxor (rotr 17 x) (rotr 19 x)) (N.shiftr x 10).

(** The initial hash value and the round constants, four words a row. *)
Definition H0 : list N :=
  concat
    [
      [0x6a09e667; 0xbb67ae85; 0x3c6ef372; 0xa54ff53a];
      [0x510e527f; 0x9b05688c; 0x1f83d9ab; 0x5be0cd19] ].

Definition K : list N :=
  concat
    [
      [0x428a2f98; 0x71374491; 0xb5c0fbcf; 0xe9b5dba5];
      [0x3956c25b; 0x59f111f1; 0x923f82a4; 0xab1c5ed5];
      [0xd807aa98; 0x12835b01; 0x243185be; 0x550c7dc3];
      [0x72be5d74; 0x80deb1fe; 0x9bdc06a7; 0xc19bf174];
      [0xe49b69c1; 0xefbe4786; 0x0fc19dc6; 0x240ca1cc];
      [0x2de92c6f; 0x4a7484aa; 0x5cb0a9dc; 0x76f988da];
      [0x983e5152; 0xa831c66d; 0xb00327c8; 0xbf597fc7];
      [0xc6e00bf3; 0xd5a79147; 0x06ca6351; 0x14292967];
      [0x27b70a85; 0x2e1b2138; 0x4d2c6dfc; 0x53380d13];
      [0x650a7354; 0x766a0abb; 0x81c2c92e; 0x92722c85];
      [0xa2bfe8a1; 0xa81a664b; 0xc24b8b70; 0xc76c51a3];
      [0xd192e819; 0xd6990624; 0xf40e3585; 0x106aa070];
      [0x19a4c116; 0x1e376c08; 0x2748774c; 0x34b0bcb5];
      [0x391c0cb3; 0x4ed8aa4a; 0x5b9cca4f; 0x682e6ff3];
      [0x748f82ee; 0x78a5636f; 0x84c87814; 0x8cc70208];
      [0x90befffa; 0xa4506ceb; 0xbef9a3f7; 0xc67178f2] ].

(** Big-endian bytes of [x], [n] of them. *)
Fixpoint be_bytes (n : nat) (x : N) : list N :=
  match n with
  | O => []
  | S n' => be_bytes n' (N.shiftr x 8) ++ [x mod 256]
  end.

Definition be_word (bs : list N) : N :=
  fold_left (fun acc b => acc * 256 + b) bs 0.

(** The message, a [1] bit, zeros up to 56 modulo 64 bytes, and the bit
    length on 8 bytes. *)
Definition pad (msg : list N) : list N :=
  let l := length msg in
  let zeros := ((64 - (l + 9) mod 64) mod 64)%nat in
  msg ++ [0x80] ++ repeat 0 zeros ++ be_bytes 8 (8 * N.of_nat l).

Fixpoint chunks {A : Type} (size count : nat) (l : list A) : list (list A) :=
  match count with
  | O => []
  | S c => firstn size l :: chunks size c (skipn size l)
  end.

(** The message schedule: [n] more words after those of [w]. *)
Fixpoint extend (n : nat) (w : list N) : list N :=
  match n with
  | O => w
  | S n' =>
      let t := length w in
      let x :=
        add32 (add32 (sigma1 (nth (t - 2)%nat w 0)) (nth (t - 7)%nat w 0))
              (add32 (sigma0 (nth (t - 15)%nat w 0))
                     (nth (t - 16)%nat w 0)) in
      extend n' (w ++ [x])
  end.

Definition state : Type := N * N * N * N * N * N * N * N.

Definition round (st : state) (kw : N * N) : state :=
  let '(a, b, c, d, e, f, g, h) := st in
  let t1 :=
    add32 (add32 (add32 h (Sigma1 e)) (Ch e f g))
          (add32 (fst kw) (snd kw)) in
  let t2 := add32 (Sigma0 a) (Maj a b c) in
  (add32 t1 t2, a, b, c, add32 d t1, e, f, g).

Definition compress (hs : state) (block : list N) : state :=
  let w := extend 48 (map be_word (chunks 4 16 block)) in
  let '(a, b, c, d, e, f, g, h) := fold_left round (combine K w) hs in
  let '(a0, b0, c0, d0, e0, f0, g0, h0) := hs in
  (add32 a0 a, add32 b0 b, add32 c0 c, add32 d0 d,
   add32 e0 e, add32 f0 f, add32 g0 g, add32 h0 h).

Definition initial : state :=
  (nth 0 H0 0, nth 1 H0 0, nth 2 H0 0, nth 3 H0 0,
   nth 4 H0 0, nth 5 H0 0, nth 6 H0 0, nth 7 H0 0).

(** [hashlib.sha256(msg).digest()] *)
Definition digest (msg : list N) : list N :=
  let m := pad msg in
  let '(a, b, c, d, e, f, g, h) :=
    fold_left compress (chunks 64 (length m / 64)%nat m) initial in
  flat_map (be_bytes 4) [a; b; c; d; e; f; g; h].

Definition hex_digit (d : N) : char := if d <? 10 then 48 + d else 87 + d.

(** [hashlib.sha256(msg).hexdigest()] *)
Definition hexdigest (msg : list N) : str :=
  flat_map (fun b => [hex_digit (b / 16); hex_digit (b mod 16)]) (digest msg).

End Sha256.

(** [s.encode()]: UTF-8.  A surrogate code point cannot be encoded; neither
    can a value above U+10FFFF, which no [str] holds. *)
Definition encode_char (c : char) : result (list N) :=
  (if c <? 0x80 then Ok [c]
   else if c <? 0x800 then
     Ok [N.lor 0xC0 (N.shiftr c 6); N.lor 0x80 (N.land c 0x3F)]
   else if c <? 0x10000 then
     if (0xD800 <=? c) && (c <=? 0xDFFF) then Raise UnicodeEncodeError
     else Ok [N.lor 0xE0 (N.shiftr c 12);
              N.lor 0x80 (N.land (N.shiftr c 6) 0x3F);
              N.lor 0x80 (N.land c 0x3F)]
   else if c <? 0x110000 then
     Ok [N.lor 0xF0 (N.shiftr c 18);
         N.lor 0x80 (N.land (N.shiftr c 12) 0x3F);
         N.lor 0x80 (N.land (N.shiftr c 6) 0x3F);
         N.lor 0x80 (N.land c 0x3F)]
   else Raise UnicodeEncodeError)%N.

Fixpoint encode (s : str) : result (list N) :=
  match s with
  | [] => Ok []
  | c :: r => bs <- encode_char c ;; rest <- encode r ;; Ok (bs ++ rest)
  end.

(** [Haiku.signature]: the three [update] calls feed the hash the
    concatenation of their arguments. *)
Definition signature (h : Haiku) : result str :=
  t <- encode (lower (strip (title h))) ;;
  a <- encode (lower (strip (artist h))) ;;
  x <- encode (lower (strip (text h))) ;;
  Ok (Sha256.hexdigest (t ++ a ++ x)).

(** ** Tweet text *)

Definition em_dash : char := 8212%N.

Definition compose_tweet_text (h : Haiku) (include_attribution : bool) : str :=
  let body := strip (text h) in
  if include_attribution then
    let attribution :=
      [newline; newline; em_dash] ++ lit " " ++ title h
      ++ lit " by " ++ artist h in
    let candidate := body ++ attribution in
    if (len candidate <=? 280)%Z then candidate
    else
      let candidate2 :=
        body ++ [newline; newline; em_dash] ++ lit " " ++ title h in
      if (len candidate2 <=? 280)%Z then candidate2
      else slice_to body 280
  else slice_to body 280.

(** ** The specification's wording of the heuristic

    The number of maximal runs of vowels in [w] is the number of positions
    where a vowel is not preceded by a vowel. *)

Fixpoint run_starts (inside : bool) (w : str) : Z :=
  match w with
  | [] => 0
  | c :: r =>
      ((if is_vowel c && negb inside then 1 else 0)
       + run_starts (is_vowel c) r)%Z
  end.

Definition vowel_runs (w : str) : Z := run_starts false w.

Definition is_consonant (c : char) : bool := is_az c && negb (is_vowel c).

(** [w] ends in ["le"] and the character just before it is a consonant. *)
Definition ends_in_consonant_le (w : str) : bool :=
  match rev w with
  | e :: l :: c :: _ => ((e =? 101) && (l =? 108))%N && is_consonant c
  | _ => false
  end.

(** The lower-cased, letters-only form of a word, character by character:
    a letter [a-z] stays; a letter [A-Z] gives its lowercase; so do the two
    other characters whose lowercase holds a letter [a-z] (U+0130, the
    capital I with a dot, gives [i]; the Kelvin sign U+212A gives [k]);
    every other character is dropped. *)
Definition fold_letter (c : char) : str :=
  (if is_az c then [c]
   else if (65 <=? c) && (c <=? 90) then [c + 32]
   else if c =? 304 then [105]
   else if c =? 8490 then [107]
   else [])%N.

Definition letters_only (word : str) : str := flat_map fold_letter word.

(** Vowel runs, minus one for a silent final ["e"], plus one for a final
    consonant + ["le"], floored at 1 when [w] is not empty. *)
Definition spec_heuristic (w : str) : Z :=
  if is_empty w then 0%Z
  else
    let raw := vowel_runs w in
    let silent_e :=
      endswith (lit "e") w && negb (endswith (lit "le") w)
      && negb (endswith (lit "ye") w) && (1 <? raw)%Z in
    Z.max 1 (raw - (if silent_e then 1 else 0)
             + (if ends_in_consonant_le w then 1 else 0))%Z.

(** ** The detector, as the specification words it

    The first two statements of [find_haikus_in_lyrics]: the content lines. *)
Definition content_lines (lyrics : str) : list str :=
  filter (fun ln => negb (is_noise_line ln))
    (map strip (split newline (replace_cr (replace_crlf lyrics)))).

(** The three consecutive lines of [c] from index [i]. *)
Definition window (c : list str) (i : nat) : list str :=
  [nth i c []; nth (i + 1) c []; nth (i + 2) c []].

Definition is_575 (unidecode : str -> str) (t : list str) : bool :=
  match tuple_of (count_syllables_in_line unidecode) t with
  | Ok s => tuple_eqb s [5; 7; 5]%Z
  | Raise _ => false
  end.

(** The indices [0 .. len(c) - 3] whose window counts 5, 7, 5, in increasing
    order. *)
Definition matching_indices (unidecode : str -> str) (c : list str)
  : list nat :=
  filter (fun i => is_575 unidecode (window c i)) (seq 0 (length c - 2)).

(** ** The three kinds of noise line *)

Definition not_newline (c : char) : bool := negb (c =? newline)%N.

(** [r] ends in a closing bracket, with no newline before it. *)
Definition body_closed (r : str) : bool :=
  match rev r with
  | c :: b => is_closer c && forallb not_newline b
  | [] => false
  end.

(** [t] starts with an opening bracket or parenthesis and ends with a closing
    one, with no newline in between. *)
Definition bracket_delimited (t : str) : bool :=
  match t with
  | o :: r => is_opener o && body_closed r
  | [] => false
  end.

(** [t] is one annotation: an opening bracket or parenthesis, a text that
    holds no closing bracket and no newline, and a closing one. *)
Definition single_annotation (t : str) : bool :=
  match t with
  | o :: r =>
      is_opener o
      && match rev r with
         | c :: b =>
             is_closer c
             && forallb (fun x => negb (is_closer x) && not_newline x) b
         | [] => false
         end
  | [] => false
  end.

Definition filler_words : list str :=
  map lit ["la"; "na"; "yeah"; "ya"; "uh"]%string.

(** A filler token: one of the five words, or ["oh"] with one or more
    ["o"]. *)
Definition is_filler (t : str) : Prop :=
  In t filler_words \/ exists n, t = repeat 111%N (S n) ++ [104%N].

Definition all_seps (sp : str) : Prop := forallb is_sep sp = true.

(** [sp1 tok sp2 tok ...]: [tok] repeated after each run of separators. *)
Definition repeats (tok : str) (seps : list str) : str :=
  flat_map (fun sp => sp ++ tok) seps.

(** The language of the filler pattern: one or more filler tokens, then zero
    or more repetitions of (separators, the token that was matched last). *)
Definition filler_line (s : str) : Prop :=
  exists toks seps,
    toks <> [] /\ Forall is_filler toks /\ Forall all_seps seps
    /\ s = concat toks ++ repeats (last toks []) seps.

(** The same shape with the first token repeated. *)
Definition filler_line_first (s : str) : Prop :=
  exists toks seps,
    toks <> [] /\ Forall is_filler toks /\ Forall all_seps seps
    /\ s = concat toks ++ repeats (hd [] toks) seps.

(** ** Sample values

    A small lyric: five content lines counting 5, 7, 5, 7, 5 syllables, with
    a stage cue, a filler line and the three newline conventions in
    between. *)
Definition demo_lyrics : str :=
  lit "An old silent pond" ++ [carriage_return; newline]
  ++ lit "[Verse 1]" ++ [newline]
  ++ lit "  A frog jumps into the pond " ++ [carriage_return]
  ++ lit "la la la" ++ [newline]
  ++ lit "Splash silence again" ++ [newline]
  ++ lit "A frog jumps into the pond" ++ [newline]
  ++ lit "An old silent pond".

Definition demo_first : Haiku :=
  mkHaiku (lit "Pond") (lit "Basho")
    [lit "An old silent pond"; lit "A frog jumps into the pond";
     lit "Splash silence again"] [5; 7; 5]%Z.

Definition demo_second : Haiku :=
  mkHaiku (lit "Pond") (lit "Basho")
    [lit "Splash silence again"; lit "A frog jumps into the pond";
     lit "An old silent pond"] [5; 7; 5]%Z.

Definition haiku_inner_space : Haiku :=
  mkHaiku (lit "Song") (lit "Band")
    [lit "one "; lit "two"; lit "three"] [5; 7; 5]%Z.

Definition haiku_trimmed : Haiku :=
  mkHaiku (lit "Song") (lit "Band")
    [lit "one"; lit "two"; lit "three"] [5; 7; 5]%Z.

(** A haiku in capitals with whitespace around its parts: a Greek title
    that ends in a capital sigma, a Cyrillic artist; and the same haiku
    trimmed and in small letters (the title ends in the final sigma
    U+03C2). *)
Definition haiku_capitals : Haiku :=
  mkHaiku ([32; 32; 927; 916; 927; 931]%N)
    ([1055; 1045; 1057; 1053; 1071; 32; 32]%N)
    [lit " One"; lit "TWO"; lit "three  "] [5; 7; 5]%Z.

Definition haiku_small : Haiku :=
  mkHaiku ([959; 948; 959; 962]%N) ([1087; 1077; 1089; 1085; 1103]%N)
    [lit "one"; lit "two"; lit "three"] [5; 7; 5]%Z.

(** ** The tweet text, candidate by candidate *)

(** The two attribution lines of [compose_tweet_text]: two newlines, an em
    dash, a space, the title, and for the full form [" by "] and the
    artist. *)
Definition attribution_title (h : Haiku) : str :=
  [newline; newline; em_dash; 32%N] ++ title h.

Definition attribution_full (h : Haiku) : str :=
  attribution_title h ++ lit " by " ++ artist h.

(** The first candidate as the claim words it: the em dash directly followed
    by the title. *)
Definition claimed_full (h : Haiku) : str :=
  [newline; newline; em_dash] ++ title h ++ lit " by " ++ artist h.

(** ** Further definitions for the properties of the whole program

    [.*?[\]\)]] at the head of [t]: the text after the first closing bracket,
    when no newline comes before it. *)
Fixpoint after_closer (t : str) : option str :=
  match t with
  | [] => None
  | d :: t' =>
      if is_closer d then Some t'
      else if (d =? newline)%N then None
      else after_closer t'
  end.

Definition is_letter (c : char) : bool := is_AZ c || is_az c.

Definition ch_open : char := 40%N.
Definition ch_close : char := 41%N.

(** A character that is neither CR nor LF. *)
Definition no_cr_lf (c : char) : bool :=
  negb (c =? carriage_return)%N && negb (c =? newline)%N.

(** The lines of a text, as the specification words the splitting: the text
    is cut at its line breaks, and a line break is CR LF, a CR on its own or
    an LF on its own.  [lines_of s ls]: [ls] are the pieces between the
    breaks, in order; no piece holds a CR or an LF. *)
Inductive lines_of : str -> list str -> Prop :=
| lines_of_last (l : str) :
    forallb no_cr_lf l = true -> lines_of l [l]
| lines_of_lf (l rest : str) (ls : list str) :
    forallb no_cr_lf l = true -> lines_of rest ls ->
    lines_of (l ++ newline :: rest) (l :: ls)
| lines_of_crlf (l rest : str) (ls : list str) :
    forallb no_cr_lf l = true -> lines_of rest ls ->
    lines_of (l ++ carriage_return :: newline :: rest) (l :: ls)
| lines_of_cr (l rest : str) (ls : list str) :
    forallb no_cr_lf l = true -> hd_error rest <> Some newline ->
    lines_of rest ls ->
    lines_of (l ++ carriage_return :: rest) (l :: ls).

(** The content lines: the lines trimmed, without the noise lines, in their
    order. *)
Definition content_of (ls : list str) : list str :=
  filter (fun ln => negb (is_noise_line ln)) (map strip ls).


(** A lowercase hexadecimal digit. *)
Definition is_lower_hex (c : char) : bool :=
  ((48 <=? c) && (c <=? 57) || (97 <=? c) && (c <=? 102))%N.

(** A surrogate code point (U+D800 .. U+DFFF). *)
Definition is_surrogate (c : char) : bool :=
  ((0xD800 <=? c) && (c <=? 0xDFFF))%N.

Definition below_surrogates (s : str) : bool :=
  forallb (fun c => (c <? 0xD800)%N) s.

Definition no_space (s : str) : bool := forallb (fun c => negb (isspace c)) s.

Definition no_capital_sigma (s : str) : bool :=
  forallb (fun c => negb (c =? 931)%N) s.

(** [==] on two results that are strings. *)
Definition str_eqb_result (a b : result str) : bool :=
  match a, b with
  | Ok x, Ok y => str_eqb x y
  | _, _ => false
  end.

(** ** Storage: the SQLite table [haikus]

    What the driver can fail with, besides the exceptions of the text
    functions. *)
Inductive failure : Type :=
| PyExn (e : exn)
| OperationalError   (* sqlite3: no such table: haikus *)
| OverflowError      (* sqlite3: Python int too large for an INTEGER *)
| RuntimeError       (* make_client: tweepy is not installed *)
| ApiError (code : nat).   (* whatever the posting call raises *)

Inductive outcome (A : Type) : Type :=
| Done (a : A)
| Failed (f : failure).
Arguments Done {A} a.
Arguments Failed {A} f.

(** A row of [haikus].  The [id] column is never read by the program and is
    left out; rows are kept in insertion order. *)
Record Row : Type := mkRow {
  row_sig : str;
  row_title : str;
  row_artist : str;
  row_line1 : str;
  row_line2 : str;
  row_line3 : str;
  row_s1 : Z;
  row_s2 : Z;
  row_s3 : Z;
  row_tweeted_at : option str
}.

(** The database file: [None] while it holds no table [haikus]. *)
Definition database : Type := option (list Row).

(** A function that works on the database: it returns or fails, and leaves
    the database in some state either way (every statement is committed on
    its own). *)
Definition action (A : Type) : Type := database -> outcome A * database.

Definition act_ret {A : Type} (a : A) : action A := fun db => (Done a, db).

Definition act_bind {A B : Type} (m : action A) (k : A -> action B)
  : action B :=
  fun db =>
    match m db with
    | (Done a, db') => k a db'
    | (Failed f, db') => (Failed f, db')
    end.

Notation "x <~ m ;; k" := (act_bind m (fun x => k))
  (at level 61, m at next level, right associativity).

Definition act_lift {A : Type} (r : result A) : action A :=
  fun db =>
    match r with
    | Ok a => (Done a, db)
    | Raise e => (Failed (PyExn e), db)
    end.

Fixpoint act_for_each {A S : Type} (xs : list A) (body : A -> S -> action S)
  (st : S) : action S :=
  match xs with
  | [] => act_ret st
  | x :: r => st' <~ body x st ;; act_for_each r body st'
  end.

(** [t[i]] on a tuple, for an index [i >= 0]. *)
Definition tuple_get {A : Type} (t : list A) (i : nat) : result A :=
  match nth_error t i with
  | Some x => Ok x
  | None => Raise IndexError
  end.

(** The integers SQLite stores: 64-bit signed. *)
Definition fits_int64 (z : Z) : bool :=
  ((- 2 ^ 63 <=? z) && (z <? 2 ^ 63))%Z.

(** [CREATE TABLE IF NOT EXISTS haikus (...)] *)
Definition ensure_db : action unit :=
  fun db =>
    (Done tt, match db with None => Some [] | Some rows => Some rows end).

(** The parameter tuple of the [INSERT] of [cache_haiku], evaluated left to
    right, as the row it describes ([tweeted_at] is not given: NULL). *)
Definition insert_parameters (h : Haiku) : result Row :=
  s <- signature h ;;
  l1 <- tuple_get (lines h) 0 ;;
  l2 <- tuple_get (lines h) 1 ;;
  l3 <- tuple_get (lines h) 2 ;;
  s1 <- tuple_get (syllables h) 0 ;;
  s2 <- tuple_get (syllables h) 1 ;;
  s3 <- tuple_get (syllables h) 2 ;;
  Ok (mkRow s (title h) (artist h) l1 l2 l3 s1 s2 s3 None).

Definition has_sig (s : str) (rows : list Row) : bool :=
  existsb (fun r => str_eqb (row_sig r) s) rows.

(** [INSERT OR IGNORE INTO haikus ...]: the parameters are evaluated, the
    statement is prepared (the table must exist), the integers are bound,
    and the row is added unless its [sig] is already there ([sig] is
    [UNIQUE]). *)
Definition cache_haiku (h : Haiku) : action unit :=
  fun db =>
    match insert_parameters h with
    | Raise e => (Failed (PyExn e), db)
    | Ok row =>
        match db with
        | None => (Failed OperationalError, db)
        | Some rows =>
            if negb (fits_int64 (row_s1 row) && fits_int64 (row_s2 row)
                     && fits_int64 (row_s3 row))
            then (Failed OverflowError, db)
            else if has_sig (row_sig row) rows then (Done tt, db)
            else (Done tt, Some (rows ++ [row]))
        end
    end.

Definition is_unused (r : Row) : bool :=
  match row_tweeted_at r with
  | None => true
  | Some _ => false
  end.

(** The [Haiku] that [load_one_unused_haiku] builds from a row. *)
Definition haiku_of_row (r : Row) : Haiku :=
  mkHaiku (row_title r) (row_artist r)
    [row_line1 r; row_line2 r; row_line3 r]
    [row_s1 r; row_s2 r; row_s3 r].

(** [SELECT ... WHERE tweeted_at IS NULL ORDER BY RANDOM() LIMIT 1]: one of
    the unused rows, the one the random order puts first; [draw] stands for
    that choice. *)
Definition load_one_unused_haiku (draw : nat) : action (option Haiku) :=
  fun db =>
    match db with
    | None => (Failed OperationalError, db)
    | Some rows =>
        let unused := filter is_unused rows in
        (Done (option_map haiku_of_row
                 (nth_error unused (draw mod length unused))), db)
    end.

Definition set_tweeted (now : str) (r : Row) : Row :=
  mkRow (row_sig r) (row_title r) (row_artist r) (row_line1 r) (row_line2 r)
    (row_line3 r) (row_s1 r) (row_s2 r) (row_s3 r) (Some now).

(** The [UPDATE] on one row: [tweeted_at] is set where [sig] matches. *)
Definition mark_row (now s : str) (r : Row) : Row :=
  if str_eqb (row_sig r) s then set_tweeted now r else r.

(** [UPDATE haikus SET tweeted_at=? WHERE sig=?]; [now] is the ISO time
    stamp of the call. *)
Definition mark_tweeted (now : str) (h : Haiku) : action unit :=
  fun db =>
    match signature h with
    | Raise e => (Failed (PyExn e), db)
    | Ok s =>
        match db with
        | None => (Failed OperationalError, db)
        | Some rows =>
            (Done tt, Some (map (mark_row now s) rows))
        end
    end.

(** ** CSV scanning

    A row of [csv.DictReader]: the value of each named column, [None] when
    the file has no such column or the line is short. *)
Record CsvRow : Type := mkCsvRow {
  csv_title : option str;
  csv_artist : option str;
  csv_lyrics : option str
}.

(** [row.get(key) or default]: the default replaces a missing and an empty
    value. *)
Definition get_or (v : option str) (default : str) : str :=
  match v with
  | Some s => if is_empty s then default else s
  | None => default
  end.

(** [scan_csv], from the rows the reader yields. *)
Definition scan_csv (unidecode : str -> str) (rows : list CsvRow)
  : action Z :=
  _ <~ ensure_db ;;
  act_for_each rows
    (fun row found =>
       let title := get_or (csv_title row) (lit "Unknown Title") in
       let artist := get_or (csv_artist row) (lit "Unknown Artist") in
       let lyrics := get_or (csv_lyrics row) (lit "") in
       hs <~ act_lift (find_haikus_in_lyrics unidecode title artist lyrics) ;;
       act_for_each hs
         (fun h found => _ <~ cache_haiku h ;; act_ret (found + 1)%Z)
         found)
    0%Z.

(** ** Invariants of the table *)

(** The stored [sig] of a row is the signature of the haiku read back from
    it. *)
Definition well_signed (r : Row) : Prop :=
  signature (haiku_of_row r) = Ok (row_sig r).

Definition well_formed (rows : list Row) : Prop :=
  NoDup (map row_sig rows) /\ Forall well_signed rows.

(** The haiku that [scan_csv] detects in a row. *)
Definition detected (unidecode : str -> str) (row : CsvRow) : list Haiku :=
  match find_haikus_in_lyrics unidecode
          (get_or (csv_title row) (lit "Unknown Title"))
          (get_or (csv_artist row) (lit "Unknown Artist"))
          (get_or (csv_lyrics row) (lit "")) with
  | Ok hs => hs
  | Raise _ => []
  end.

Definition demo_csv : list CsvRow :=
  [ mkCsvRow (Some (lit "Pond")) (Some (lit "Basho")) (Some demo_lyrics);
    mkCsvRow (Some (lit "")) None (Some demo_lyrics);
    mkCsvRow (Some (lit "Pond")) (Some (lit "Basho")) (Some demo_lyrics) ].

(** The table after [cache_haiku demo_first] on an empty one. *)
Definition demo_row : Row :=
  mkRow (match signature demo_first with Ok s => s | Raise _ => [] end)
    (lit "Pond") (lit "Basho") (lit "An old silent pond")
    (lit "A frog jumps into the pond") (lit "Splash silence again")
    5 7 5 None.

(** [h] is in the table: caching it again succeeds and changes nothing. *)
Definition cached (h : Haiku) (rows : list Row) : Prop :=
  cache_haiku h (Some rows) = (Done tt, Some rows).

Definition rows_of (db : database) : list Row :=
  match db with
  | Some rows => rows
  | None => []
  end.

(** A row as the scan writes it: unused, with the counts 5, 7, 5. *)
Definition scanned_row (r : Row) : Prop :=
  row_tweeted_at r = None /\ [row_s1 r; row_s2 r; row_s3 r] = [5; 7; 5]%Z.

(** ** The [tweet] command

    What a run shows outside the database, in order. *)
Inductive event : Type :=
| Printed (s : str)            (* [print(s)] returned *)
| CreateTweet (text : str).    (* [client.create_tweet(text=text)] was called *)

(** The dictionary that [load_keys] returns. *)
Record Keys : Type := mkKeys {
  api_key : option str;
  api_secret : option str;
  access_token : option str;
  access_secret : option str;
  dry_run : bool
}.

(** What the command takes from outside the program. *)
Record World : Type := mkWorld {
  (* [os.getenv], once [load_dotenv()] has run *)
  getenv : str -> option str;
  (* the module [tweepy], [None] when its import failed; for the client made
     from the keys (the constructor only stores them), the id that
     [create_tweet] answers with, as a string, or the exception on the
     way *)
  tweepy : option (Keys -> str -> outcome str);
  (* the exception that [print(s)] raises, if it does *)
  stdout : str -> option failure;
  (* [datetime.now(timezone.utc).isoformat()] *)
  utcnow : str;
  (* the row that [ORDER BY RANDOM()] puts first *)
  random_draw : nat
}.

(** A command works on the database and adds to the events. *)
Definition io (A : Type) : Type :=
  database * list event -> outcome A * (database * list event).

Definition io_ret {A : Type} (a : A) : io A := fun st => (Done a, st).

Definition io_bind {A B : Type} (m : io A) (k : A -> io B) : io B :=
  fun st =>
    match m st with
    | (Done a, st') => k a st'
    | (Failed f, st') => (Failed f, st')
    end.

Notation "x <~~ m ;; k" := (io_bind m (fun x => k))
  (at level 61, m at next level, right associativity).

Definition on_db {A : Type} (m : action A) : io A :=
  fun st => let (r, db') := m (fst st) in (r, (db', snd st)).

Definition io_lift {A : Type} (r : outcome A) : io A := fun st => (r, st).

Definition print (w : World) (s : str) : io unit :=
  fun st =>
    match stdout w s with
    | Some f => (Failed f, st)
    | None => (Done tt, (fst st, snd st ++ [Printed s]))
    end.

(** [x in t] for a tuple of strings. *)
Definition str_in (x : str) (t : list str) : bool := existsb (str_eqb x) t.

(** [os.getenv(name, default)] *)
Definition getenv_default (w : World) (name default : str) : str :=
  match getenv w name with
  | Some v => v
  | None => default
  end.

Definition load_keys (w : World) : Keys :=
  mkKeys (getenv w (lit "X_API_KEY")) (getenv w (lit "X_API_SECRET"))
    (getenv w (lit "X_ACCESS_TOKEN")) (getenv w (lit "X_ACCESS_TOKEN_SECRET"))
    (str_in (lower (getenv_default w (lit "DRY_RUN") (lit "false")))
       [lit "1"; lit "true"; lit "yes"; lit "y"]).

Definition make_client (w : World) (keys : Keys)
  : outcome (str -> outcome str) :=
  match tweepy w with
  | None => Failed RuntimeError
  | Some client_of => Done (client_of keys)
  end.

Definition post_tweet (text : str) (client : str -> outcome str) : io str :=
  fun st => (client text, (fst st, snd st ++ [CreateTweet text])).

(** [main] on [tweet] and [tweet --no-attrib], after the arguments are
    parsed. *)
Definition main_tweet (w : World) (no_attrib : bool) : io unit :=
  _ <~~ on_db ensure_db ;;
  h <~~ on_db (load_one_unused_haiku (random_draw w)) ;;
  match h with
  | None =>
      print w
        (lit "No unused haiku found. Run 'scan' first, or add more lyrics.")
  | Some h =>
      let text := compose_tweet_text h (negb no_attrib) in
      let keys := load_keys w in
      if dry_run keys then
        _ <~~ print w
                (lit "DRY_RUN is enabled. Here is what would be tweeted:"
                 ++ [newline]) ;;
        _ <~~ print w text ;;
        _ <~~ on_db (mark_tweeted (utcnow w) h) ;;
        print w ([newline] ++ lit "Marked as tweeted in the local database.")
      else
        client <~~ io_lift (make_client w keys) ;;
        tweet_id <~~ post_tweet text client ;;
        _ <~~ on_db (mark_tweeted (utcnow w) h) ;;
        print w (lit "Tweeted haiku. Tweet ID: " ++ tweet_id)
  end.

(** The texts handed to [create_tweet], in order. *)
Fixpoint calls (tr : list event) : list str :=
  match tr with
  | [] => []
  | CreateTweet text :: r => text :: calls r
  | Printed _ :: r => calls r
  end.

Definition unused_count (db : database) : nat :=
  length (filter is_unused (rows_of db)).

(** A world for the examples: [DRY_RUN] as given and no other variable,
    [tweepy] installed or not, every post answered with the same id. *)
Definition demo_world (dry : option str) (installed : bool) : World :=
  mkWorld (fun name => if str_eqb name (lit "DRY_RUN") then dry else None)
    (if installed then Some (fun _ _ => Done (lit "1234567890")) else None)
    (fun _ => None) (lit "2024-01-01T00:00:00+00:00") 0.

(** ** Strings: basic facts *)

Lemma str_eqb_eq (a b : str) : str_eqb a b = true <-> a = b.
Proof.
  revert b; induction a as [|x a IH]; intros [|y b]; simpl; split; intro H;
    try discriminate; try reflexivity.
  - apply andb_true_iff in H as [H1 H2].
    apply N.eqb_eq in H1. apply IH in H2. now subst.
  - injection H as -> ->. rewrite N.eqb_refl. now apply IH.
Qed.

Lemma len_app {A : Type} (a b : list A) : len (a ++ b) = (len a + len b)%Z.
Proof. unfold len. rewrite length_app. lia. Qed.

Lemma len_nonneg {A : Type} (l : list A) : (0 <= len l)%Z.
Proof. unfold len. lia. Qed.

Lemma is_empty_app_one {A : Type} (l : list A) (x : A) :
  is_empty (l ++ [x]) = false.
Proof. now destruct l. Qed.

Lemma runs_from_len (s cur : str) :
  len (runs_from is_vowel cur s)
  = ((if is_empty cur then 0 else 1) + run_starts (negb (is_empty cur)) s)%Z.
Proof.
  revert cur; induction s as [|c r IH]; intro cur;
    cbn [runs_from run_starts].
  - now destruct cur.
  - destruct (is_vowel c) eqn:V.
    + rewrite IH, is_empty_app_one. destruct cur; cbn; lia.
    + rewrite len_app, IH. destruct cur; cbn; lia.
Qed.

Lemma findall_vowel_groups_len (w : str) :
  len (re_findall_class is_vowel w) = vowel_runs w.
Proof. unfold re_findall_class, vowel_runs. now rewrite runs_from_len. Qed.

Lemma normalize_az (word : str) :
  Forall (fun c => is_az c = true) (normalize word).
Proof.
  unfold normalize, re_sub_non_az. apply Forall_forall.
  intros c H. now apply filter_In in H.
Qed.

Lemma getitem_third_from_end (w t : str) (a b c : char) :
  rev w = a :: b :: c :: t -> getitem w (-3) = Ok c.
Proof.
  intro E.
  assert (W : w = rev t ++ [c; b; a]).
  { rewrite <- (rev_involutive w), E. simpl.
    now rewrite <- !app_assoc. }
  assert (L : (-3 + len w)%Z = Z.of_nat (length (rev t))).
  { unfold len. rewrite W, length_app. cbn [length]. lia. }
  unfold getitem. change (-3 <? 0)%Z with true. cbv iota. rewrite L.
  destruct (Z.ltb_spec (Z.of_nat (length (rev t))) 0); [lia|].
  rewrite Nat2Z.id, W, nth_error_app2 by lia.
  now rewrite Nat.sub_diag.
Qed.

Lemma endswith_le_rev (w : str) :
  endswith (lit "le") w
  = match rev w with
    | e :: l :: _ => ((101 =? e) && (108 =? l))%N
    | _ => false
    end.
Proof.
  unfold endswith. change (rev (lit "le")) with [101; 108]%N.
  destruct (rev w) as [|e [|l t]]; simpl; try reflexivity.
  - now rewrite andb_false_r.
  - now rewrite andb_true_r.
Qed.

(** The ['le'] test of [count_syllables_in_word] never raises: [w[-3]] is
    read only when [len(w) > 2]. *)
Lemma le_rule_eval (w : str) :
  Forall (fun c => is_az c = true) w ->
  and_then (endswith (lit "le") w)
    (and_then (2 <? len w)%Z
       (c <- getitem w (-3) ;; Ok (negb (contains VOWELS c))))
  = Ok (ends_in_consonant_le w).
Proof.
  intro AZ. rewrite endswith_le_rev. unfold ends_in_consonant_le, len.
  rewrite <- (length_rev w).
  destruct (rev w) as [|e [|l [|c t]]] eqn:E; simpl length.
  - reflexivity.
  - reflexivity.
  - now destruct ((101 =? e) && (108 =? l))%N.
  - rewrite (getitem_third_from_end w t e l c E).
    rewrite (N.eqb_sym 101 e), (N.eqb_sym 108 l).
    destruct ((e =? 101) && (l =? 108))%N; [|reflexivity].
    replace (2 <? Z.of_nat (S (S (S (length t)))))%Z with true
      by (symmetry; apply Z.ltb_lt; lia).
    simpl. unfold is_consonant, is_vowel.
    assert (In c w) as Hc.
    { apply in_rev. rewrite E. simpl. tauto. }
    rewrite Forall_forall in AZ. now rewrite (AZ c Hc).
Qed.

Lemma dict_get_contains {V : Type} (d : dict V) (k : str) :
  dict_contains d k = true -> exists v, dict_get d k = Ok v /\ In (k, v) d.
Proof.
  induction d as [|[k' v] d IH]; simpl; [discriminate|].
  destruct (str_eqb k' k) eqn:E; simpl.
  - intros _. apply str_eqb_eq in E. subst. eauto.
  - intro H. destruct (IH H) as (v' & G & I). eauto.
Qed.

Lemma special_values (k : str) (v : Z) : In (k, v) special -> (1 <= v)%Z.
Proof.
  unfold special. simpl.
  intro H; repeat (destruct H as [H|H]; [injection H as _ <-; lia|]).
  destruct H.
Qed.

(** ** Lower-casing *)

Lemma lookup_lower_cases (t : list (N * N * N * N)) (c : char) :
  lookup_lower t c = c
  \/ exists first last step target,
       In (first, last, step, target) t
       /\ (first <= c <= last)%N
       /\ lookup_lower t c = (target + (c - first))%N.
Proof.
  induction t as [|[[[f l] s] g] t IH]; [now left|]. cbn [lookup_lower].
  destruct ((f <=? c)%N && (c <=? l)%N && ((c - f) mod s =? 0)%N) eqn:E.
  - right. exists f, l, s, g.
    apply andb_true_iff in E as [E _]. apply andb_true_iff in E as [A B].
    apply N.leb_le in A. apply N.leb_le in B.
    split; [now left|]. split; [lia|reflexivity].
  - destruct IH as [IH|(f' & l' & s' & g' & I & R & Q)]; [now left|].
    right. exists f', l', s', g'. split; [now right|]. now split.
Qed.

Lemma lower_table_ok : forallb entry_ok lower_table = true.
Proof. vm_compute. reflexivity. Qed.

Lemma lookup_lower_entry (c : char) :
  lookup_lower lower_table c = c
  \/ exists f l s g,
       entry_ok (f, l, s, g) = true
       /\ (f <= c <= l)%N
       /\ lookup_lower lower_table c = (g + (c - f))%N.
Proof.
  destruct (lookup_lower_cases lower_table c)
    as [E|(f & l & s & g & I & R & E)]; [now left|].
  right. exists f, l, s, g. split; [|now split].
  pose proof lower_table_ok as T. rewrite forallb_forall in T.
  now apply T.
Qed.

Ltac bool_facts :=
  repeat match goal with
         | H : (_ && _) = true |- _ => apply andb_true_iff in H as [? ?]
         | H : (_ || _) = true |- _ => apply orb_true_iff in H as [?|?]
         | H : (_ <=? _)%N = true |- _ => apply N.leb_le in H
         | H : (_ <? _)%N = true |- _ => apply N.ltb_lt in H
         | H : (_ =? _)%N = true |- _ => apply N.eqb_eq in H
         end.

Lemma lookup_lower_AZ (c : char) :
  (65 <= c <= 90)%N -> lookup_lower lower_table c = (c + 32)%N.
Proof.
  intro R. change lower_table with ((65, 90, 1, 97)%N :: tl lower_table).
  cbn [lookup_lower].
  destruct (N.leb_spec 65 c); [|lia]. destruct (N.leb_spec c 90); [|lia].
  rewrite N.mod_1_r. cbn [andb N.eqb]. lia.
Qed.

(** Lower-casing followed by the removal of what is not [a-z], for one
    character. *)
Lemma lower_char_letters (c : char) :
  filter is_az (lower_char c) = fold_letter c.
Proof.
  unfold lower_char, fold_letter.
  destruct (N.eqb_spec c 304) as [->|N304]; [reflexivity|].
  destruct (N.eqb_spec c 8490) as [->|N8490]; [reflexivity|].
  cbn [filter].
  destruct ((65 <=? c) && (c <=? 90))%N eqn:U.
  - apply andb_true_iff in U as [A B].
    apply N.leb_le in A. apply N.leb_le in B.
    rewrite lookup_lower_AZ by lia. unfold is_az.
    destruct (N.leb_spec 97 (c + 32)); [|lia].
    destruct (N.leb_spec (c + 32) 122); [|lia].
    destruct (N.leb_spec 97 c); [lia|]. reflexivity.
  - destruct (lookup_lower_entry c) as [E|(f & l & s & g & K & R & E)];
      rewrite E; [now destruct (is_az c)|].
    assert (Z : is_az c = false /\ is_az (g + (c - f))%N = false);
      [|now destruct Z as [-> ->]].
    unfold is_az, entry_ok in *.
    bool_facts;
      try (apply andb_false_iff in U; rewrite N.leb_gt, N.leb_gt in U);
      split; apply andb_false_iff; rewrite !N.leb_gt; lia.
Qed.

Lemma lookup_lower_below (c : char) :
  (c <? 0xD800)%N = true -> (lookup_lower lower_table c <? 0xD800)%N = true.
Proof.
  intro B. destruct (lookup_lower_entry c) as [E|(f & l & s & g & K & R & E)];
    rewrite E; [exact B|].
  unfold entry_ok in K. bool_facts; apply N.ltb_lt; lia.
Qed.

Lemma lookup_lower_surrogate (c : char) :
  is_surrogate c = true -> lookup_lower lower_table c = c.
Proof.
  intro B. destruct (lookup_lower_entry c) as [E|(f & l & s & g & K & R & E)];
    [exact E|].
  unfold entry_ok, is_surrogate in *. bool_facts; lia.
Qed.

Lemma lower_from_letters (seen s : str) :
  filter is_az (lower_from seen s) = letters_only s.
Proof.
  revert seen. induction s as [|c s IH]; intro seen; [reflexivity|].
  cbn [lower_from letters_only flat_map]. rewrite filter_app, IH.
  f_equal. destruct (N.eqb_spec c 931) as [->|N931];
    [|apply lower_char_letters].
  unfold handle_capital_sigma. now destruct (_ && _).
Qed.

(** The normalised word of the counter is the lower-cased, letters-only
    form. *)
Lemma normalize_letters (word : str) : normalize word = letters_only word.
Proof. apply lower_from_letters. Qed.

(** Without a capital sigma, lower-casing goes character by character. *)
Lemma lower_from_no_sigma (seen s : str) :
  no_capital_sigma s = true ->
  lower_from seen s = flat_map lower_char s.
Proof.
  unfold no_capital_sigma. revert seen.
  induction s as [|c s IH]; intro seen; [reflexivity|].
  cbn [forallb lower_from flat_map]. intro H.
  apply andb_true_iff in H as [C H]. rewrite (IH _ H).
  now destruct (c =? 931)%N.
Qed.

Lemma lower_from_below (seen s : str) :
  below_surrogates s = true -> below_surrogates (lower_from seen s) = true.
Proof.
  unfold below_surrogates. revert seen.
  induction s as [|c s IH]; intro seen; [reflexivity|].
  cbn [forallb lower_from]. intro H. apply andb_true_iff in H as [C H].
  rewrite forallb_app, (IH _ H), andb_true_r.
  destruct (c =? 931)%N.
  - unfold handle_capital_sigma. now destruct (_ && _).
  - unfold lower_char. destruct (c =? 304)%N; [reflexivity|].
    cbn [forallb]. now rewrite lookup_lower_below.
Qed.

Lemma lower_from_surrogate (seen s : str) (c : char) :
  In c s -> is_surrogate c = true -> In c (lower_from seen s).
Proof.
  intros I S. revert seen. induction s as [|x s IH]; intro seen;
    [destruct I|].
  cbn [lower_from]. apply in_or_app. destruct I as [->|I]; [left|right; auto].
  assert (N1 : (c =? 931)%N = false).
  { apply N.eqb_neq. unfold is_surrogate in S. bool_facts. lia. }
  assert (N2 : (c =? 304)%N = false).
  { apply N.eqb_neq. unfold is_surrogate in S. bool_facts. lia. }
  unfold lower_char. rewrite N1, N2, lookup_lower_surrogate by exact S.
  now left.
Qed.

(** ** The syllable counter *)

(** C2 (the code at the four words of the claim): the counter returns 3 for
    "table" and for "apple" (two vowel groups, plus one for the consonant +
    "le" ending), 1 for "queue" and 0 for the empty word. *)
Theorem count_word_examples :
  count_syllables_in_word (lit "table") = Ok 3%Z
  /\ count_syllables_in_word (lit "apple") = Ok 3%Z
  /\ count_syllables_in_word (lit "queue") = Ok 1%Z
  /\ count_syllables_in_word (lit "") = Ok 0%Z.
Proof. repeat split; vm_compute; reflexivity. Qed.

(** C3: for a word whose lower-cased, letters-only form is not a key of the
    lookup table, the counter returns the number of maximal vowel runs of
    that form, minus 1 for a final "e" (not "le", not "ye") when there is
    more than one run, plus 1 for a final "le" after a consonant, floored at
    1 when the form is not empty.  The form is [letters_only word], written
    character by character, not the counter's own normalisation. *)
Theorem count_word_heuristic (word : str) :
  dict_contains special (letters_only word) = false ->
  count_syllables_in_word word = Ok (spec_heuristic (letters_only word)).
Proof.
  rewrite <- normalize_letters.
  intro NS. unfold count_syllables_in_word, spec_heuristic. cbv zeta.
  destruct (is_empty (normalize word)); [reflexivity|].
  rewrite NS, le_rule_eval by apply normalize_az.
  cbn [bind]. rewrite findall_vowel_groups_len, negb_orb, andb_assoc.
  f_equal.
  destruct (endswith (lit "e") (normalize word)
            && negb (endswith (lit "le") (normalize word))
            && negb (endswith (lit "ye") (normalize word))
            && (1 <? vowel_runs (normalize word))%Z);
    destruct (ends_in_consonant_le (normalize word)); lia.
Qed.

Lemma count_word_heuristic_witness :
  dict_contains special (letters_only (lit "TABLE's")) = false
  /\ letters_only (lit "TABLE's") = lit "tables"
  /\ count_syllables_in_word (lit "TABLE's") = Ok 2%Z.
Proof.
  split; [reflexivity|]. split; [reflexivity|].
  exact (count_word_heuristic (lit "TABLE's") eq_refl).
Defined.

(** The counter returns on every word: a non-negative count, at least 1 when
    a letter is left after normalisation. *)
Lemma count_syllables_in_word_returns (word : str) :
  exists n, count_syllables_in_word word = Ok n /\ (0 <= n)%Z
            /\ ((0 < len (normalize word))%Z -> (1 <= n)%Z).
Proof.
  unfold count_syllables_in_word. cbv zeta.
  destruct (normalize word) as [|c w] eqn:E.
  - exists 0%Z. cbn. repeat split; lia.
  - cbn [is_empty]. destruct (dict_contains special (c :: w)) eqn:D.
    + destruct (dict_get_contains special _ D) as (v & G & I).
      apply special_values in I. exists v. repeat split; trivial; lia.
    + rewrite <- E, le_rule_eval by apply normalize_az. cbn [bind].
      eexists. split; [reflexivity|]. lia.
Qed.



(** ** The detector *)

Lemma tuple_eqb_eq (a b : list Z) : tuple_eqb a b = true <-> a = b.
Proof.
  revert b; induction a as [|x a IH]; intros [|y b]; simpl; split; intro H;
    try discriminate; try reflexivity.
  - apply andb_true_iff in H as [H1 H2].
    apply Z.eqb_eq in H1. apply IH in H2. now subst.
  - injection H as -> ->. rewrite Z.eqb_refl. now apply IH.
Qed.

Lemma slice_window {A : Type} (c : list A) (i : nat) (d : A) :
  i + 3 <= length c ->
  slice c i (i + 3) = [nth i c d; nth (i + 1) c d; nth (i + 2) c d].
Proof.
  unfold slice. replace (i + 3 - i) with 3 by lia.
  revert c; induction i as [|i IH]; intros c L.
  - destruct c as [|x [|y [|z c]]]; simpl in L; try lia. reflexivity.
  - destruct c as [|x c]; simpl in L; [lia|].
    cbn [skipn Nat.add nth]. apply IH. lia.
Qed.

Lemma StronglySorted_seq (a n : nat) : StronglySorted lt (seq a n).
Proof.
  revert a; induction n as [|n IH]; intro a; simpl; constructor.
  - apply IH.
  - apply Forall_forall. intros x H. apply in_seq in H. lia.
Qed.

Lemma StronglySorted_filter {A : Type} (R : A -> A -> Prop) (f : A -> bool)
  (l : list A) : StronglySorted R l -> StronglySorted R (filter f l).
Proof.
  induction 1 as [|x l S IH F]; simpl; [constructor|].
  destruct (f x); [|exact IH].
  constructor; [exact IH|].
  rewrite Forall_forall in *. intros y H. apply filter_In in H. now apply F.
Qed.

Section DetectorProperties.

Variable unidecode : str -> str.

Lemma sum_of_words_returns (ws : list str) (acc : Z) :
  (0 <= acc)%Z ->
  exists n, sum_of count_syllables_in_word ws acc = Ok n /\ (0 <= n)%Z.
Proof.
  revert acc; induction ws as [|w ws IH]; intros acc A; simpl.
  - eauto.
  - destruct (count_syllables_in_word_returns w) as (v & R & V & _).
    rewrite R. cbn [bind]. apply IH. lia.
Qed.

Lemma count_syllables_in_line_returns (line : str) :
  exists n, count_syllables_in_line unidecode line = Ok n /\ (0 <= n)%Z.
Proof. apply sum_of_words_returns. lia. Qed.

Lemma tuple_of_lines_returns (t : list str) :
  exists s, tuple_of (count_syllables_in_line unidecode) t = Ok s
            /\ map (count_syllables_in_line unidecode) t = map Ok s.
Proof.
  induction t as [|ln t (s & T & M)]; simpl.
  - exists []. split; reflexivity.
  - destruct (count_syllables_in_line_returns ln) as (n & R & _).
    rewrite R, T. cbn [bind]. exists (n :: s). simpl. now rewrite M.
Qed.

Lemma is_575_iff (t : list str) :
  is_575 unidecode t = true
  <-> map (count_syllables_in_line unidecode) t
      = [Ok 5; Ok 7; Ok 5]%Z.
Proof.
  unfold is_575. destruct (tuple_of_lines_returns t) as (s & T & M).
  rewrite T, M, tuple_eqb_eq. split.
  - now intros ->.
  - destruct s as [|a [|b [|c [|d s]]]]; simpl; try discriminate.
    now intros [= -> -> ->].
Qed.

(** The loop of [find_haikus_in_lyrics] over a list of valid indices. *)
Lemma detect_loop (title artist : str) (c : list str) (xs : list nat)
  (acc : list Haiku) :
  Forall (fun i => i + 3 <= length c) xs ->
  for_each xs
    (fun i haikus =>
       let triplet := slice c i (i + 3) in
       sylls <- tuple_of (count_syllables_in_line unidecode) triplet ;;
       if tuple_eqb sylls [5; 7; 5]%Z
       then Ok (haikus ++ [mkHaiku title artist triplet sylls])
       else Ok haikus)
    acc
  = Ok (acc ++ map (fun i => mkHaiku title artist (window c i) [5; 7; 5]%Z)
                   (filter (fun i => is_575 unidecode (window c i)) xs)).
Proof.
  set (body := fun (i : nat) (haikus : list Haiku) => _).
  assert (B : forall i hs, i + 3 <= length c ->
            body i hs
            = Ok (hs ++ if is_575 unidecode (window c i)
                         then [mkHaiku title artist (window c i)
                                 [5; 7; 5]%Z]
                         else [])).
  { intros i hs Vi. unfold body. cbv zeta.
    rewrite (slice_window c i [] Vi). fold (window c i). unfold is_575.
    destruct (tuple_of_lines_returns (window c i)) as (s & T & _).
    rewrite T. cbn [bind].
    destruct (tuple_eqb s [5; 7; 5]%Z) eqn:Q.
    - apply tuple_eqb_eq in Q. now subst s.
    - now rewrite app_nil_r. }
  intro V; revert acc; induction V as [|i xs Vi V IH]; intro acc;
    cbn [for_each filter].
  - now rewrite app_nil_r.
  - rewrite (B i acc Vi). cbn [bind]. rewrite IH.
    destruct (is_575 unidecode (window c i)); cbn [map].
    + now rewrite <- app_assoc.
    + now rewrite app_nil_r.
Qed.

Lemma find_haikus_refines (title artist lyrics : str) :
  find_haikus_in_lyrics unidecode title artist lyrics
  = Ok (map (fun i => mkHaiku title artist
                        (window (content_lines lyrics) i) [5; 7; 5]%Z)
            (matching_indices unidecode (content_lines lyrics))).
Proof.
  unfold find_haikus_in_lyrics. cbv zeta. fold (content_lines lyrics).
  unfold matching_indices, range, len.
  replace (Z.to_nat (Z.of_nat (length (content_lines lyrics)) - 2))
    with (length (content_lines lyrics) - 2) by lia.
  rewrite detect_loop; [reflexivity|].
  apply Forall_forall. intros i H. apply in_seq in H. lia.
Qed.

(** The sliding window over the content lines: in increasing order of [i],
    one haiku for each index [i] from [0] to [len(content) - 3] whose window
    counts 5, 7 and 5. *)
Lemma sliding_window_over_content (title artist lyrics : str) :
  find_haikus_in_lyrics unidecode title artist lyrics
  = Ok (map (fun i => mkHaiku title artist
                        (window (content_lines lyrics) i) [5; 7; 5]%Z)
            (matching_indices unidecode (content_lines lyrics)))
  /\ StronglySorted lt (matching_indices unidecode (content_lines lyrics))
  /\ (forall i,
        In i (matching_indices unidecode (content_lines lyrics))
        <-> i + 3 <= length (content_lines lyrics)
            /\ map (count_syllables_in_line unidecode)
                   (window (content_lines lyrics) i)
               = [Ok 5; Ok 7; Ok 5]%Z)
  /\ Forall (fun ln => is_noise_line ln = false) (content_lines lyrics)
  /\ (length (content_lines lyrics) < 3 ->
      find_haikus_in_lyrics unidecode title artist lyrics = Ok []).
Proof.
  split; [apply find_haikus_refines|]. split; [|split; [|split]].
  - apply StronglySorted_filter, StronglySorted_seq.
  - intro i. unfold matching_indices.
    rewrite filter_In, in_seq, is_575_iff. intuition lia.
  - apply Forall_forall. intros ln H. apply filter_In in H as [_ H].
    now apply negb_true_iff in H.
  - intro L. rewrite find_haikus_refines. unfold matching_indices.
    now replace (length (content_lines lyrics) - 2) with 0 by lia.
Qed.

(** C5: every haiku the detector returns carries the syllable tuple
    (5, 7, 5). *)
Theorem detected_syllables_575 (title artist lyrics : str)
  (hs : list Haiku) (h : Haiku) :
  find_haikus_in_lyrics unidecode title artist lyrics = Ok hs ->
  In h hs ->
  syllables h = [5; 7; 5]%Z.
Proof.
  rewrite find_haikus_refines. intros [= <-] I.
  apply in_map_iff in I as (i & <- & _). reflexivity.
Qed.

(** C9: the word counter, the line counter, the noise filter and the
    detector return on every input; the counts are non-negative, and when
    no window matches the detector returns the empty list. *)
Theorem core_never_raises (word line title artist lyrics : str) :
  (exists n, count_syllables_in_word word = Ok n /\ (0 <= n)%Z)
  /\ (exists n, count_syllables_in_line unidecode line = Ok n /\ (0 <= n)%Z)
  /\ (is_noise_line line = true \/ is_noise_line line = false)
  /\ (exists hs,
        find_haikus_in_lyrics unidecode title artist lyrics = Ok hs
        /\ (matching_indices unidecode (content_lines lyrics) = [] ->
            hs = [])).
Proof.
  repeat split.
  - destruct (count_syllables_in_word_returns word) as (n & R & N & _).
    eauto.
  - apply count_syllables_in_line_returns.
  - destruct (is_noise_line line); auto.
  - eexists. split; [apply find_haikus_refines|]. now intros ->.
Qed.

End DetectorProperties.

(** ** The noise filter: blank lines and stage cues *)

Lemma forallb_rev {A : Type} (f : A -> bool) (l : list A) :
  forallb f (rev l) = forallb f l.
Proof.
  induction l as [|x l IH]; simpl; [reflexivity|].
  rewrite forallb_app, IH. simpl. rewrite andb_true_r. apply andb_comm.
Qed.

Lemma lstrip_nil (s : str) : lstrip s = [] <-> forallb isspace s = true.
Proof.
  induction s as [|c r IH]; simpl; [tauto|].
  destruct (isspace c); simpl; [exact IH|]. split; discriminate.
Qed.

Lemma lstrip_head (s r : str) (c : char) :
  lstrip s = c :: r -> isspace c = false.
Proof.
  induction s as [|x s IH]; simpl; [discriminate|].
  destruct (isspace x) eqn:E; [exact IH|]. now intros [= <- _].
Qed.

Lemma lstrip_app_blank (l m : str) :
  forallb isspace l = true -> lstrip (l ++ m) = lstrip m.
Proof.
  induction l as [|x l IH]; simpl; [reflexivity|].
  intro H. apply andb_true_iff in H as [-> H]. now apply IH.
Qed.

Lemma lstrip_app_cons (l m r : str) (c : char) :
  lstrip l = c :: r -> lstrip (l ++ m) = c :: r ++ m.
Proof.
  induction l as [|x l IH]; simpl; [discriminate|].
  destruct (isspace x); [exact IH|]. now intros [= <- <-].
Qed.

Lemma lstrip_blank_or_cons (s : str) :
  (forallb isspace s = true /\ lstrip s = [])
  \/ (forallb isspace s = false
      /\ exists c r, lstrip s = c :: r /\ isspace c = false).
Proof.
  destruct (lstrip s) as [|c r] eqn:E.
  - left. split; [now apply lstrip_nil|reflexivity].
  - right. split.
    + destruct (forallb isspace s) eqn:F; [|reflexivity].
      apply lstrip_nil in F. congruence.
    + exists c, r. split; [reflexivity|]. exact (lstrip_head _ _ _ E).
Qed.

Lemma strip_blank (s : str) : is_empty (strip s) = forallb isspace s.
Proof.
  unfold strip, rstrip.
  destruct (lstrip_blank_or_cons s) as [[F ->]|(F & c & r & -> & C)];
    rewrite F; [reflexivity|].
  cbn [rev]. destruct (lstrip_blank_or_cons (rev r)) as [[G E]|(G & d & t & E & _)].
  - rewrite (lstrip_app_blank _ [c] G). cbn. now rewrite C.
  - rewrite (lstrip_app_cons _ [c] _ _ E). cbn [rev].
    now destruct (rev (t ++ [c]) ++ [d]) eqn:Z; [destruct (rev (t ++ [c]))|].
Qed.

Lemma strip_cons (s r : str) (o : char) :
  lstrip s = o :: r -> strip s = o :: rstrip r.
Proof.
  intro E. pose proof (lstrip_head _ _ _ E) as O.
  unfold strip, rstrip. rewrite E. cbn [rev].
  destruct (lstrip_blank_or_cons (rev r)) as [[G L]|(G & d & t & L & _)].
  - rewrite (lstrip_app_blank _ [o] G), L. cbn. now rewrite O.
  - rewrite (lstrip_app_cons _ [o] _ _ L), L.
    change (d :: t ++ [o]) with ((d :: t) ++ [o]).
    now rewrite rev_app_distr.
Qed.

Lemma opener_not_space (c : char) : is_opener c = true -> isspace c = false.
Proof.
  unfold is_opener. intro H. apply orb_true_iff in H as [H|H];
    apply N.eqb_eq in H; now subst.
Qed.

Lemma closer_not_space (c : char) : is_closer c = true -> isspace c = false.
Proof.
  unfold is_closer. intro H. apply orb_true_iff in H as [H|H];
    apply N.eqb_eq in H; now subst.
Qed.

Lemma ws_to_end_blank (s : str) : ws_to_end s = forallb isspace s.
Proof.
  induction s as [|c r IH]; [reflexivity|].
  cbn [ws_to_end forallb]. rewrite IH.
  destruct r as [|d r]; cbn [at_end]; [|now rewrite orb_false_r].
  cbn [forallb]. destruct (N.eqb_spec c newline) as [->|]; [reflexivity|].
  now rewrite orb_false_r.
Qed.

Lemma cue_head_lstrip (s : str) :
  cue_head s
  = match lstrip s with
    | o :: r => is_opener o && cue_body r
    | [] => false
    end.
Proof.
  induction s as [|c r IH]; [reflexivity|].
  cbn [cue_head lstrip]. destruct (isspace c) eqn:C; cbn [andb orb].
  - rewrite IH. destruct (is_opener c) eqn:O; [|now rewrite orb_false_r].
    apply opener_not_space in O. congruence.
  - reflexivity.
Qed.

Lemma cue_body_closed (r : str) : cue_body r = body_closed (rstrip r).
Proof.
  unfold body_closed, rstrip. rewrite rev_involutive.
  induction r as [|x r IH]; [reflexivity|].
  cbn [cue_body rev]. rewrite ws_to_end_blank, IH. fold (not_newline x).
  destruct (lstrip_blank_or_cons (rev r)) as [[G L]|(G & d & t & L & _)];
    rewrite forallb_rev in G; rewrite G.
  - rewrite L.
    rewrite (lstrip_app_blank (rev r) [x]) by now rewrite forallb_rev.
    cbn [lstrip]. rewrite andb_true_r, andb_false_r, orb_false_r.
    destruct (isspace x) eqn:X.
    + destruct (is_closer x) eqn:K; [|reflexivity].
      apply closer_not_space in K. congruence.
    + cbn [rev app forallb]. now rewrite andb_true_r.
  - rewrite L, (lstrip_app_cons _ [x] _ _ L).
    rewrite forallb_app. cbn [forallb].
    rewrite andb_false_r, andb_true_r. cbn [orb].
    now rewrite andb_comm, andb_assoc.
Qed.

(** The stage-cue search accepts a line exactly when its trimmed form starts
    with an opening bracket and ends with a closing one, with no newline in
    between. *)
Lemma stage_cue_bracket_delimited (line : str) :
  re_search_stage_cue line = bracket_delimited (strip line).
Proof.
  unfold re_search_stage_cue. rewrite cue_head_lstrip.
  destruct (lstrip line) as [|o r] eqn:L.
  - unfold strip. now rewrite L.
  - rewrite (strip_cons _ _ _ L). cbn [bracket_delimited].
    now rewrite cue_body_closed.
Qed.

Lemma body_closed_iff (r : str) :
  body_closed r = true
  <-> exists body c, r = body ++ [c] /\ is_closer c = true
                     /\ ~ In newline body.
Proof.
  assert (NL : forall b, forallb not_newline b = true <-> ~ In newline b).
  { intro b. rewrite forallb_forall. unfold not_newline. split.
    - intros H I. specialize (H _ I). now rewrite N.eqb_refl in H.
    - intros H x I. destruct (N.eqb_spec x newline); [now subst|reflexivity]. }
  unfold body_closed. split.
  - destruct (rev r) as [|c b] eqn:E; [discriminate|].
    intro H. apply andb_true_iff in H as [C B].
    exists (rev b), c. repeat split; trivial.
    + now rewrite <- (rev_involutive r), E.
    + rewrite <- in_rev. now apply NL.
  - intros (body & c & -> & C & B). rewrite rev_app_distr. cbn [rev app].
    rewrite C, forallb_rev. now apply NL.
Qed.

Lemma is_noise_line_cases (line : str) :
  is_noise_line line
  = forallb isspace line || bracket_delimited (strip line)
    || re_fullmatch_filler (lower (strip line)).
Proof.
  unfold is_noise_line.
  rewrite strip_blank, stage_cue_bracket_delimited.
  destruct (forallb isspace line); [reflexivity|].
  destruct (bracket_delimited (strip line)); [reflexivity|].
  now destruct (re_fullmatch_filler (lower (strip line))).
Qed.

(** ** The noise filter: the filler pattern *)

Lemma strip_prefix_spec (p s r : str) :
  strip_prefix p s = Some r <-> s = p ++ r.
Proof.
  revert s; induction p as [|x p IH]; intro s; cbn [strip_prefix app].
  - split; [now intros [= ->]|now intros ->].
  - destruct s as [|y s]; [split; discriminate|].
    destruct (N.eqb_spec x y) as [->|N].
    + rewrite IH. split; [now intros ->|now intros [= ->]].
    + split; [discriminate|]. intros [= E _]. congruence.
Qed.

Lemma lit_at_spec (p s t r : str) :
  In (t, r) (lit_at p s) <-> t = p /\ s = p ++ r.
Proof.
  unfold lit_at. destruct (strip_prefix p s) as [r'|] eqn:E.
  - apply strip_prefix_spec in E. subst s. cbn [In]. split.
    + intros [[= <- <-]|[]]. now split.
    + intros [-> E]. apply app_inv_head in E. subst. now left.
  - cbn [In]. split; [tauto|]. intros [_ S].
    apply strip_prefix_spec in S. congruence.
Qed.

Lemma ooh_from_spec (s seen t r : str) :
  In (t, r) (ooh_from seen s)
  <-> exists n, t = seen ++ repeat 111%N n ++ [104%N]
                /\ s = repeat 111%N n ++ 104%N :: r.
Proof.
  revert seen; induction s as [|c s IH]; intro seen; cbn [ooh_from].
  - split; [intros []|]. intros ([|n] & _ & E); discriminate E.
  - rewrite in_app_iff. split.
    + intros [H|H].
      * destruct (N.eqb_spec c 111) as [->|]; [|destruct H].
        apply IH in H as (n & -> & ->). exists (S n).
        now rewrite <- app_assoc.
      * destruct (N.eqb_spec c 104) as [->|]; [|destruct H].
        destruct H as [[= <- <-]|[]]. now exists 0.
    + intros ([|n] & -> & E); cbn [repeat app] in E; injection E as -> ->.
      * right. cbn. now left.
      * left. cbn [N.eqb Pos.eqb]. apply IH. exists n.
        now rewrite <- app_assoc.
Qed.

Lemma ooh_at_spec (s t r : str) :
  In (t, r) (ooh_at s)
  <-> exists n, t = repeat 111%N (S n) ++ [104%N] /\ s = t ++ r.
Proof.
  unfold ooh_at. destruct s as [|c s].
  - split; [intros []|]. intros (n & -> & E). discriminate E.
  - destruct (N.eqb_spec c 111) as [->|N].
    + rewrite ooh_from_spec. split; intros (n & -> & E); exists n.
      * split; [reflexivity|]. cbn. rewrite E, <- app_assoc. reflexivity.
      * split; [reflexivity|]. cbn in E. injection E as ->.
        now rewrite <- app_assoc.
    + split; [intros []|]. intros (n & -> & E). cbn in E. congruence.
Qed.

Lemma filler_alt_spec (s t r : str) :
  In (t, r) (filler_alt s) <-> is_filler t /\ s = t ++ r.
Proof.
  unfold filler_alt, is_filler, filler_words.
  rewrite !in_app_iff, !lit_at_spec, ooh_at_spec. cbn [map In]. split.
  - intros [[-> E]|[[-> E]|[(n & -> & E)|[[-> E]|[[-> E]|[-> E]]]]]];
      (split; [|exact E]); eauto 8.
  - intros [[[<-|[<-|[<-|[<-|[<-|[]]]]]]|(n & E)] S]; eauto 10.
Qed.

Lemma is_filler_nonempty (t : str) : is_filler t -> 0 < length t.
Proof.
  intros [H|(n & ->)].
  - repeat (destruct H as [<-|H]; [cbn; lia|]). destruct H.
  - cbn. lia.
Qed.

Lemma seps_then_spec (tok s r : str) :
  In r (seps_then tok s) <-> exists sp, all_seps sp /\ s = sp ++ tok ++ r.
Proof.
  assert (P : forall s, In r (match strip_prefix tok s with
                              | Some r' => [r'] | None => [] end)
                        <-> s = tok ++ r).
  { intro s0. rewrite <- strip_prefix_spec.
    destruct (strip_prefix tok s0); cbn [In]; split;
      try tauto; try congruence.
    - intros [->|[]]. reflexivity.
    - intros [= ->]. now left. }
  unfold all_seps.
  induction s as [|c s IH]; cbn [seps_then]; rewrite in_app_iff, P.
  - split.
    + intros [[]|E]. exists []. now split.
    + intros ([|x sp] & _ & E); [now right|discriminate E].
  - split.
    + intros [H|E].
      * destruct (is_sep c) eqn:C; [|destruct H].
        apply IH in H as (sp & A & ->). exists (c :: sp). split.
        -- cbn. now rewrite C.
        -- reflexivity.
      * exists []. now split.
    + intros ([|x sp] & A & E); [now right|].
      cbn in A, E. injection E as -> ->.
      apply andb_true_iff in A as [-> A]. left. apply IH. eauto.
Qed.

Lemma rep_loop_sound (f : nat) (tok s : str) :
  rep_loop f tok s = true ->
  exists seps, Forall all_seps seps /\ s = repeats tok seps.
Proof.
  revert s; induction f as [|f IH]; intro s; cbn [rep_loop];
    [discriminate|].
  intro H. apply orb_true_iff in H as [H|H].
  - apply existsb_exists in H as (r & I & R).
    apply seps_then_spec in I as (sp & A & ->).
    apply IH in R as (seps & F & ->).
    exists (sp :: seps). split; [now constructor|].
    cbn. now rewrite <- app_assoc.
  - destruct s; [|discriminate]. exists []. now split.
Qed.

Lemma rep_loop_complete (seps : list str) (f : nat) (tok : str) :
  0 < length tok -> Forall all_seps seps ->
  length (repeats tok seps) < f ->
  rep_loop f tok (repeats tok seps) = true.
Proof.
  intros T F; revert f; induction F as [|sp seps A F IH]; intros f L;
    (destruct f as [|f]; [lia|]); cbn [rep_loop].
  - apply orb_true_r.
  - apply orb_true_iff. left. apply existsb_exists.
    exists (repeats tok seps). split.
    + apply seps_then_spec. exists sp. split; [exact A|].
      cbn. now rewrite <- app_assoc.
    + apply IH. change (repeats tok (sp :: seps))
        with ((sp ++ tok) ++ repeats tok seps) in L.
      rewrite !length_app in L. lia.
Qed.

Lemma last_cons {A : Type} (x d : A) (l : list A) :
  last (x :: l) d = last l x.
Proof.
  revert x d; induction l as [|y l IH]; intros x d; [reflexivity|].
  change (last (x :: y :: l) d) with (last (y :: l) d).
  now rewrite !IH.
Qed.

Lemma plus_loop_sound (f : nat) (tok s : str) :
  plus_loop f tok s = true ->
  exists toks seps,
    Forall is_filler toks /\ Forall all_seps seps
    /\ s = concat toks ++ repeats (last toks tok) seps.
Proof.
  revert tok s; induction f as [|f IH]; intros tok s; cbn [plus_loop];
    [discriminate|].
  intro H. apply orb_true_iff in H as [H|H].
  - apply existsb_exists in H as ([t r] & I & R). cbn [fst snd] in R.
    apply filler_alt_spec in I as (T & ->).
    apply IH in R as (toks & seps & FT & FS & ->).
    exists (t :: toks), seps. repeat split; trivial; [now constructor|].
    cbn [concat]. now rewrite last_cons, <- app_assoc.
  - apply rep_loop_sound in H as (seps & FS & ->).
    exists [], seps. repeat split; trivial.
Qed.

Lemma plus_loop_complete (toks seps : list str) (f : nat) (tok : str) :
  0 < length tok -> Forall is_filler toks -> Forall all_seps seps ->
  length (concat toks ++ repeats (last toks tok) seps) < f ->
  plus_loop f tok (concat toks ++ repeats (last toks tok) seps) = true.
Proof.
  intros T FT FS; revert f tok T; induction FT as [|t toks Ft FT IH];
    intros f tok T L; (destruct f as [|f]; [lia|]); cbn [plus_loop].
  - apply orb_true_iff. right. now apply rep_loop_complete.
  - apply orb_true_iff. left. apply existsb_exists.
    exists (t, concat toks ++ repeats (last toks t) seps). cbn [fst snd].
    pose proof (is_filler_nonempty t Ft) as Lt.
    rewrite last_cons in *. cbn [concat] in *. rewrite <- app_assoc in *.
    split.
    + apply filler_alt_spec. now split.
    + apply IH; [exact Lt|]. rewrite length_app in L. lia.
Qed.

(** The backtracking search accepts exactly the language of the pattern. *)
Lemma fullmatch_filler_iff (s : str) :
  re_fullmatch_filler s = true <-> filler_line s.
Proof.
  unfold re_fullmatch_filler, filler_line. split.
  - intro H. apply existsb_exists in H as ([t r] & I & R).
    cbn [fst snd] in R. apply filler_alt_spec in I as (T & ->).
    apply plus_loop_sound in R as (toks & seps & FT & FS & ->).
    exists (t :: toks), seps. repeat split; trivial.
    + discriminate.
    + now constructor.
    + cbn [concat]. now rewrite last_cons, <- app_assoc.
  - intros ([|t toks] & seps & NE & FT & FS & ->); [congruence|].
    inversion FT as [|? ? Ft FT']; subst.
    pose proof (is_filler_nonempty t Ft) as Lt.
    apply existsb_exists.
    exists (t, concat toks ++ repeats (last toks t) seps). cbn [fst snd].
    rewrite last_cons. cbn [concat]. rewrite <- app_assoc. split.
    + apply filler_alt_spec. now split.
    + apply plus_loop_complete; trivial. rewrite !length_app. lia.
Qed.

Lemma bracket_delimited_iff (t : str) :
  bracket_delimited t = true
  <-> exists o body c,
        t = o :: body ++ [c] /\ is_opener o = true /\ is_closer c = true
        /\ ~ In newline body.
Proof.
  destruct t as [|o r]; cbn [bracket_delimited].
  - split; [discriminate|]. intros (o & body & c & E & _). discriminate E.
  - rewrite andb_true_iff, body_closed_iff. split.
    + intros (O & body & c & -> & C & B). now exists o, body, c.
    + intros (o' & body & c & [= <- ->] & O & C & B).
      split; [exact O|]. now exists body, c.
Qed.

(** C6 (the code departs from the claim): a line that starts with one
    bracketed annotation and ends with another, with lyric text in between,
    is classified as noise, although it is not blank, not a single
    annotation and not filler.  The line counter reads the same line as two
    annotations around three syllables of lyric. *)
Theorem noise_line_beyond_single_annotation :
  is_noise_line (lit "(Oh) hear me now (yeah)") = true
  /\ forallb isspace (lit "(Oh) hear me now (yeah)") = false
  /\ single_annotation (strip (lit "(Oh) hear me now (yeah)")) = false
  /\ re_fullmatch_filler (lower (strip (lit "(Oh) hear me now (yeah)")))
     = false
  /\ re_sub_annotations (lit "(Oh) hear me now (yeah)")
     = lit " hear me now "
  /\ count_syllables_in_line unidecode_ascii (lit "(Oh) hear me now (yeah)")
     = Ok 3%Z.
Proof. repeat split; vm_compute; reflexivity. Qed.

(** X24: what [is_noise_line] computes.  A line is noise exactly when it is
    blank, or its trimmed form starts with an opening bracket or parenthesis
    and ends with a closing one with no newline in between (whatever lies
    between them), or its trimmed, lower-cased form is in the language of
    the filler pattern; every other line is content.  The five example lines
    of the specification are classified as it says. *)
Theorem is_noise_line_exactly :
  (forall line,
     is_noise_line line = true
     <-> forallb isspace line = true
         \/ (exists o body c,
               strip line = o :: body ++ [c] /\ is_opener o = true
               /\ is_closer c = true /\ ~ In newline body)
         \/ filler_line (lower (strip line)))
  /\ is_noise_line (lit "") = true
  /\ is_noise_line (lit "   ") = true
  /\ is_noise_line (lit "[Chorus]") = true
  /\ is_noise_line (lit "la la la") = true
  /\ is_noise_line (lit "Walking down the street") = false.
Proof.
  split; [|repeat split; vm_compute; reflexivity].
  intro line.
  rewrite is_noise_line_cases, !orb_true_iff, fullmatch_filler_iff,
    bracket_delimited_iff.
  tauto.
Qed.

(** C10 (the claim as stated fails): "lana la" is two filler tokens followed
    by a separator and the first token, and it is content. *)
Lemma first_token_repeat_is_content :
  lower (strip (lit "lana la")) = lit "lana la"
  /\ filler_line_first (lit "lana la")
  /\ is_noise_line (lit "lana la") = false.
Proof.
  split; [reflexivity|]. split; [|reflexivity].
  exists [lit "la"; lit "na"], [lit " "]. repeat split.
  - discriminate.
  - repeat constructor; left; cbn; tauto.
  - repeat constructor.
Qed.

(** C10 (amended): the repetition part repeats the exact text that the
    filler group captured last.  A line whose trimmed, lower-cased form is
    one or more filler tokens followed by zero or more (separators + the
    last of those tokens) is noise, and the filler rule accepts nothing
    else; "la la la" and "yeah, yeah" are noise and "la na la" is content. *)
Theorem filler_rule_repeats_last_token :
  (forall line,
     filler_line (lower (strip line)) -> is_noise_line line = true)
  /\ (forall line,
        is_noise_line line = true ->
        forallb isspace line = false ->
        bracket_delimited (strip line) = false ->
        filler_line (lower (strip line)))
  /\ is_noise_line (lit "la la la") = true
  /\ is_noise_line (lit "yeah, yeah") = true
  /\ is_noise_line (lit "la na la") = false.
Proof.
  split; [|split; [|repeat split; vm_compute; reflexivity]].
  - intros line F. apply fullmatch_filler_iff in F.
    rewrite is_noise_line_cases, F. apply orb_true_r.
  - intros line N B C. rewrite is_noise_line_cases, B, C in N.
    now apply fullmatch_filler_iff.
Qed.

(** ** The detector on the sample lyric *)

(** The stage cue and the filler line are removed before the windows are
    taken, so the first haiku is made of lines that the raw lyric separates
    by noise lines; the two matching windows (indices 0 and 2) share the line
    "Splash silence again". *)
Example detect_demo :
  find_haikus_in_lyrics unidecode_ascii (lit "Pond") (lit "Basho") demo_lyrics
  = Ok [demo_first; demo_second].
Proof. vm_compute. reflexivity. Qed.

Lemma detected_syllables_575_witness :
  find_haikus_in_lyrics unidecode_ascii (lit "Pond") (lit "Basho") demo_lyrics
  = Ok [demo_first; demo_second]
  /\ In demo_second [demo_first; demo_second]
  /\ syllables demo_second = [5; 7; 5]%Z.
Proof.
  assert (R : find_haikus_in_lyrics unidecode_ascii (lit "Pond")
                (lit "Basho") demo_lyrics = Ok [demo_first; demo_second])
    by (vm_compute; reflexivity).
  assert (I : In demo_second [demo_first; demo_second])
    by (right; left; reflexivity).
  exact (conj R (conj I
           (detected_syllables_575 unidecode_ascii _ _ _ _ _ R I))).
Defined.

(** ** The signature *)

Lemma strip_pad (a s b : str) :
  forallb isspace a = true -> forallb isspace b = true ->
  strip (a ++ s ++ b) = strip s.
Proof.
  intros A B. unfold strip. rewrite (lstrip_app_blank a _ A).
  destruct (lstrip_blank_or_cons s) as [[F L]|(F & c & r & L & _)].
  - rewrite (lstrip_app_blank s b F), L.
    now replace (lstrip b) with (@nil char) by (symmetry; now apply lstrip_nil).
  - rewrite (lstrip_app_cons s b r c L), L. unfold rstrip.
    change (c :: r ++ b) with ((c :: r) ++ b). rewrite rev_app_distr.
    now rewrite lstrip_app_blank by now rewrite forallb_rev.
Qed.

(** Whitespace around the title, around the artist, before the first line
    and after the last line does not reach the hash. *)
Lemma signature_ignores_outer_whitespace
  (t a l1 l2 l3 w1 w2 w3 w4 w5 w6 : str) (s s' : list Z) :
  Forall (fun w => forallb isspace w = true) [w1; w2; w3; w4; w5; w6] ->
  signature (mkHaiku (w1 ++ t ++ w2) (w3 ++ a ++ w4)
               [w5 ++ l1; l2; l3 ++ w6] s)
  = signature (mkHaiku t a [l1; l2; l3] s').
Proof.
  intro W. repeat (apply Forall_cons_iff in W as [? W]).
  unfold signature, text. cbn [title artist lines join].
  rewrite !strip_pad by assumption.
  replace ((w5 ++ l1) ++ [newline] ++ l2 ++ [newline] ++ l3 ++ w6)
    with (w5 ++ (l1 ++ [newline] ++ l2 ++ [newline] ++ l3) ++ w6)
    by (now rewrite <- !app_assoc).
  now rewrite strip_pad by assumption.
Qed.

(** C4 (the claim as stated fails): two haiku whose titles, artists and
    lines agree one by one after trimming and lower-casing, and whose
    signatures differ: the first line of one ends in a space, which lies
    inside the joined text. *)
Lemma signature_sees_inner_whitespace :
  lower (strip (title haiku_inner_space))
  = lower (strip (title haiku_trimmed))
  /\ lower (strip (artist haiku_inner_space))
     = lower (strip (artist haiku_trimmed))
  /\ map (fun l => lower (strip l)) (lines haiku_inner_space)
     = map (fun l => lower (strip l)) (lines haiku_trimmed)
  /\ signature haiku_inner_space
     = Ok (lit "fe7928c1b67b56434b2346b8ce44e3d3235286a0beabfc1cf2f94c61f9061ce2")
  /\ signature haiku_trimmed
     = Ok (lit "2f5704a828f0658c6c90f6fdbef90dc14b718326bd0271b6de81cf7f2563ec85")
  /\ signature haiku_inner_space <> signature haiku_trimmed.
Proof.
  repeat split; try (vm_compute; reflexivity).
  vm_compute. discriminate.
Qed.

(** C4 (amended): two haiku whose title, artist and newline-joined text of
    the three lines agree after trimming and lower-casing have the same
    signature.  (Trimming applies to the joined text: whitespace before the
    first line and after the last line is ignored, whitespace at the inner
    line ends is not.) *)
Theorem signature_invariant (h1 h2 : Haiku) :
  lower (strip (title h1)) = lower (strip (title h2)) ->
  lower (strip (artist h1)) = lower (strip (artist h2)) ->
  lower (strip (text h1)) = lower (strip (text h2)) ->
  signature h1 = signature h2.
Proof.
  intros T A X. unfold signature. now rewrite T, A, X.
Qed.

Lemma signature_invariant_witness :
  lower (strip (title haiku_capitals)) = lower (strip (title haiku_small))
  /\ lower (strip (artist haiku_capitals))
     = lower (strip (artist haiku_small))
  /\ lower (strip (text haiku_capitals)) = lower (strip (text haiku_small))
  /\ signature haiku_capitals = signature haiku_small.
Proof.
  assert (T : lower (strip (title haiku_capitals))
              = lower (strip (title haiku_small)))
    by (vm_compute; reflexivity).
  assert (A : lower (strip (artist haiku_capitals))
              = lower (strip (artist haiku_small)))
    by (vm_compute; reflexivity).
  assert (X : lower (strip (text haiku_capitals))
              = lower (strip (text haiku_small)))
    by (vm_compute; reflexivity).
  exact (conj T (conj A (conj X
           (signature_invariant haiku_capitals haiku_small T A X)))).
Defined.

(** The signature of the two sample haiku, as [hashlib] prints it. *)
Lemma signature_of_capitals :
  signature haiku_capitals
  = Ok (lit "87206c438e22af31f95ea0542b9ffd979debe73bc2363733d36308f99e245d6a")
  /\ signature haiku_small
     = Ok (lit "87206c438e22af31f95ea0542b9ffd979debe73bc2363733d36308f99e245d6a").
Proof. split; vm_compute; reflexivity. Qed.

(** ** The tweet text *)

(** C7 (the claim as stated fails): the candidate worded by the claim fits
    in 280 characters and is not what the formatter returns, which has a
    space between the em dash and the title. *)
Lemma compose_has_space_after_dash :
  (len (strip (text haiku_trimmed) ++ claimed_full haiku_trimmed) <=? 280)%Z
  = true
  /\ str_eqb (compose_tweet_text haiku_trimmed true)
       (strip (text haiku_trimmed) ++ claimed_full haiku_trimmed) = false
  /\ compose_tweet_text haiku_trimmed true
     = lit "one" ++ [newline] ++ lit "two" ++ [newline] ++ lit "three"
       ++ [newline; newline; em_dash] ++ lit " Song by Band".
Proof. repeat split; vm_compute; reflexivity. Qed.

Lemma compose_unfold (h : Haiku) (include_attribution : bool) :
  compose_tweet_text h include_attribution
  = if include_attribution
       && (len (strip (text h) ++ attribution_full h) <=? 280)%Z
    then strip (text h) ++ attribution_full h
    else if include_attribution
            && (len (strip (text h) ++ attribution_title h) <=? 280)%Z
    then strip (text h) ++ attribution_title h
    else firstn 280 (strip (text h)).
Proof.
  unfold compose_tweet_text, attribution_full, attribution_title, slice_to.
  cbv zeta. destruct include_attribution; cbn [andb]; [|reflexivity].
  change (lit " ") with [32%N].
  change ([newline; newline; em_dash] ++ [32%N] ++ title h)
    with ([newline; newline; em_dash; 32%N] ++ title h).
  change ([newline; newline; em_dash] ++ [32%N] ++ title h
          ++ lit " by " ++ artist h)
    with ([newline; newline; em_dash; 32%N]
          ++ title h ++ lit " by " ++ artist h).
  now rewrite <- (app_assoc _ (title h)).
Qed.

(** C7 (amended): the formatter returns at most 280 characters.  With
    attribution requested it returns body + two newlines + em dash + space +
    title + " by " + artist when that fits in 280; otherwise body + two
    newlines + em dash + space + title when that fits; otherwise, or without
    attribution, the first 280 characters of the body.  When the body alone
    exceeds 280 the result is its prefix of exactly 280 characters. *)
Theorem compose_tweet_text_bounded (h : Haiku) (include_attribution : bool) :
  (len (compose_tweet_text h include_attribution) <= 280)%Z
  /\ (include_attribution = true ->
      (len (strip (text h) ++ attribution_full h) <= 280)%Z ->
      compose_tweet_text h include_attribution
      = strip (text h) ++ attribution_full h)
  /\ (include_attribution = true ->
      (280 < len (strip (text h) ++ attribution_full h))%Z ->
      (len (strip (text h) ++ attribution_title h) <= 280)%Z ->
      compose_tweet_text h include_attribution
      = strip (text h) ++ attribution_title h)
  /\ (include_attribution = false
      \/ ((280 < len (strip (text h) ++ attribution_full h))%Z
          /\ (280 < len (strip (text h) ++ attribution_title h))%Z) ->
      compose_tweet_text h include_attribution
      = firstn 280 (strip (text h)))
  /\ ((280 < len (strip (text h)))%Z ->
      compose_tweet_text h include_attribution
      = firstn 280 (strip (text h))
      /\ length (compose_tweet_text h include_attribution) = 280).
Proof.
  rewrite compose_unfold.
  assert (F : (280 < len (strip (text h)))%Z ->
              length (firstn 280 (strip (text h))) = 280).
  { unfold len. intro L. rewrite length_firstn. lia. }
  assert (G : (len (firstn 280 (strip (text h))) <= 280)%Z).
  { unfold len. rewrite length_firstn. lia. }
  pose proof (len_app (strip (text h)) (attribution_full h)) as E1.
  pose proof (len_app (strip (text h)) (attribution_title h)) as E2.
  pose proof (len_nonneg (attribution_full h)) as N1.
  pose proof (len_nonneg (attribution_title h)) as N2.
  destruct include_attribution; cbn [andb];
    destruct (Z.leb_spec (len (strip (text h) ++ attribution_full h)) 280);
    destruct (Z.leb_spec (len (strip (text h) ++ attribution_title h)) 280);
    repeat split; intros; trivial; try lia; try discriminate;
    try (exfalso; intuition (discriminate || lia)); auto.
Qed.

(** ** More on the syllable counter *)

Lemma normalize_app (a b : str) :
  normalize (a ++ b) = normalize a ++ normalize b.
Proof.
  rewrite !normalize_letters. apply flat_map_app.
Qed.

Lemma fold_letter_az (c : char) : is_az c = true -> fold_letter c = [c].
Proof. unfold fold_letter. now intros ->. Qed.

Lemma fold_letter_AZ (c : char) :
  is_az c = true -> fold_letter (c - 32)%N = [c].
Proof.
  unfold fold_letter, is_az. intro H. bool_facts.
  destruct (N.leb_spec 97 (c - 32)); [lia|]. cbn [andb].
  destruct (N.leb_spec 65 (c - 32)); [|lia].
  destruct (N.leb_spec (c - 32) 90); [|lia].
  cbn [andb]. f_equal. lia.
Qed.

(** X1: a word's count does not depend on what normalisation removes or
    folds.  Inserting anywhere a character whose lowercase holds no letter
    [a-z] (a digit, an apostrophe, a hyphen, an accented letter) leaves the
    count unchanged, and so does writing a letter in upper case. *)
Theorem count_word_ignores_case_and_nonletters :
  (forall a b c,
     filter is_az (lower_char c) = [] ->
     count_syllables_in_word (a ++ c :: b) = count_syllables_in_word (a ++ b))
  /\ (forall a b c,
        is_az c = true ->
        count_syllables_in_word (a ++ (c - 32)%N :: b)
        = count_syllables_in_word (a ++ c :: b)).
Proof.
  split; intros a b c H; unfold count_syllables_in_word;
    rewrite !normalize_app;
    change (normalize (?x :: b)) with (normalize ([x] ++ b));
    rewrite !normalize_app.
  - replace (normalize [c]) with (@nil char); [reflexivity|].
    rewrite normalize_letters. unfold letters_only. cbn [flat_map].
    now rewrite app_nil_r, <- lower_char_letters, H.
  - replace (normalize [(c - 32)%N]) with (normalize [c]); [reflexivity|].
    rewrite !normalize_letters. unfold letters_only. cbn [flat_map].
    now rewrite (fold_letter_az c H), (fold_letter_AZ c H).
Qed.

Lemma run_starts_inside_le (w : str) :
  (run_starts true w <= run_starts false w)%Z.
Proof.
  destruct w as [|c w]; cbn [run_starts]; [lia|].
  destruct (is_vowel c); cbn [andb negb]; lia.
Qed.

Lemma run_starts_nonneg (b : bool) (w : str) : (0 <= run_starts b w)%Z.
Proof.
  revert b; induction w as [|c w IH]; intro b; cbn [run_starts]; [lia|].
  specialize (IH (is_vowel c)). destruct (is_vowel c && negb b); lia.
Qed.

Lemma run_starts_app_le (b : bool) (p q : str) :
  (run_starts b (p ++ q) <= len p + run_starts false q)%Z.
Proof.
  revert b; induction p as [|c p IH]; intro b; cbn [app run_starts].
  - unfold len. cbn [length]. destruct b; [apply run_starts_inside_le|lia].
  - specialize (IH (is_vowel c)). unfold len in *. cbn [length].
    destruct (is_vowel c && negb b); lia.
Qed.

Lemma run_starts_le_len (b : bool) (w : str) : (run_starts b w <= len w)%Z.
Proof.
  pose proof (run_starts_app_le b w []) as H.
  rewrite app_nil_r in H. cbn [run_starts] in H. lia.
Qed.

Lemma consonant_le_runs (w : str) :
  ends_in_consonant_le w = true -> (vowel_runs w + 1 <= len w)%Z.
Proof.
  unfold ends_in_consonant_le, vowel_runs.
  destruct (rev w) as [|e [|l [|c t]]] eqn:E; try discriminate.
  intro H. apply andb_true_iff in H as [H C].
  apply andb_true_iff in H as [He Hl].
  apply N.eqb_eq in He. apply N.eqb_eq in Hl. subst e l.
  unfold is_consonant in C. apply andb_true_iff in C as [_ C].
  apply negb_true_iff in C.
  assert (W : w = rev t ++ [c; 108; 101]%N).
  { rewrite <- (rev_involutive w), E. cbn [rev]. now rewrite <- !app_assoc. }
  rewrite W. pose proof (run_starts_app_le false (rev t) [c; 108; 101]%N) as R.
  rewrite len_app. cbn [run_starts] in R. rewrite C in R.
  change (is_vowel 108%N) with false in R.
  change (is_vowel 101%N) with true in R.
  cbn [andb negb] in R. unfold len in *. cbn [length]. lia.
Qed.

Lemma special_values_le_len (k : str) (v : Z) :
  In (k, v) special -> (v <= len k)%Z.
Proof.
  unfold special. cbn [In].
  intro H; repeat (destruct H as [H|H];
                   [injection H as <- <-; vm_compute; discriminate|]).
  destruct H.
Qed.

(** The heuristic branch of the counter, for use below. *)
Lemma count_word_heuristic_on_normalized (word : str) :
  dict_contains special (normalize word) = false ->
  count_syllables_in_word word = Ok (spec_heuristic (normalize word)).
Proof.
  intro NS. unfold count_syllables_in_word, spec_heuristic. cbv zeta.
  destruct (is_empty (normalize word)); [reflexivity|].
  rewrite NS, le_rule_eval by apply normalize_az.
  cbn [bind]. rewrite findall_vowel_groups_len, negb_orb, andb_assoc.
  f_equal.
  destruct (endswith (lit "e") (normalize word)
            && negb (endswith (lit "le") (normalize word))
            && negb (endswith (lit "ye") (normalize word))
            && (1 <? vowel_runs (normalize word))%Z);
    destruct (ends_in_consonant_le (normalize word)); lia.
Qed.

(** X2: the count of a word lies between 0 and the number of letters left
    by normalisation. *)
Theorem count_word_at_most_letters (word : str) :
  exists n, count_syllables_in_word word = Ok n
            /\ (0 <= n <= len (normalize word))%Z.
Proof.
  destruct (is_empty (normalize word)) eqn:E.
  - exists 0%Z. unfold count_syllables_in_word. rewrite E.
    split; [reflexivity|]. pose proof (len_nonneg (normalize word)). lia.
  - destruct (dict_contains special (normalize word)) eqn:D.
    + destruct (dict_get_contains special _ D) as (v & G & I).
      exists v. unfold count_syllables_in_word. rewrite E, D.
      split; [exact G|].
      pose proof (special_values _ _ I). pose proof (special_values_le_len _ _ I).
      lia.
    + eexists. split; [apply (count_word_heuristic_on_normalized _ D)|].
      unfold spec_heuristic. rewrite E.
      pose proof (run_starts_le_len false (normalize word)) as R.
      fold (vowel_runs (normalize word)) in R.
      assert (L : (1 <= len (normalize word))%Z).
      { destruct (normalize word); [discriminate|]. unfold len. cbn [length]. lia. }
      destruct (ends_in_consonant_le (normalize word)) eqn:C.
      * apply consonant_le_runs in C.
        destruct (endswith (lit "e") (normalize word)
                  && negb (endswith (lit "le") (normalize word))
                  && negb (endswith (lit "ye") (normalize word))
                  && (1 <? vowel_runs (normalize word))%Z); lia.
      * destruct (endswith (lit "e") (normalize word)
                  && negb (endswith (lit "le") (normalize word))
                  && negb (endswith (lit "ye") (normalize word))
                  && (1 <? vowel_runs (normalize word))%Z); lia.
Qed.

(** X3: a word whose normalised form is a key of the table counts what the
    table says, whatever its case and punctuation. *)
Theorem count_word_table_lookup (word k : str) (v : Z) :
  In (k, v) special -> normalize word = k ->
  count_syllables_in_word word = Ok v.
Proof.
  intros I E. unfold count_syllables_in_word. rewrite E. clear E.
  revert I. unfold special. cbn [In].
  intro H; repeat (destruct H as [H|H];
                   [injection H as <- <-; vm_compute; reflexivity|]).
  destruct H.
Qed.

Lemma count_word_table_lookup_witness :
  In (lit "quietly", 3%Z) special
  /\ normalize (lit "Quietly,") = lit "quietly"
  /\ count_syllables_in_word (lit "Quietly,") = Ok 3%Z.
Proof.
  assert (I : In (lit "quietly", 3%Z) special)
    by (unfold special; cbn [In]; tauto).
  assert (E : normalize (lit "Quietly,") = lit "quietly") by reflexivity.
  exact (conj I (conj E (count_word_table_lookup _ _ _ I E))).
Defined.

(** ** More on the line counter *)

Lemma re_sub_annotations_cons (c : char) (r : str) :
  re_sub_annotations (c :: r)
  = if is_opener c
    then match after_closer r with
         | Some rest => re_sub_annotations rest
         | None => c :: re_sub_annotations r
         end
    else c :: re_sub_annotations r.
Proof.
  cbn [re_sub_annotations]. destruct (is_opener c); [|reflexivity].
  generalize (c :: re_sub_annotations r) as fallback. intro fallback.
  induction r as [|d t IH]; [reflexivity|].
  cbn [after_closer]. destruct (is_closer d); [reflexivity|].
  destruct (d =? newline)%N; [reflexivity|]. exact IH.
Qed.

Lemma re_sub_annotations_keeps (a s : str) :
  forallb (fun d => negb (is_opener d)) a = true ->
  re_sub_annotations (a ++ s) = a ++ re_sub_annotations s.
Proof.
  induction a as [|d a IH]; [reflexivity|].
  cbn [forallb app]. intro H. apply andb_true_iff in H as [D A].
  apply negb_true_iff in D.
  rewrite re_sub_annotations_cons, D. now rewrite IH.
Qed.

Lemma after_closer_first (x b : str) (c : char) :
  forallb (fun d => negb (is_closer d) && not_newline d) x = true ->
  is_closer c = true ->
  after_closer (x ++ c :: b) = Some b.
Proof.
  intros X C. induction x as [|d x IH]; cbn [app after_closer].
  - now rewrite C.
  - cbn [forallb] in X. apply andb_true_iff in X as [D X].
    apply andb_true_iff in D as [D N].
    apply negb_true_iff in D. unfold not_newline in N.
    apply negb_true_iff in N. rewrite D, N. now apply IH.
Qed.

(** X4: a bracketed or parenthesised annotation inside a line is not counted:
    the line counts what it counts with the annotation cut out, provided no
    bracket is open before it and the annotation text holds no closing
    bracket and no newline. *)
Theorem count_line_skips_annotation (unidecode : str -> str)
  (a x b : str) (o c : char) :
  forallb (fun d => negb (is_opener d)) a = true ->
  is_opener o = true ->
  forallb (fun d => negb (is_closer d) && not_newline d) x = true ->
  is_closer c = true ->
  count_syllables_in_line unidecode (a ++ o :: x ++ c :: b)
  = count_syllables_in_line unidecode (a ++ b).
Proof.
  intros A O X C. unfold count_syllables_in_line. cbv zeta.
  rewrite !(re_sub_annotations_keeps a) by exact A.
  now rewrite re_sub_annotations_cons, O, (after_closer_first x b c X C).
Qed.

Lemma count_line_skips_annotation_witness :
  count_syllables_in_line unidecode_ascii
    (lit "Hold me " ++ ch_open :: lit "hold me, yeah" ++ ch_close :: lit " tonight")
  = count_syllables_in_line unidecode_ascii (lit "Hold me " ++ lit " tonight").
Proof.
  exact (count_line_skips_annotation unidecode_ascii
           (lit "Hold me ") (lit "hold me, yeah") (lit " tonight")
           ch_open ch_close eq_refl eq_refl eq_refl eq_refl).
Defined.

Lemma runs_from_class (p : char -> bool) (s cur w : str) :
  forallb p cur = true -> In w (runs_from p cur s) -> forallb p w = true.
Proof.
  revert cur; induction s as [|c r IH]; intros cur P; cbn [runs_from].
  - destruct cur; cbn; [tauto|]. now intros [<-|[]].
  - destruct (p c) eqn:C.
    + apply IH. rewrite forallb_app, P. cbn. now rewrite C.
    + rewrite in_app_iff. intros [H|H]; [|now apply (IH [])].
      destruct cur; cbn in H; [tauto|]. now destruct H as [<-|[]].
Qed.

Lemma runs_from_incl (p : char -> bool) (s cur w : str) (c : char) :
  In w (runs_from p cur s) -> In c w -> In c (cur ++ s).
Proof.
  revert cur; induction s as [|d r IH]; intros cur; cbn [runs_from].
  - rewrite app_nil_r. destruct cur; cbn; [tauto|]. now intros [<-|[]].
  - destruct (p d).
    + intros H I. specialize (IH _ H I). rewrite <- app_assoc in IH. exact IH.
    + rewrite in_app_iff. intros [H|H] I.
      * destruct cur; cbn in H; [tauto|]. destruct H as [<-|[]].
        apply in_or_app. now left.
      * specialize (IH [] H I). apply in_or_app. right. now right.
Qed.

Lemma sum_of_zero (ws : list str) :
  Forall (fun w => count_syllables_in_word w = Ok 0%Z) ws ->
  sum_of count_syllables_in_word ws 0%Z = Ok 0%Z.
Proof.
  induction 1 as [|w ws W _ IH]; [reflexivity|].
  cbn [sum_of]. rewrite W. exact IH.
Qed.

(** X5: a line that holds no ASCII letter once annotations are removed and
    the text is transliterated counts 0 syllables (digits, punctuation and
    apostrophes alone make no word that counts). *)
Theorem count_line_without_letters (unidecode : str -> str) (line : str) :
  forallb (fun c => negb (is_letter c))
    (unidecode (re_sub_annotations line)) = true ->
  count_syllables_in_line unidecode line = Ok 0%Z.
Proof.
  intro L. unfold count_syllables_in_line. cbv zeta.
  apply sum_of_zero, Forall_forall. intros w W.
  unfold re_findall_class in W.
  assert (N : normalize w = []).
  { rewrite normalize_letters. unfold letters_only.
    assert (Q : forall c, In c w -> c = 39%N).
    { intros c I.
      pose proof (runs_from_class is_word_char _ [] w eq_refl W) as P.
      pose proof (runs_from_incl _ _ _ _ c W I) as S. cbn [app] in S.
      rewrite forallb_forall in P, L. specialize (P c I). specialize (L c S).
      unfold is_word_char in P. unfold is_letter in L.
      apply negb_true_iff in L. rewrite L in P. cbn [orb] in P.
      now apply N.eqb_eq in P. }
    clear W. induction w as [|c w IH]; [reflexivity|].
    cbn [flat_map]. rewrite (Q c (or_introl eq_refl)).
    change (fold_letter 39%N) with (@nil char). cbn [app].
    apply IH. intros d I. apply Q. now right. }
  unfold count_syllables_in_word. now rewrite N.
Qed.

Lemma count_line_without_letters_witness :
  forallb (fun c => negb (is_letter c))
    (unidecode_ascii (re_sub_annotations (lit "12:30 -- [intro] '99 !!")))
  = true
  /\ count_syllables_in_line unidecode_ascii (lit "12:30 -- [intro] '99 !!")
     = Ok 0%Z.
Proof.
  assert (L : forallb (fun c => negb (is_letter c))
                (unidecode_ascii
                   (re_sub_annotations (lit "12:30 -- [intro] '99 !!")))
              = true) by reflexivity.
  exact (conj L (count_line_without_letters unidecode_ascii _ L)).
Defined.

(** ** More on the noise filter and the detector *)

Lemma lstrip_idem (s : str) : lstrip (lstrip s) = lstrip s.
Proof.
  destruct (lstrip_blank_or_cons s) as [[_ ->]|(_ & c & r & -> & C)];
    [reflexivity|].
  cbn [lstrip]. now rewrite C.
Qed.

Lemma rstrip_idem (s : str) : rstrip (rstrip s) = rstrip s.
Proof. unfold rstrip. now rewrite rev_involutive, lstrip_idem. Qed.

Lemma rstrip_cons (o : char) (r : str) :
  isspace o = false -> rstrip (o :: r) = o :: rstrip r.
Proof.
  intro O. unfold rstrip. cbn [rev].
  destruct (lstrip_blank_or_cons (rev r)) as [[G L]|(G & d & t & L & _)].
  - rewrite (lstrip_app_blank _ [o] G), L. cbn. now rewrite O.
  - rewrite (lstrip_app_cons _ [o] _ _ L), L.
    change (d :: t ++ [o]) with ((d :: t) ++ [o]).
    now rewrite rev_app_distr.
Qed.

Lemma strip_idem (s : str) : strip (strip s) = strip s.
Proof.
  unfold strip.
  destruct (lstrip_blank_or_cons s) as [[_ ->]|(_ & c & r & -> & C)];
    [reflexivity|].
  rewrite (rstrip_cons c r C). cbn [lstrip]. rewrite C.
  now rewrite <- (rstrip_cons c r C), rstrip_idem.
Qed.

Lemma noise_of_stripped (line : str) :
  is_noise_line (strip line) = is_noise_line line.
Proof.
  rewrite !is_noise_line_cases, strip_idem.
  now rewrite <- !strip_blank, strip_idem.
Qed.

(** X6: the classification of a line does not depend on the whitespace
    around it: a line is noise exactly when its trimmed form is, and
    trimming twice is trimming once. *)
Theorem is_noise_line_strip (line : str) :
  is_noise_line (strip line) = is_noise_line line
  /\ strip (strip line) = strip line.
Proof. split; [apply noise_of_stripped|apply strip_idem]. Qed.

Lemma replace_crlf_no_cr (s : str) :
  forallb (fun c => negb (c =? carriage_return)%N) s = true ->
  replace_crlf s = s.
Proof.
  induction s as [|c r IH]; [reflexivity|].
  cbn [forallb]. intro H. apply andb_true_iff in H as [C R].
  apply negb_true_iff in C. cbn [replace_crlf]. rewrite C. cbn [andb].
  rewrite (IH R). now destruct r.
Qed.

Lemma replace_crlf_no_lf (s : str) :
  forallb (fun c => negb (c =? newline)%N) s = true ->
  replace_crlf s = s.
Proof.
  induction s as [|c r IH]; [reflexivity|].
  cbn [forallb]. intro H. apply andb_true_iff in H as [_ R].
  cbn [replace_crlf]. destruct r as [|d r']; [reflexivity|].
  pose proof R as R'. cbn [forallb] in R'.
  apply andb_true_iff in R' as [D _]. apply negb_true_iff in D.
  rewrite D, andb_false_r. now rewrite (IH R).
Qed.

Lemma replace_crlf_keeps (l s : str) :
  forallb no_cr_lf l = true -> replace_crlf (l ++ s) = l ++ replace_crlf s.
Proof.
  induction l as [|c l IH]; [reflexivity|].
  cbn [forallb app]. intro H. apply andb_true_iff in H as [C L].
  unfold no_cr_lf in C. apply andb_true_iff in C as [C _].
  apply negb_true_iff in C. cbn [replace_crlf]. rewrite C. cbn [andb].
  rewrite (IH L). now destruct (l ++ s) eqn:E; [destruct l; destruct s|].
Qed.

Lemma replace_cr_no_cr (s : str) :
  forallb (fun c => negb (c =? carriage_return)%N) s = true ->
  replace_cr s = s.
Proof.
  unfold replace_cr. induction s as [|c r IH]; [reflexivity|].
  cbn [forallb map]. intro H. apply andb_true_iff in H as [C R].
  apply negb_true_iff in C. now rewrite C, (IH R).
Qed.

Lemma replace_cr_app (a b : str) :
  replace_cr (a ++ b) = replace_cr a ++ replace_cr b.
Proof. apply map_app. Qed.

Lemma forallb_join (f : char -> bool) (sep : str) (ls : list str) :
  forallb f sep = true -> Forall (fun l => forallb f l = true) ls ->
  forallb f (join sep ls) = true.
Proof.
  intros S. induction 1 as [|l ls L F IH]; [reflexivity|].
  destruct ls as [|l' ls]; [exact L|].
  change (join sep (l :: l' :: ls)) with (l ++ sep ++ join sep (l' :: ls)).
  now rewrite !forallb_app, L, S, IH.
Qed.

Lemma forallb_weaken {A : Type} (f g : A -> bool) (l : list A) :
  (forall x, f x = true -> g x = true) ->
  forallb f l = true -> forallb g l = true.
Proof.
  intros W H. rewrite forallb_forall in *. auto.
Qed.

Lemma no_cr_lf_no_cr (c : char) :
  no_cr_lf c = true -> negb (c =? carriage_return)%N = true.
Proof. unfold no_cr_lf. intro H. now apply andb_true_iff in H. Qed.

Lemma no_cr_lf_no_lf (c : char) :
  no_cr_lf c = true -> negb (c =? newline)%N = true.
Proof. unfold no_cr_lf. intro H. now apply andb_true_iff in H. Qed.

(** The newline normalisation of [find_haikus_in_lyrics] on lines joined by
    each of the three conventions. *)
Lemma normalize_newlines_join (ls : list str) :
  Forall (fun l => forallb no_cr_lf l = true) ls ->
  replace_cr (replace_crlf (join [carriage_return; newline] ls))
  = join [newline] ls
  /\ replace_cr (replace_crlf (join [carriage_return] ls)) = join [newline] ls
  /\ replace_cr (replace_crlf (join [newline] ls)) = join [newline] ls.
Proof.
  intro F.
  assert (NC : forallb (fun c => negb (c =? carriage_return)%N)
                 (join [newline] ls) = true).
  { apply forallb_join; [reflexivity|].
    eapply Forall_impl; [|exact F]. intros l.
    apply forallb_weaken, no_cr_lf_no_cr. }
  assert (J : replace_cr (join [carriage_return] ls) = join [newline] ls).
  { clear NC. induction F as [|l ls L F IH]; [reflexivity|].
    assert (E : replace_cr l = l).
    { apply replace_cr_no_cr.
      exact (forallb_weaken _ _ _ no_cr_lf_no_cr L). }
    destruct ls as [|l' ls]; [exact E|].
    change (join ?s (l :: l' :: ls)) with (l ++ s ++ join s (l' :: ls)).
    rewrite !replace_cr_app, E, IH. reflexivity. }
  split; [|split].
  - rewrite <- (replace_cr_no_cr _ NC). f_equal. clear NC J.
    induction F as [|l ls L F IH]; [reflexivity|].
    destruct ls as [|l' ls].
    + apply replace_crlf_no_cr.
      exact (forallb_weaken _ _ _ no_cr_lf_no_cr L).
    + change (join ?s (l :: l' :: ls)) with (l ++ s ++ join s (l' :: ls)).
      rewrite (replace_crlf_keeps _ _ L).
      change ([carriage_return; newline] ++ ?r)
        with (carriage_return :: newline :: r).
      cbn [replace_crlf N.eqb Pos.eqb andb carriage_return newline].
      fold carriage_return newline. now rewrite IH.
  - rewrite replace_crlf_no_lf; [exact J|].
    apply forallb_join; [reflexivity|].
    eapply Forall_impl; [|exact F]. intros l.
    apply forallb_weaken, no_cr_lf_no_lf.
  - now rewrite (replace_crlf_no_cr _ NC), (replace_cr_no_cr _ NC).
Qed.

(** X7: lyrics whose lines are separated by CR LF, by CR or by LF give the
    same haiku. *)
Theorem detector_newline_conventions (unidecode : str -> str)
  (title artist : str) (ls : list str) :
  Forall (fun l => forallb no_cr_lf l = true) ls ->
  find_haikus_in_lyrics unidecode title artist
    (join [carriage_return; newline] ls)
  = find_haikus_in_lyrics unidecode title artist (join [newline] ls)
  /\ find_haikus_in_lyrics unidecode title artist (join [carriage_return] ls)
     = find_haikus_in_lyrics unidecode title artist (join [newline] ls).
Proof.
  intro F. destruct (normalize_newlines_join ls F) as (A & B & C).
  unfold find_haikus_in_lyrics. cbv zeta. now rewrite A, B, C.
Qed.

Lemma detector_newline_conventions_witness :
  Forall (fun l => forallb no_cr_lf l = true)
    [lit "An old silent pond"; lit "A frog jumps into the pond";
     lit "Splash silence again"]
  /\ find_haikus_in_lyrics unidecode_ascii (lit "Pond") (lit "Basho")
       (join [carriage_return; newline]
          [lit "An old silent pond"; lit "A frog jumps into the pond";
           lit "Splash silence again"])
     = find_haikus_in_lyrics unidecode_ascii (lit "Pond") (lit "Basho")
         (join [newline]
            [lit "An old silent pond"; lit "A frog jumps into the pond";
             lit "Splash silence again"])
  /\ find_haikus_in_lyrics unidecode_ascii (lit "Pond") (lit "Basho")
       (join [carriage_return]
          [lit "An old silent pond"; lit "A frog jumps into the pond";
           lit "Splash silence again"])
     = find_haikus_in_lyrics unidecode_ascii (lit "Pond") (lit "Basho")
         (join [newline]
            [lit "An old silent pond"; lit "A frog jumps into the pond";
             lit "Splash silence again"]).
Proof.
  assert (F : Forall (fun l => forallb no_cr_lf l = true)
                [lit "An old silent pond"; lit "A frog jumps into the pond";
                 lit "Splash silence again"])
    by (repeat constructor).
  exact (conj F (detector_newline_conventions unidecode_ascii
                   (lit "Pond") (lit "Basho") _ F)).
Defined.

Lemma split_from_app (sep : char) (a b cur : str) :
  split_from sep cur (a ++ sep :: b)
  = split_from sep cur a ++ split_from sep [] b.
Proof.
  revert cur; induction a as [|c a IH]; intro cur; cbn [app split_from].
  - now rewrite N.eqb_refl.
  - destruct (c =? sep)%N; [cbn [app]; f_equal|]; apply IH.
Qed.

Lemma split_from_no_sep (sep : char) (s cur : str) :
  forallb (fun c => negb (c =? sep)%N) s = true ->
  split_from sep cur s = [cur ++ s].
Proof.
  revert cur; induction s as [|c s IH]; intros cur H; cbn [split_from].
  - now rewrite app_nil_r.
  - cbn [forallb] in H. apply andb_true_iff in H as [C S].
    apply negb_true_iff in C. rewrite C, (IH _ S).
    now rewrite <- app_assoc.
Qed.

Lemma content_lines_lf (s : str) :
  forallb (fun c => negb (c =? carriage_return)%N) s = true ->
  content_lines s
  = filter (fun ln => negb (is_noise_line ln)) (map strip (split newline s)).
Proof.
  intro H. unfold content_lines.
  now rewrite (replace_crlf_no_cr _ H), (replace_cr_no_cr _ H).
Qed.

Lemma find_haikus_by_content (unidecode : str -> str)
  (title artist l1 l2 : str) :
  content_lines l1 = content_lines l2 ->
  find_haikus_in_lyrics unidecode title artist l1
  = find_haikus_in_lyrics unidecode title artist l2.
Proof. intro E. now rewrite !find_haikus_refines, E. Qed.

Lemma no_cr_lf_parts (l : str) :
  forallb no_cr_lf l = true ->
  forallb (fun c => negb (c =? carriage_return)%N) l = true
  /\ forallb (fun c => negb (c =? newline)%N) l = true.
Proof.
  intro H. split; (eapply forallb_weaken; [|exact H]); intro c.
  - apply no_cr_lf_no_cr.
  - apply no_cr_lf_no_lf.
Qed.

Lemma replace_crlf_head (c : char) (rest : str) :
  (c =? carriage_return)%N = false \/ hd_error rest <> Some newline ->
  replace_crlf (c :: rest) = c :: replace_crlf rest.
Proof.
  intro H. destruct rest as [|d r]; [reflexivity|].
  cbn [replace_crlf]. destruct ((c =? carriage_return)%N && (d =? newline)%N) eqn:E;
    [|reflexivity].
  apply andb_true_iff in E as [E1 E2]. apply N.eqb_eq in E2. subst d.
  destruct H as [H|H]; [congruence|]. now contradiction H.
Qed.

(** The code's splitting gives the lines of the text. *)
Lemma lines_of_split (s : str) (ls : list str) :
  lines_of s ls -> split newline (replace_cr (replace_crlf s)) = ls.
Proof.
  unfold split. induction 1 as [l L|l rest ls L _ IH|l rest ls L _ IH
                                |l rest ls L N _ IH];
    destruct (no_cr_lf_parts l L) as [Lc Ln].
  - rewrite replace_crlf_no_cr, replace_cr_no_cr by exact Lc.
    now rewrite split_from_no_sep.
  - rewrite replace_crlf_keeps by exact L.
    rewrite replace_crlf_head by now left.
    rewrite replace_cr_app, replace_cr_no_cr by exact Lc.
    change (replace_cr (newline :: ?x)) with (newline :: replace_cr x).
    rewrite split_from_app, split_from_no_sep, IH by exact Ln. reflexivity.
  - rewrite replace_crlf_keeps by exact L.
    change (replace_crlf (carriage_return :: newline :: rest))
      with (newline :: replace_crlf rest).
    rewrite replace_cr_app, replace_cr_no_cr by exact Lc.
    change (replace_cr (newline :: ?x)) with (newline :: replace_cr x).
    rewrite split_from_app, split_from_no_sep, IH by exact Ln. reflexivity.
  - rewrite replace_crlf_keeps by exact L.
    rewrite replace_crlf_head by now right.
    rewrite replace_cr_app, replace_cr_no_cr by exact Lc.
    change (replace_cr (carriage_return :: ?x)) with (newline :: replace_cr x).
    rewrite split_from_app, split_from_no_sep, IH by exact Ln. reflexivity.
Qed.

Lemma lines_of_cur (n : nat) (s cur : str) :
  length s <= n -> forallb no_cr_lf cur = true ->
  exists ls, lines_of (cur ++ s) ls.
Proof.
  revert s cur. induction n as [|n IH]; intros s cur L C.
  - destruct s; [|cbn [length] in L; lia].
    rewrite app_nil_r. exists [cur]. now constructor.
  - destruct s as [|c r].
    + rewrite app_nil_r. exists [cur]. now constructor.
    + cbn [length] in L.
      destruct (N.eqb_spec c newline) as [->|Nl].
      { destruct (IH r [] ltac:(lia) eq_refl) as [ls R].
        exists (cur :: ls). now apply lines_of_lf. }
      destruct (N.eqb_spec c carriage_return) as [->|Nc].
      { destruct r as [|d r'].
        - exists [cur; []]. apply lines_of_cr; [exact C|discriminate|].
          now constructor.
        - destruct (N.eqb_spec d newline) as [->|Nd].
          + cbn [length] in L.
            destruct (IH r' [] ltac:(lia) eq_refl) as [ls R].
            exists (cur :: ls). now apply lines_of_crlf.
          + destruct (IH (d :: r') [] ltac:(lia) eq_refl) as [ls R].
            exists (cur :: ls). apply lines_of_cr; [exact C| |exact R].
            cbn [hd_error]. congruence. }
      destruct (IH r (cur ++ [c]) ltac:(lia)) as [ls R].
      { rewrite forallb_app, C. cbn [forallb]. unfold no_cr_lf.
        apply N.eqb_neq in Nl. apply N.eqb_neq in Nc. now rewrite Nl, Nc. }
      exists ls. now rewrite <- app_assoc in R.
Qed.

(** Every text has lines. *)
Lemma lines_of_total (s : str) : exists ls, lines_of s ls.
Proof. exact (lines_of_cur (length s) s [] (le_n _) eq_refl). Qed.

Lemma content_lines_of (s : str) (ls : list str) :
  lines_of s ls -> content_lines s = content_of ls.
Proof.
  intro H. unfold content_lines, content_of. now rewrite (lines_of_split s ls H).
Qed.

(** C1: the detector splits the text into its lines (cut at CR LF, CR or
    LF; every text has such lines), trims them and removes the noise lines;
    then it returns, in increasing order of [i], one haiku for each index
    [i] from [0] to [len(content) - 3] whose three consecutive content lines
    count 5, 7 and 5 syllables, built from the title, the artist, that
    triplet and (5, 7, 5); a line may occur in several windows; windows are
    taken among the lines that survive the noise filter, none of which is a
    noise line; and fewer than three content lines give the empty list. *)
Theorem find_haikus_sliding_window (unidecode : str -> str)
  (title artist lyrics : str) :
  (exists ls, lines_of lyrics ls)
  /\ forall ls,
       lines_of lyrics ls ->
       find_haikus_in_lyrics unidecode title artist lyrics
       = Ok (map (fun i => mkHaiku title artist
                             (window (content_of ls) i) [5; 7; 5]%Z)
                 (matching_indices unidecode (content_of ls)))
       /\ StronglySorted lt (matching_indices unidecode (content_of ls))
       /\ (forall i,
             In i (matching_indices unidecode (content_of ls))
             <-> i + 3 <= length (content_of ls)
                 /\ map (count_syllables_in_line unidecode)
                        (window (content_of ls) i)
                    = [Ok 5; Ok 7; Ok 5]%Z)
       /\ Forall (fun ln => is_noise_line ln = false) (content_of ls)
       /\ (length (content_of ls) < 3 ->
           find_haikus_in_lyrics unidecode title artist lyrics = Ok []).
Proof.
  split; [apply lines_of_total|]. intros ls H.
  rewrite <- (content_lines_of lyrics ls H).
  apply sliding_window_over_content.
Qed.

Lemma find_haikus_sliding_window_witness :
  lines_of demo_lyrics
    [lit "An old silent pond"; lit "[Verse 1]";
     lit "  A frog jumps into the pond "; lit "la la la";
     lit "Splash silence again"; lit "A frog jumps into the pond";
     lit "An old silent pond"]
  /\ content_of
       [lit "An old silent pond"; lit "[Verse 1]";
        lit "  A frog jumps into the pond "; lit "la la la";
        lit "Splash silence again"; lit "A frog jumps into the pond";
        lit "An old silent pond"]
     = [lit "An old silent pond"; lit "A frog jumps into the pond";
        lit "Splash silence again"; lit "A frog jumps into the pond";
        lit "An old silent pond"]
  /\ find_haikus_in_lyrics unidecode_ascii (lit "Pond") (lit "Basho")
       demo_lyrics
     = Ok [demo_first; demo_second].
Proof.
  assert (L : lines_of demo_lyrics
                [lit "An old silent pond"; lit "[Verse 1]";
                 lit "  A frog jumps into the pond "; lit "la la la";
                 lit "Splash silence again"; lit "A frog jumps into the pond";
                 lit "An old silent pond"]).
  { unfold demo_lyrics.
    refine (lines_of_crlf (lit "An old silent pond") _ _ eq_refl _).
    refine (lines_of_lf (lit "[Verse 1]") _ _ eq_refl _).
    refine (lines_of_cr (lit "  A frog jumps into the pond ") _ _ eq_refl
              _ _); [discriminate|].
    refine (lines_of_lf (lit "la la la") _ _ eq_refl _).
    refine (lines_of_lf (lit "Splash silence again") _ _ eq_refl _).
    refine (lines_of_lf (lit "A frog jumps into the pond") _ _ eq_refl _).
    exact (lines_of_last (lit "An old silent pond") eq_refl). }
  split; [exact L|]. split; [vm_compute; reflexivity|].
  rewrite (proj1 (proj2 (find_haikus_sliding_window unidecode_ascii
                           (lit "Pond") (lit "Basho") demo_lyrics) _ L)).
  vm_compute. reflexivity.
Defined.

(** X8: a noise line between two lines of a lyric changes nothing: the lines
    around it are adjacent for the detector.  (Stated for lyrics that use LF
    line ends.) *)
Theorem detector_skips_noise_line (unidecode : str -> str)
  (title artist before noise after : str) :
  forallb (fun c => negb (c =? carriage_return)%N) before = true ->
  forallb no_cr_lf noise = true ->
  forallb (fun c => negb (c =? carriage_return)%N) after = true ->
  is_noise_line noise = true ->
  find_haikus_in_lyrics unidecode title artist
    (before ++ newline :: noise ++ newline :: after)
  = find_haikus_in_lyrics unidecode title artist (before ++ newline :: after).
Proof.
  intros B Hn A Z. apply find_haikus_by_content.
  pose proof (forallb_weaken _ _ _ no_cr_lf_no_cr Hn) as Nc.
  pose proof (forallb_weaken _ _ _ no_cr_lf_no_lf Hn) as Nl.
  assert (L1 : forallb (fun c => negb (c =? carriage_return)%N)
                 (before ++ newline :: noise ++ newline :: after) = true).
  { rewrite forallb_app. cbn [forallb]. rewrite forallb_app. cbn [forallb].
    repeat (apply andb_true_iff; split); first [assumption|reflexivity]. }
  assert (L2 : forallb (fun c => negb (c =? carriage_return)%N)
                 (before ++ newline :: after) = true).
  { rewrite forallb_app. cbn [forallb].
    repeat (apply andb_true_iff; split); first [assumption|reflexivity]. }
  rewrite (content_lines_lf _ L1), (content_lines_lf _ L2).
  unfold split. rewrite !split_from_app, (split_from_no_sep _ noise [] Nl).
  rewrite !map_app, !filter_app. cbn [app map filter].
  now rewrite noise_of_stripped, Z.
Qed.

Lemma detector_skips_noise_line_witness :
  find_haikus_in_lyrics unidecode_ascii (lit "Pond") (lit "Basho")
    (lit "An old silent pond"
     ++ newline :: lit "  (ooh, ooh)  "
     ++ newline :: (lit "A frog jumps into the pond"
                    ++ newline :: lit "Splash silence again"))
  = find_haikus_in_lyrics unidecode_ascii (lit "Pond") (lit "Basho")
      (lit "An old silent pond"
       ++ newline :: (lit "A frog jumps into the pond"
                      ++ newline :: lit "Splash silence again")).
Proof.
  exact (detector_skips_noise_line unidecode_ascii (lit "Pond") (lit "Basho")
           (lit "An old silent pond") (lit "  (ooh, ooh)  ")
           (lit "A frog jumps into the pond"
            ++ newline :: lit "Splash silence again")
           eq_refl eq_refl eq_refl eq_refl).
Defined.

Lemma content_line_facts (lyrics ln : str) :
  In ln (content_lines lyrics) ->
  strip ln = ln /\ is_noise_line ln = false /\ ln <> [].
Proof.
  unfold content_lines. intro H. apply filter_In in H as [M N].
  apply negb_true_iff in N.
  apply in_map_iff in M as (raw & <- & _).
  split; [apply strip_idem|]. split; [exact N|].
  intro E. rewrite E in N. discriminate N.
Qed.

(** X9: every haiku the detector returns carries the title and the artist it
    was given and exactly three lines, each of them trimmed, not empty and
    not a noise line. *)
Theorem detected_haiku_shape (unidecode : str -> str)
  (title0 artist0 lyrics : str) (hs : list Haiku) (h : Haiku) :
  find_haikus_in_lyrics unidecode title0 artist0 lyrics = Ok hs ->
  In h hs ->
  title h = title0 /\ artist h = artist0 /\ length (lines h) = 3
  /\ Forall (fun ln => strip ln = ln /\ is_noise_line ln = false /\ ln <> [])
       (lines h).
Proof.
  rewrite find_haikus_refines. intros [= <-] I.
  apply in_map_iff in I as (i & <- & I). cbn [title artist lines].
  unfold matching_indices in I. apply filter_In in I as [I _].
  apply in_seq in I. repeat split.
  unfold window. repeat constructor;
    apply (content_line_facts lyrics); apply nth_In; lia.
Qed.

Lemma detected_haiku_shape_witness :
  find_haikus_in_lyrics unidecode_ascii (lit "Pond") (lit "Basho") demo_lyrics
  = Ok [demo_first; demo_second]
  /\ In demo_first [demo_first; demo_second]
  /\ title demo_first = lit "Pond" /\ artist demo_first = lit "Basho"
  /\ length (lines demo_first) = 3
  /\ Forall (fun ln => strip ln = ln /\ is_noise_line ln = false /\ ln <> [])
       (lines demo_first).
Proof.
  assert (R : find_haikus_in_lyrics unidecode_ascii (lit "Pond")
                (lit "Basho") demo_lyrics = Ok [demo_first; demo_second])
    by (vm_compute; reflexivity).
  assert (I : In demo_first [demo_first; demo_second])
    by (left; reflexivity).
  exact (conj R (conj I
           (detected_haiku_shape unidecode_ascii _ _ _ _ _ R I))).
Defined.

Lemma windows_not_both (unidecode : str -> str) (c : list str) (i : nat) :
  is_575 unidecode (window c i) && is_575 unidecode (window c (S i)) = false.
Proof.
  destruct (is_575 unidecode (window c i)) eqn:A; [|reflexivity].
  destruct (is_575 unidecode (window c (S i))) eqn:B; [|reflexivity].
  apply is_575_iff in A. apply is_575_iff in B.
  unfold window in A, B. cbn [map] in A, B.
  injection A as _ A _. injection B as B _ _.
  replace (i + 1) with (S i) in A by lia. congruence.
Qed.

(** X10: two consecutive windows never both match, since the middle line of
    the first would have to count 7 and 5 at once; the indices at which the
    detector emits a haiku are therefore at least 2 apart, and two haiku of
    one lyric overlap in at most one line position. *)
Theorem matching_windows_two_apart (unidecode : str -> str) (c : list str) :
  (forall i,
     is_575 unidecode (window c i) && is_575 unidecode (window c (S i))
     = false)
  /\ StronglySorted (fun i j => i + 2 <= j) (matching_indices unidecode c).
Proof.
  split; [apply windows_not_both|].
  assert (G : forall l, StronglySorted lt l ->
              StronglySorted (fun i j => i + 2 <= j)
                (filter (fun i => is_575 unidecode (window c i)) l)).
  { induction 1 as [|x l Hs IH F]; cbn [filter]; [constructor|].
    destruct (is_575 unidecode (window c x)) eqn:X; [|exact IH].
    constructor; [exact IH|].
    rewrite Forall_forall in *. intros y Y. apply filter_In in Y as [Y Q].
    specialize (F y Y).
    destruct (Nat.eq_dec y (S x)) as [->|]; [|lia].
    pose proof (windows_not_both unidecode c x) as W.
    rewrite X, Q in W. discriminate W. }
  apply G, StronglySorted_seq.
Qed.

(** ** More on the signature *)

Lemma be_bytes_length (n : nat) (x : N) : length (Sha256.be_bytes n x) = n.
Proof.
  revert x; induction n as [|n IH]; intro x; cbn [Sha256.be_bytes];
    [reflexivity|].
  rewrite length_app, IH. cbn [length]. lia.
Qed.

Lemma be_bytes_range (n : nat) (x : N) :
  Forall (fun b => (b < 256)%N) (Sha256.be_bytes n x).
Proof.
  revert x; induction n as [|n IH]; intro x; cbn [Sha256.be_bytes];
    [constructor|].
  apply Forall_app. split; [apply IH|].
  constructor; [|constructor]. apply N.mod_lt. discriminate.
Qed.

Lemma digest_shape (msg : list N) :
  length (Sha256.digest msg) = 32
  /\ Forall (fun b => (b < 256)%N) (Sha256.digest msg).
Proof.
  unfold Sha256.digest. cbv zeta.
  destruct (fold_left Sha256.compress _ _) as [[[[[[[a b] c] d] e] f] g] h].
  split.
  - cbn [flat_map]. now rewrite !length_app, !be_bytes_length.
  - apply Forall_flat_map, Forall_forall. intros x _. apply be_bytes_range.
Qed.

Lemma hex_digit_range (d : N) :
  (d < 16)%N -> is_lower_hex (Sha256.hex_digit d) = true.
Proof.
  intro H. unfold Sha256.hex_digit, is_lower_hex.
  destruct (N.ltb_spec d 10).
  - replace (48 <=? 48 + d)%N with true by (symmetry; apply N.leb_le; lia).
    replace (48 + d <=? 57)%N with true by (symmetry; apply N.leb_le; lia).
    reflexivity.
  - replace (97 <=? 87 + d)%N with true by (symmetry; apply N.leb_le; lia).
    replace (87 + d <=? 102)%N with true by (symmetry; apply N.leb_le; lia).
    apply orb_true_r.
Qed.

Lemma hexdigest_shape (msg : list N) :
  length (Sha256.hexdigest msg) = 64
  /\ forallb is_lower_hex (Sha256.hexdigest msg) = true.
Proof.
  unfold Sha256.hexdigest. destruct (digest_shape msg) as [L R].
  revert L R. generalize (Sha256.digest msg) as bs. intros bs L R. split.
  - assert (G : forall l : list N,
              length (flat_map (fun b => [Sha256.hex_digit (b / 16);
                                          Sha256.hex_digit (b mod 16)]%N) l)
              = 2 * length l).
    { induction l as [|b l IH]; [reflexivity|].
      cbn [flat_map length app]. rewrite IH. lia. }
    rewrite G, L. reflexivity.
  - clear L. induction R as [|b bs B R IH]; [reflexivity|].
    cbn [flat_map app forallb]. rewrite IH.
    rewrite !hex_digit_range; [reflexivity| |].
    + apply N.mod_lt. discriminate.
    + apply N.Div0.div_lt_upper_bound. exact B.
Qed.

Lemma encode_char_raises (c : char) (e : exn) :
  encode_char c = Raise e -> e = UnicodeEncodeError.
Proof.
  unfold encode_char.
  repeat match goal with
         | |- context [if ?b then _ else _] => destruct b
         end; intro H; now inversion H.
Qed.

Lemma encode_raises (s : str) (e : exn) :
  encode s = Raise e -> e = UnicodeEncodeError.
Proof.
  induction s as [|c s IH]; cbn [encode]; [discriminate|].
  destruct (encode_char c) eqn:C; cbn [bind].
  - destruct (encode s); cbn [bind]; [discriminate|].
    intros [= <-]. now apply IH.
  - intros [= <-]. now apply encode_char_raises in C.
Qed.

Lemma signature_raises (h : Haiku) (e : exn) :
  signature h = Raise e -> e = UnicodeEncodeError.
Proof.
  unfold signature.
  destruct (encode (lower (strip (title h)))) eqn:T; cbn [bind];
    [|intros [= <-]; now apply encode_raises in T].
  destruct (encode (lower (strip (artist h)))) eqn:A; cbn [bind];
    [|intros [= <-]; now apply encode_raises in A].
  destruct (encode (lower (strip (text h)))) eqn:X; cbn [bind];
    [discriminate|intros [= <-]; now apply encode_raises in X].
Qed.

(** X11: the signature is a string of 64 lowercase hexadecimal digits, and
    the only exception it can raise is [UnicodeEncodeError]. *)
Theorem signature_shape (h : Haiku) :
  match signature h with
  | Ok s => length s = 64 /\ forallb is_lower_hex s = true
  | Raise e => e = UnicodeEncodeError
  end.
Proof.
  unfold signature.
  destruct (encode (lower (strip (title h)))) eqn:T; cbn [bind];
    [|now apply encode_raises in T].
  destruct (encode (lower (strip (artist h)))) eqn:A; cbn [bind];
    [|now apply encode_raises in A].
  destruct (encode (lower (strip (text h)))) eqn:X; cbn [bind];
    [|now apply encode_raises in X].
  apply hexdigest_shape.
Qed.

Lemma in_lstrip (s : str) (c : char) : In c (lstrip s) -> In c s.
Proof.
  induction s as [|d s IH]; cbn [lstrip]; [tauto|].
  destruct (isspace d); [|tauto]. intro H. right. now apply IH.
Qed.

Lemma in_strip (s : str) (c : char) : In c (strip s) -> In c s.
Proof.
  unfold strip, rstrip. intro H. apply in_rev, in_lstrip in H.
  apply in_rev in H. now apply in_lstrip.
Qed.

Lemma in_lstrip_keeps (s : str) (c : char) :
  In c s -> isspace c = false -> In c (lstrip s).
Proof.
  intros I C. induction s as [|d s IH]; [destruct I|].
  cbn [lstrip]. destruct (isspace d) eqn:D; [|exact I].
  destruct I as [->|I]; [congruence|]. now apply IH.
Qed.

Lemma in_strip_keeps (s : str) (c : char) :
  In c s -> isspace c = false -> In c (strip s).
Proof.
  intros I C. unfold strip, rstrip. apply in_rev.
  rewrite rev_involutive. apply in_lstrip_keeps; [|exact C].
  apply in_rev. rewrite rev_involutive. now apply in_lstrip_keeps.
Qed.

Lemma in_join (sep : str) (ls : list str) (l : str) (c : char) :
  In l ls -> In c l -> In c (join sep ls).
Proof.
  intros L C. induction ls as [|p ls IH]; [destruct L|].
  destruct ls as [|q ls].
  - destruct L as [->|[]]. exact C.
  - change (join sep (p :: q :: ls)) with (p ++ sep ++ join sep (q :: ls)).
    rewrite !in_app_iff. destruct L as [->|L]; [now left|].
    right. right. now apply IH.
Qed.

Lemma below_surrogates_lower (s : str) :
  below_surrogates s = true -> below_surrogates (lower s) = true.
Proof. apply lower_from_below. Qed.

Lemma below_surrogates_strip (s : str) :
  below_surrogates s = true -> below_surrogates (strip s) = true.
Proof.
  unfold below_surrogates. rewrite !forallb_forall.
  intros H c I. apply H. now apply in_strip.
Qed.

Lemma encode_below_surrogates (s : str) :
  below_surrogates s = true -> exists bs, encode s = Ok bs.
Proof.
  unfold below_surrogates. induction s as [|c s IH]; cbn [forallb encode].
  - eauto.
  - intro H. apply andb_true_iff in H as [C S].
    destruct (IH S) as (bs & ->). apply N.ltb_lt in C.
    unfold encode_char.
    destruct (N.ltb_spec c 128); [cbn [bind]; eauto|].
    destruct (N.ltb_spec c 2048); [cbn [bind]; eauto|].
    destruct (N.ltb_spec c 65536); [|lia].
    destruct (N.leb_spec 55296 c); [lia|]. cbn [andb bind]. eauto.
Qed.

Lemma encode_surrogate (s : str) (c : char) :
  In c s -> is_surrogate c = true -> encode s = Raise UnicodeEncodeError.
Proof.
  intros I C.
  destruct (encode s) as [bs|e] eqn:E; [|now rewrite (encode_raises s e E)].
  exfalso. revert bs E. induction s as [|d s IH]; [destruct I|].
  cbn [encode]. intros bs.
  destruct (encode_char d) as [x|] eqn:D; cbn [bind]; [|discriminate].
  destruct (encode s) as [y|] eqn:Y; cbn [bind]; [|discriminate].
  intros _. destruct I as [->|I]; [|now apply (IH I y)].
  unfold is_surrogate in C. apply andb_true_iff in C as [L U].
  apply N.leb_le in L. apply N.leb_le in U. unfold encode_char in D.
  destruct (N.ltb_spec c 128); [lia|].
  destruct (N.ltb_spec c 2048); [lia|].
  destruct (N.ltb_spec c 65536); [|lia].
  destruct (N.leb_spec 55296 c); [|lia].
  destruct (N.leb_spec c 57343); [|lia]. discriminate D.
Qed.

Lemma surrogate_survives (s : str) (c : char) :
  In c s -> is_surrogate c = true -> In c (lower (strip s)).
Proof.
  intros I C. unfold is_surrogate in C. apply andb_true_iff in C as [L U].
  apply N.leb_le in L. apply N.leb_le in U.
  assert (Sp : isspace c = false).
  { unfold isspace.
    repeat match goal with
           | |- context [(c <=? ?b)%N] =>
               replace (c <=? b)%N with false
                 by (symmetry; apply N.leb_gt; lia)
           | |- context [(c =? ?b)%N] =>
               replace (c =? b)%N with false
                 by (symmetry; apply N.eqb_neq; lia)
           end.
    now rewrite !andb_false_r. }
  apply lower_from_surrogate; [now apply in_strip_keeps|].
  unfold is_surrogate. apply andb_true_iff.
  split; apply N.leb_le; assumption.
Qed.

(** X12: the signature is computed whenever the title, the artist and the
    lines hold only code points below U+D800, and it raises
    [UnicodeEncodeError] whenever the title, the artist or a line holds a
    surrogate code point. *)
Theorem signature_succeeds_or_raises :
  (forall h,
     below_surrogates (title h) = true ->
     below_surrogates (artist h) = true ->
     Forall (fun l => below_surrogates l = true) (lines h) ->
     exists s, signature h = Ok s)
  /\ (forall h c,
        is_surrogate c = true ->
        In c (title h) \/ In c (artist h)
        \/ (exists l, In l (lines h) /\ In c l) ->
        signature h = Raise UnicodeEncodeError).
Proof.
  split.
  - intros h T A L.
    assert (X : below_surrogates (text h) = true).
    { unfold text, below_surrogates. apply forallb_join; [reflexivity|exact L]. }
    unfold signature.
    destruct (encode_below_surrogates _
                (below_surrogates_lower _ (below_surrogates_strip _ T)))
      as (t & ->).
    destruct (encode_below_surrogates _
                (below_surrogates_lower _ (below_surrogates_strip _ A)))
      as (a & ->).
    destruct (encode_below_surrogates _
                (below_surrogates_lower _ (below_surrogates_strip _ X)))
      as (x & ->).
    cbn [bind]. eauto.
  - intros h c C I.
    destruct (signature h) as [s|e] eqn:E;
      [|now rewrite (signature_raises h e E)].
    exfalso. unfold signature in E.
    destruct (encode (lower (strip (title h)))) eqn:T; cbn [bind] in E;
      [|discriminate].
    destruct (encode (lower (strip (artist h)))) eqn:A; cbn [bind] in E;
      [|discriminate].
    destruct (encode (lower (strip (text h)))) eqn:X; cbn [bind] in E;
      [|discriminate].
    destruct I as [I|[I|(l & L & I)]].
    + rewrite (encode_surrogate _ c (surrogate_survives _ c I C) C) in T.
      discriminate T.
    + rewrite (encode_surrogate _ c (surrogate_survives _ c I C) C) in A.
      discriminate A.
    + assert (J : In c (text h)) by (unfold text; now apply (in_join _ _ l)).
      rewrite (encode_surrogate _ c (surrogate_survives _ c J C) C) in X.
      discriminate X.
Qed.

Lemma strip_no_space (s : str) : no_space s = true -> strip s = s.
Proof.
  unfold no_space. intro H.
  assert (L : forall t, forallb (fun c => negb (isspace c)) t = true ->
              lstrip t = t).
  { intros [|c t]; [reflexivity|]. cbn [forallb lstrip]. intro G.
    apply andb_true_iff in G as [G _]. apply negb_true_iff in G.
    now rewrite G. }
  unfold strip, rstrip. rewrite (L s H), L, rev_involutive; [reflexivity|].
  now rewrite forallb_rev.
Qed.

Lemma lower_app (a b : str) :
  no_capital_sigma (a ++ b) = true -> lower (a ++ b) = lower a ++ lower b.
Proof.
  unfold no_capital_sigma, lower. intro H. pose proof H as G.
  rewrite forallb_app in G. apply andb_true_iff in G as [A B].
  rewrite !lower_from_no_sigma by assumption. apply flat_map_app.
Qed.

Lemma encode_app (a b : str) :
  encode (a ++ b) = (x <- encode a ;; y <- encode b ;; Ok (x ++ y)).
Proof.
  induction a as [|c a IH]; cbn [app encode bind].
  - now destruct (encode b).
  - rewrite IH. destruct (encode_char c); cbn [bind]; [|reflexivity].
    destruct (encode a); cbn [bind]; [|reflexivity].
    destruct (encode b); cbn [bind]; [|reflexivity].
    now rewrite app_assoc.
Qed.

(** X13: the signature does not delimit its parts: text moved from the end of
    the title to the start of the artist gives the same signature, so two
    different haiku records can share the dedup key.  Stated for parts
    without whitespace and without a capital sigma, the one letter whose
    lowercase depends on its neighbours. *)
Theorem signature_joins_title_and_artist (t u a : str) (ls : list str)
  (s s' : list Z) :
  no_space t = true -> no_space u = true -> no_space a = true ->
  no_capital_sigma (t ++ u ++ a) = true ->
  signature (mkHaiku (t ++ u) a ls s) = signature (mkHaiku t (u ++ a) ls s').
Proof.
  intros T U A G.
  assert (TU : no_space (t ++ u) = true)
    by (unfold no_space in *; now rewrite forallb_app, T, U).
  assert (UA : no_space (u ++ a) = true)
    by (unfold no_space in *; now rewrite forallb_app, U, A).
  assert (GTU : no_capital_sigma (t ++ u) = true /\
                no_capital_sigma (u ++ a) = true).
  { unfold no_capital_sigma in *. rewrite !forallb_app in *.
    apply andb_true_iff in G as [G1 G]. apply andb_true_iff in G as [G2 G3].
    now rewrite G1, G2, G3. }
  destruct GTU as [G1 G2].
  unfold signature, text. cbn [title artist lines].
  rewrite (strip_no_space _ T), (strip_no_space _ A),
    (strip_no_space _ TU), (strip_no_space _ UA).
  rewrite (lower_app t u G1), (lower_app u a G2), !encode_app.
  destruct (encode (lower t)) as [x|e1] eqn:E1; cbn [bind];
    destruct (encode (lower u)) as [y|e2] eqn:E2; cbn [bind];
    destruct (encode (lower a)) as [z|e3] eqn:E3; cbn [bind];
    destruct (encode (lower (strip (join [newline] ls)))) as [w|e4] eqn:E4;
    cbn [bind];
    repeat match goal with
           | H : encode _ = Raise _ |- _ => apply encode_raises in H; subst
           end; try reflexivity.
  now rewrite <- !app_assoc.
Qed.

Lemma signature_joins_title_and_artist_witness :
  signature (mkHaiku (lit "Ab" ++ lit "ba") (lit "Live")
               [lit "one"; lit "two"; lit "three"] [5; 7; 5]%Z)
  = signature (mkHaiku (lit "Ab") (lit "ba" ++ lit "Live")
                 [lit "one"; lit "two"; lit "three"] [5; 7; 5]%Z).
Proof.
  exact (signature_joins_title_and_artist (lit "Ab") (lit "ba") (lit "Live")
           _ _ _ eq_refl eq_refl eq_refl eq_refl).
Defined.

(** With a capital sigma the parts do show: at the end of the title it
    becomes the final sigma U+03C2, in front of the artist the plain
    U+03C3, and the two records get different signatures. *)
Example capital_sigma_shows_the_parts :
  lower [927; 916; 927; 931]%N = [959; 948; 959; 962]%N
  /\ lower (931%N :: lit "X") = 963%N :: lit "x"
  /\ str_eqb_result
       (signature (mkHaiku [927; 916; 927; 931]%N (lit "X")
                     [lit "one"; lit "two"; lit "three"] [5; 7; 5]%Z))
       (signature (mkHaiku [927; 916; 927]%N (931%N :: lit "X")
                     [lit "one"; lit "two"; lit "three"] [5; 7; 5]%Z))
     = false.
Proof. repeat split; vm_compute; reflexivity. Qed.

(** ** More on the tweet text *)

(** X14: the tweet always starts with the trimmed haiku text, which is cut
    only when it is longer than 280 characters: the result is the first 280
    characters of the body followed by an attribution or by nothing. *)
Theorem compose_starts_with_body (h : Haiku) (include_attribution : bool) :
  exists suffix,
    compose_tweet_text h include_attribution
    = firstn 280 (strip (text h)) ++ suffix
    /\ (suffix = [] \/ suffix = attribution_full h
        \/ suffix = attribution_title h).
Proof.
  rewrite compose_unfold.
  assert (F : forall x, (len (strip (text h) ++ x) <= 280)%Z ->
              firstn 280 (strip (text h)) = strip (text h)).
  { intros x L. apply firstn_all2. rewrite len_app in L.
    pose proof (len_nonneg x). unfold len in *. lia. }
  destruct (include_attribution
            && (len (strip (text h) ++ attribution_full h) <=? 280)%Z) eqn:A.
  - apply andb_true_iff in A as [_ A]. apply Z.leb_le in A.
    exists (attribution_full h). rewrite (F _ A). tauto.
  - destruct (include_attribution
              && (len (strip (text h) ++ attribution_title h) <=? 280)%Z)
      eqn:B.
    + apply andb_true_iff in B as [_ B]. apply Z.leb_le in B.
      exists (attribution_title h). rewrite (F _ B). tauto.
    + exists []. rewrite app_nil_r. tauto.
Qed.

(** ** The store *)

Lemma has_sig_iff (s : str) (rows : list Row) :
  has_sig s rows = true <-> In s (map row_sig rows).
Proof.
  unfold has_sig. rewrite existsb_exists, in_map_iff. split.
  - intros (r & I & E). apply str_eqb_eq in E. eauto.
  - intros (r & E & I). exists r. split; [exact I|]. now apply str_eqb_eq.
Qed.

Lemma has_sig_app (s : str) (a b : list Row) :
  has_sig s (a ++ b) = has_sig s a || has_sig s b.
Proof. apply existsb_app. Qed.

Lemma str_eqb_refl (s : str) : str_eqb s s = true.
Proof. now apply str_eqb_eq. Qed.

Lemma NoDup_snoc {A : Type} (l : list A) (x : A) :
  NoDup l -> ~ In x l -> NoDup (l ++ [x]).
Proof.
  intros N I. apply NoDup_rev in N. rewrite <- (rev_involutive (l ++ [x])).
  apply NoDup_rev. rewrite rev_app_distr. cbn [rev app].
  constructor; [|exact N]. now rewrite <- in_rev.
Qed.

(** The three ways [cache_haiku] ends on an existing table. *)
Lemma cache_haiku_cases (h : Haiku) (rows : list Row) :
  (exists f, cache_haiku h (Some rows) = (Failed f, Some rows))
  \/ (exists row, insert_parameters h = Ok row
                  /\ has_sig (row_sig row) rows = true
                  /\ cache_haiku h (Some rows) = (Done tt, Some rows))
  \/ (exists row, insert_parameters h = Ok row
                  /\ has_sig (row_sig row) rows = false
                  /\ cache_haiku h (Some rows)
                     = (Done tt, Some (rows ++ [row]))).
Proof.
  unfold cache_haiku. destruct (insert_parameters h) as [row|e]; [|eauto].
  destruct (negb _); [eauto|].
  destruct (has_sig (row_sig row) rows) eqn:S.
  - right. left. eauto.
  - right. right. eauto.
Qed.

Lemma cache_haiku_again (h : Haiku) (rows : list Row) (row : Row) :
  insert_parameters h = Ok row ->
  cache_haiku h (Some rows) = (Done tt, Some (rows ++ [row])) ->
  cache_haiku h (Some (rows ++ [row])) = (Done tt, Some (rows ++ [row])).
Proof.
  unfold cache_haiku. intros ->.
  destruct (negb _); [discriminate|]. intros _.
  rewrite has_sig_app. cbn [has_sig existsb].
  now rewrite str_eqb_refl, orb_true_r.
Qed.

(** X15: [cache_haiku] on an existing table only ever appends: it keeps
    every row in place and adds at most one; it keeps the stored signatures
    distinct; and calling it again with the same haiku returns the same
    outcome and changes nothing. *)
Theorem cache_haiku_insert_or_ignore (h : Haiku) (rows : list Row) :
  exists added,
    snd (cache_haiku h (Some rows)) = Some (rows ++ added)
    /\ length added <= 1
    /\ (NoDup (map row_sig rows) -> NoDup (map row_sig (rows ++ added)))
    /\ cache_haiku h (Some (rows ++ added))
       = (fst (cache_haiku h (Some rows)), Some (rows ++ added)).
Proof.
  destruct (cache_haiku_cases h rows)
    as [(f & E)|[(row & P & S & E)|(row & P & S & E)]].
  - exists []. rewrite app_nil_r, E. cbn. auto.
  - exists []. rewrite app_nil_r, E. cbn. auto.
  - exists [row]. rewrite E. cbn [fst snd length]. repeat split; [lia| |].
    + intro N. rewrite map_app. cbn [map]. apply NoDup_snoc; [exact N|].
      intro I. apply has_sig_iff in I. congruence.
    + now apply cache_haiku_again.
Qed.

Lemma filter_none {A : Type} (f : A -> bool) (l : list A) :
  forallb (fun x => negb (f x)) l = true -> filter f l = [].
Proof.
  induction l as [|x l IH]; [reflexivity|]. cbn [forallb filter].
  intro H. apply andb_true_iff in H as [X L]. apply negb_true_iff in X.
  rewrite X. now apply IH.
Qed.

(** X16: a haiku of three lines and three syllable counts (within SQLite's
    integers) whose signature is new, cached in a table that holds no unused
    row, is the haiku that [load_one_unused_haiku] returns, field by field,
    whatever the random choice. *)
Theorem cache_then_load (t a l1 l2 l3 s : str) (s1 s2 s3 : Z)
  (rows : list Row) (draw : nat) :
  signature (mkHaiku t a [l1; l2; l3] [s1; s2; s3]) = Ok s ->
  fits_int64 s1 && fits_int64 s2 && fits_int64 s3 = true ->
  has_sig s rows = false ->
  forallb (fun r => negb (is_unused r)) rows = true ->
  (_ <~ cache_haiku (mkHaiku t a [l1; l2; l3] [s1; s2; s3]) ;;
   load_one_unused_haiku draw) (Some rows)
  = (Done (Some (mkHaiku t a [l1; l2; l3] [s1; s2; s3])),
     Some (rows ++ [mkRow s t a l1 l2 l3 s1 s2 s3 None])).
Proof.
  intros S F N U. unfold act_bind, cache_haiku, insert_parameters.
  rewrite S. cbn [bind tuple_get nth_error lines syllables title artist].
  cbn [row_s1 row_s2 row_s3 row_sig]. rewrite F, N. cbn [negb].
  unfold load_one_unused_haiku. cbv zeta.
  rewrite filter_app, (filter_none _ _ U). cbn [filter is_unused app].
  cbn [row_tweeted_at length]. rewrite Nat.mod_1_r. reflexivity.
Qed.

Lemma cache_then_load_witness :
  (_ <~ cache_haiku demo_first ;; load_one_unused_haiku 7) (Some [])
  = (Done (Some demo_first),
     Some ([] ++ [mkRow (match signature demo_first with
                         | Ok s => s
                         | Raise _ => []
                         end)
                    (lit "Pond") (lit "Basho") (lit "An old silent pond")
                    (lit "A frog jumps into the pond")
                    (lit "Splash silence again") 5 7 5 None])).
Proof.
  exact (cache_then_load (lit "Pond") (lit "Basho")
           (lit "An old silent pond") (lit "A frog jumps into the pond")
           (lit "Splash silence again") _ 5 7 5 [] 7
           ltac:(vm_compute; reflexivity) eq_refl eq_refl eq_refl).
Defined.

Lemma load_some (rows : list Row) (draw : nat) (h : Haiku) :
  fst (load_one_unused_haiku draw (Some rows)) = Done (Some h) ->
  exists r, In r rows /\ is_unused r = true /\ haiku_of_row r = h.
Proof.
  unfold load_one_unused_haiku. cbv zeta. cbn [fst].
  destruct (nth_error _ _) as [r|] eqn:E; cbn [option_map]; [|discriminate].
  intros [= <-]. apply nth_error_In, filter_In in E. exists r. tauto.
Qed.

Lemma haiku_of_row_set_tweeted (now : str) (r : Row) :
  haiku_of_row (set_tweeted now r) = haiku_of_row r.
Proof. reflexivity. Qed.

Lemma mark_row_absent (now s : str) (rows : list Row) :
  ~ In s (map row_sig rows) -> map (mark_row now s) rows = rows.
Proof.
  induction rows as [|x rows IH]; [reflexivity|]. cbn [map In].
  intro H. rewrite IH by tauto. f_equal. unfold mark_row.
  destruct (str_eqb (row_sig x) s) eqn:E; [|reflexivity].
  apply str_eqb_eq in E. tauto.
Qed.

Lemma mark_row_unused_count (now : str) (rows : list Row) (r : Row) :
  NoDup (map row_sig rows) -> In r rows -> is_unused r = true ->
  length (filter is_unused (map (mark_row now (row_sig r)) rows)) + 1
  = length (filter is_unused rows).
Proof.
  intros N I U. induction rows as [|x rows IH]; [destruct I|].
  cbn [map] in N. apply NoDup_cons_iff in N as [X N'].
  cbn [map filter]. destruct (str_eqb (row_sig x) (row_sig r)) eqn:E.
  - pose proof E as E'. apply str_eqb_eq in E'.
    assert (Q : x = r).
    { destruct I as [I|I]; [exact I|]. exfalso. apply X. rewrite E'.
      now apply in_map. }
    rewrite Q in *. rewrite mark_row_absent by exact X. unfold mark_row.
    rewrite E, U. cbn [is_unused set_tweeted row_tweeted_at length]. lia.
  - assert (M : mark_row now (row_sig r) x = x)
      by (unfold mark_row; now rewrite E).
    rewrite M. destruct I as [Q|I].
    + rewrite Q, str_eqb_refl in E. discriminate E.
    + specialize (IH N' I). destruct (is_unused x); cbn [length]; lia.
Qed.

(** X17: in a table whose signatures are distinct and match their rows,
    marking the haiku that was just loaded uses it up: exactly one unused
    row fewer, no row added or removed, and no later load returns that haiku
    again. *)
Theorem marked_haiku_is_used_up (rows : list Row) (draw : nat) (now : str)
  (h : Haiku) :
  well_formed rows ->
  fst (load_one_unused_haiku draw (Some rows)) = Done (Some h) ->
  exists rows',
    mark_tweeted now h (Some rows) = (Done tt, Some rows')
    /\ length rows' = length rows
    /\ length (filter is_unused rows') + 1 = length (filter is_unused rows)
    /\ forall draw' h',
         fst (load_one_unused_haiku draw' (Some rows')) = Done (Some h') ->
         h' <> h.
Proof.
  intros [N W] L. apply load_some in L as (r & I & U & <-).
  rewrite Forall_forall in W. pose proof (W r I) as Wr.
  unfold well_signed in Wr. unfold mark_tweeted. rewrite Wr.
  eexists. split; [reflexivity|]. split; [apply length_map|].
  split; [now apply mark_row_unused_count|].
  intros draw' h' L' ->. apply load_some in L' as (r2 & I2 & U2 & E2).
  apply in_map_iff in I2 as (r0 & <- & I0). unfold mark_row in U2, E2.
  destruct (str_eqb (row_sig r0) (row_sig r)) eqn:E.
  - discriminate U2.
  - pose proof (W r0 I0) as W0. unfold well_signed in W0.
    rewrite E2, Wr in W0. injection W0 as W0.
    rewrite W0, str_eqb_refl in E. discriminate E.
Qed.

Lemma marked_haiku_is_used_up_witness :
  well_formed [demo_row]
  /\ fst (load_one_unused_haiku 3 (Some [demo_row])) = Done (Some demo_first)
  /\ exists rows',
       mark_tweeted (lit "2026-01-01T00:00:00+00:00") demo_first
         (Some [demo_row]) = (Done tt, Some rows')
       /\ length rows' = length [demo_row]
       /\ length (filter is_unused rows') + 1
          = length (filter is_unused [demo_row])
       /\ forall draw' h',
            fst (load_one_unused_haiku draw' (Some rows')) = Done (Some h') ->
            h' <> demo_first.
Proof.
  assert (W : well_formed [demo_row]).
  { split.
    - apply NoDup_cons; [intros []|apply NoDup_nil].
    - apply Forall_cons; [|apply Forall_nil].
      unfold well_signed. vm_compute. reflexivity. }
  assert (L : fst (load_one_unused_haiku 3 (Some [demo_row]))
              = Done (Some demo_first)) by reflexivity.
  exact (conj W (conj L
           (marked_haiku_is_used_up [demo_row] 3
              (lit "2026-01-01T00:00:00+00:00") demo_first W L))).
Defined.

Lemma signature_ext (h1 h2 : Haiku) :
  title h1 = title h2 -> artist h1 = artist h2 -> lines h1 = lines h2 ->
  signature h1 = signature h2.
Proof. unfold signature, text. now intros -> -> ->. Qed.

Lemma tuple_get_ok {A : Type} (t : list A) (i : nat) (x : A) :
  tuple_get t i = Ok x -> nth_error t i = Some x.
Proof.
  unfold tuple_get. destruct (nth_error t i); [now intros [= ->]|discriminate].
Qed.

(** What [insert_parameters] puts in the row. *)
Lemma insert_parameters_ok (h : Haiku) (row : Row) :
  insert_parameters h = Ok row ->
  signature h = Ok (row_sig row)
  /\ row_title row = title h /\ row_artist row = artist h
  /\ nth_error (lines h) 0 = Some (row_line1 row)
  /\ nth_error (lines h) 1 = Some (row_line2 row)
  /\ nth_error (lines h) 2 = Some (row_line3 row)
  /\ nth_error (syllables h) 0 = Some (row_s1 row)
  /\ nth_error (syllables h) 1 = Some (row_s2 row)
  /\ nth_error (syllables h) 2 = Some (row_s3 row)
  /\ row_tweeted_at row = None.
Proof.
  unfold insert_parameters.
  destruct (signature h) as [s|]; cbn [bind]; [|discriminate].
  destruct (tuple_get (lines h) 0) as [l1|] eqn:L1; cbn [bind]; [|discriminate].
  destruct (tuple_get (lines h) 1) as [l2|] eqn:L2; cbn [bind]; [|discriminate].
  destruct (tuple_get (lines h) 2) as [l3|] eqn:L3; cbn [bind]; [|discriminate].
  destruct (tuple_get (syllables h) 0) as [s1|] eqn:S1; cbn [bind];
    [|discriminate].
  destruct (tuple_get (syllables h) 1) as [s2|] eqn:S2; cbn [bind];
    [|discriminate].
  destruct (tuple_get (syllables h) 2) as [s3|] eqn:S3; cbn [bind];
    [|discriminate].
  intros [= <-].
  cbn [row_sig row_title row_artist row_line1 row_line2 row_line3
       row_s1 row_s2 row_s3 row_tweeted_at].
  repeat split; trivial; now apply tuple_get_ok.
Qed.

Lemma insert_parameters_well_signed (h : Haiku) (row : Row) :
  length (lines h) = 3 -> insert_parameters h = Ok row -> well_signed row.
Proof.
  intros L P.
  apply insert_parameters_ok in P as (S & T & A & L1 & L2 & L3 & _).
  unfold well_signed. rewrite <- S. apply signature_ext; cbn; trivial.
  destruct (lines h) as [|a [|b [|c [|d l]]]]; try discriminate L.
  cbn in L1, L2, L3. congruence.
Qed.

Lemma cache_keeps_well_formed (h : Haiku) (rows rows' : list Row) :
  well_formed rows -> length (lines h) = 3 ->
  snd (cache_haiku h (Some rows)) = Some rows' -> well_formed rows'.
Proof.
  intros [N W] L E.
  destruct (cache_haiku_cases h rows)
    as [(f & C)|[(row & P & S & C)|(row & P & S & C)]];
    rewrite C in E; cbn [snd] in E; injection E as <-;
    try (split; assumption).
  split.
  - rewrite map_app. apply NoDup_snoc; [exact N|].
    intro I. apply has_sig_iff in I. congruence.
  - apply Forall_app. split; [exact W|].
    constructor; [|constructor].
    now apply (insert_parameters_well_signed h).
Qed.

Lemma mark_keeps_well_formed (now : str) (h : Haiku) (rows rows' : list Row) :
  well_formed rows ->
  snd (mark_tweeted now h (Some rows)) = Some rows' -> well_formed rows'.
Proof.
  intros [N W] E. unfold mark_tweeted in E.
  destruct (signature h) as [s|]; cbn [snd] in E; injection E as <-;
    [|split; assumption].
  split.
  - rewrite map_map.
    replace (map (fun r => row_sig (mark_row now s r)) rows)
      with (map row_sig rows); [exact N|].
    apply map_ext. intro r. unfold mark_row.
    now destruct (str_eqb (row_sig r) s).
  - rewrite Forall_forall in *. intros r I.
    apply in_map_iff in I as (r0 & <- & I). specialize (W r0 I).
    unfold mark_row. now destruct (str_eqb (row_sig r0) s).
Qed.

(** X18: the two writers keep the table well formed (signatures distinct,
    each equal to the signature of the haiku read back from its row):
    [cache_haiku] for a haiku of exactly three lines, [mark_tweeted] for any
    haiku. *)
Theorem writers_keep_well_formed :
  (forall h rows rows',
     well_formed rows -> length (lines h) = 3 ->
     snd (cache_haiku h (Some rows)) = Some rows' -> well_formed rows')
  /\ (forall now h rows rows',
        well_formed rows ->
        snd (mark_tweeted now h (Some rows)) = Some rows' ->
        well_formed rows').
Proof.
  split.
  - exact cache_keeps_well_formed.
  - exact mark_keeps_well_formed.
Qed.

(** ** Scanning *)

Lemma cached_iff (h : Haiku) (rows : list Row) :
  cached h rows
  <-> exists row, insert_parameters h = Ok row
                  /\ fits_int64 (row_s1 row) && fits_int64 (row_s2 row)
                     && fits_int64 (row_s3 row) = true
                  /\ has_sig (row_sig row) rows = true.
Proof.
  unfold cached, cache_haiku. split.
  - destruct (insert_parameters h) as [row|]; [|discriminate].
    destruct (fits_int64 (row_s1 row) && fits_int64 (row_s2 row)
              && fits_int64 (row_s3 row)) eqn:F; cbn [negb]; [|discriminate].
    destruct (has_sig (row_sig row) rows) eqn:S.
    + intros _. exists row. auto.
    + intros [= E]. apply (f_equal (@length Row)) in E.
      rewrite length_app in E. cbn [length] in E. lia.
  - intros (row & -> & -> & ->). reflexivity.
Qed.

Lemma cached_app (h : Haiku) (rows more : list Row) :
  cached h rows -> cached h (rows ++ more).
Proof.
  rewrite !cached_iff. intros (row & P & F & S). exists row.
  repeat split; trivial. now rewrite has_sig_app, S.
Qed.

Lemma cache_done (h : Haiku) (rows : list Row) (db' : database) :
  cache_haiku h (Some rows) = (Done tt, db') ->
  exists added, db' = Some (rows ++ added) /\ cached h (rows ++ added).
Proof.
  destruct (cache_haiku_cases h rows)
    as [(f & C)|[(row & P & S & C)|(row & P & S & C)]];
    rewrite C; intros [= <-].
  - exists []. now rewrite app_nil_r.
  - exists [row]. split; [reflexivity|]. now apply cache_haiku_again.
Qed.

Lemma len_cons {A : Type} (x : A) (l : list A) : len (x :: l) = (1 + len l)%Z.
Proof. unfold len. cbn [length]. lia. Qed.

(** The inner loop of [scan_csv], when it ends normally. *)
Lemma cache_loop_done (hs : list Haiku) (found n : Z) (rows : list Row)
  (db' : database) :
  act_for_each hs
    (fun h found => _ <~ cache_haiku h ;; act_ret (found + 1)%Z)
    found (Some rows) = (Done n, db') ->
  exists added,
    db' = Some (rows ++ added) /\ n = (found + len hs)%Z
    /\ Forall (fun h => cached h (rows ++ added)) hs.
Proof.
  revert found rows; induction hs as [|h hs IH]; intros found rows;
    cbn [act_for_each].
  - intros [= <- <-]. exists []. rewrite app_nil_r. unfold len. cbn.
    repeat split; [lia|constructor].
  - unfold act_bind at 1. unfold act_bind at 1.
    destruct (cache_haiku h (Some rows)) as [[[]|f] db1] eqn:C;
      [|discriminate].
    apply cache_done in C as (a1 & -> & C1). unfold act_ret.
    intro E. apply IH in E as (a2 & -> & -> & F).
    exists (a1 ++ a2). rewrite app_assoc, len_cons.
    repeat split; [lia|]. constructor; [now apply cached_app|exact F].
Qed.

(** The same loop over haiku that are all in the table. *)
Lemma cache_loop_again (hs : list Haiku) (found : Z) (rows : list Row) :
  Forall (fun h => cached h rows) hs ->
  act_for_each hs
    (fun h found => _ <~ cache_haiku h ;; act_ret (found + 1)%Z)
    found (Some rows) = (Done (found + len hs)%Z, Some rows).
Proof.
  intro F; revert found; induction F as [|h hs C F IH]; intro found;
    cbn [act_for_each].
  - unfold act_ret, len. cbn. now rewrite Z.add_0_r.
  - unfold act_bind at 1. unfold act_bind at 1. unfold cached in C.
    rewrite C. unfold act_ret at 1. rewrite IH, len_cons.
    f_equal. f_equal. lia.
Qed.

Lemma scan_row_detected (unidecode : str -> str) (row : CsvRow) (found : Z)
  (db : database) :
  (hs <~ act_lift
           (find_haikus_in_lyrics unidecode
              (get_or (csv_title row) (lit "Unknown Title"))
              (get_or (csv_artist row) (lit "Unknown Artist"))
              (get_or (csv_lyrics row) (lit ""))) ;;
   act_for_each hs
     (fun h found => _ <~ cache_haiku h ;; act_ret (found + 1)%Z) found) db
  = act_for_each (detected unidecode row)
      (fun h found => _ <~ cache_haiku h ;; act_ret (found + 1)%Z) found db.
Proof.
  unfold detected, act_bind, act_lift.
  now rewrite find_haikus_refines.
Qed.

Lemma forall_cached_app (hs : list Haiku) (rows more : list Row) :
  Forall (fun h => cached h rows) hs ->
  Forall (fun h => cached h (rows ++ more)) hs.
Proof.
  intro F. eapply Forall_impl; [|exact F]. intros h. apply cached_app.
Qed.

Section ScanLoops.

Variable unidecode : str -> str.

Let scan_row (row : CsvRow) (found : Z) : action Z :=
  let title := get_or (csv_title row) (lit "Unknown Title") in
  let artist := get_or (csv_artist row) (lit "Unknown Artist") in
  let lyrics := get_or (csv_lyrics row) (lit "") in
  hs <~ act_lift (find_haikus_in_lyrics unidecode title artist lyrics) ;;
  act_for_each hs
    (fun h found => _ <~ cache_haiku h ;; act_ret (found + 1)%Z) found.

Lemma scan_loop_done (csv : list CsvRow) (found n : Z) (rows : list Row)
  (db' : database) :
  act_for_each csv scan_row found (Some rows) = (Done n, db') ->
  exists added,
    db' = Some (rows ++ added)
    /\ n = (found + len (flat_map (detected unidecode) csv))%Z
    /\ Forall (fun row =>
                 Forall (fun h => cached h (rows ++ added))
                   (detected unidecode row)) csv.
Proof.
  revert found rows; induction csv as [|row csv IH]; intros found rows;
    cbn [act_for_each flat_map].
  - intros [= <- <-]. exists []. rewrite app_nil_r. unfold len. cbn.
    repeat split; [lia|constructor].
  - unfold act_bind at 1. unfold scan_row at 1. cbv zeta.
    rewrite scan_row_detected.
    destruct (act_for_each (detected unidecode row) _ found (Some rows))
      as [[m|f] db1] eqn:C; [|discriminate].
    apply cache_loop_done in C as (a1 & -> & -> & F1).
    intro E. apply IH in E as (a2 & -> & -> & F2).
    exists (a1 ++ a2). rewrite app_assoc, len_app.
    repeat split; [lia|].
    constructor; [now apply forall_cached_app|exact F2].
Qed.

Lemma scan_loop_again (csv : list CsvRow) (found : Z) (rows : list Row) :
  Forall (fun row =>
            Forall (fun h => cached h rows) (detected unidecode row)) csv ->
  act_for_each csv scan_row found (Some rows)
  = (Done (found + len (flat_map (detected unidecode) csv))%Z, Some rows).
Proof.
  intro F; revert found; induction F as [|row csv C F IH]; intro found;
    cbn [act_for_each flat_map].
  - unfold act_ret, len. cbn. now rewrite Z.add_0_r.
  - unfold act_bind at 1. unfold scan_row at 1. cbv zeta.
    rewrite scan_row_detected, (cache_loop_again _ _ _ C), IH, len_app.
    f_equal. f_equal. lia.
Qed.

(** X19: a scan that ends normally returns the number of haiku detected in
    the rows, counting those that were already in the table, and scanning
    the same rows again returns the same number and leaves the table as it
    is. *)
Theorem scan_csv_idempotent (csv : list CsvRow) (db db1 : database) (n : Z) :
  scan_csv unidecode csv db = (Done n, db1) ->
  n = len (flat_map (detected unidecode) csv)
  /\ scan_csv unidecode csv db1 = (Done n, db1).
Proof.
  unfold scan_csv. unfold act_bind at 1. unfold ensure_db at 1.
  fold scan_row. intro E.
  replace (match db with Some rows => Some rows | None => Some [] end)
    with (Some (rows_of db)) in E by now destruct db.
  apply scan_loop_done in E as (added & -> & -> & F).
  split; [lia|]. unfold act_bind at 1. unfold ensure_db at 1.
  fold scan_row. now rewrite (scan_loop_again csv 0 _ F).
Qed.

End ScanLoops.

Lemma scan_csv_idempotent_witness :
  scan_csv unidecode_ascii demo_csv None
  = (Done 6%Z, snd (scan_csv unidecode_ascii demo_csv None))
  /\ 6%Z = len (flat_map (detected unidecode_ascii) demo_csv)
  /\ scan_csv unidecode_ascii demo_csv
       (snd (scan_csv unidecode_ascii demo_csv None))
     = (Done 6%Z, snd (scan_csv unidecode_ascii demo_csv None)).
Proof.
  assert (E : scan_csv unidecode_ascii demo_csv None
              = (Done 6%Z, snd (scan_csv unidecode_ascii demo_csv None)))
    by (vm_compute; reflexivity).
  exact (conj E (scan_csv_idempotent unidecode_ascii demo_csv None _ 6%Z E)).
Defined.

Lemma act_for_each_invariant {A S : Type} (I : database -> Prop)
  (P : A -> Prop) (body : A -> S -> action S) :
  (forall x st db, P x -> I db -> I (snd (body x st db))) ->
  forall xs st db,
    Forall P xs -> I db -> I (snd (act_for_each xs body st db)).
Proof.
  intros B xs. induction xs as [|x xs IH]; intros st db F D;
    cbn [act_for_each]; [exact D|].
  apply Forall_cons_iff in F as [Px F]. unfold act_bind.
  pose proof (B x st db Px D) as D1.
  destruct (body x st db) as [[st'|f] db1]; cbn [snd] in *;
    [now apply IH|exact D1].
Qed.

Lemma detected_facts (unidecode : str -> str) (row : CsvRow) (h : Haiku) :
  In h (detected unidecode row) ->
  length (lines h) = 3 /\ syllables h = [5; 7; 5]%Z.
Proof.
  unfold detected. rewrite find_haikus_refines. intro I.
  apply in_map_iff in I as (i & <- & _). now split.
Qed.

(** One pass of the inner loop body keeps what the scan promises about the
    rows it appends to [rows0]. *)
Lemma cache_step_invariant (rows0 : list Row) (h : Haiku) (found : Z)
  (db : database) :
  length (lines h) = 3 /\ syllables h = [5; 7; 5]%Z ->
  (exists added,
     db = Some (rows0 ++ added)
     /\ (well_formed rows0 -> well_formed (rows0 ++ added))
     /\ Forall scanned_row added) ->
  exists added,
    snd ((_ <~ cache_haiku h ;; act_ret (found + 1)%Z) db)
    = Some (rows0 ++ added)
    /\ (well_formed rows0 -> well_formed (rows0 ++ added))
    /\ Forall scanned_row added.
Proof.
  intros [L Y] (added & -> & W & R). unfold act_bind, act_ret.
  destruct (cache_haiku_cases h (rows0 ++ added))
    as [(f & C)|[(row & P & S & C)|(row & P & S & C)]]; rewrite C;
    cbn [snd]; [exists added; (split; [reflexivity|split; assumption])..|].
  exists (added ++ [row]). rewrite app_assoc.
  split; [reflexivity|split].
  - intro W0. apply (cache_keeps_well_formed h (rows0 ++ added));
      [now apply W|exact L|now rewrite C].
  - apply Forall_app. split; [exact R|]. constructor; [|constructor].
    apply insert_parameters_ok in P
      as (_ & _ & _ & _ & _ & _ & S1 & S2 & S3 & T).
    rewrite Y in S1, S2, S3. cbn in S1, S2, S3.
    split; [exact T|]. congruence.
Qed.

(** X20: whatever the rows and however the scan ends (normally or on an
    exception), [scan_csv] only appends to the table; every row it appends
    is unused and holds the counts 5, 7, 5; and a well-formed table stays
    well formed. *)
Theorem scan_csv_appends_haiku_rows (unidecode : str -> str)
  (csv : list CsvRow) (db : database) :
  exists added,
    snd (scan_csv unidecode csv db) = Some (rows_of db ++ added)
    /\ (well_formed (rows_of db) -> well_formed (rows_of db ++ added))
    /\ Forall scanned_row added.
Proof.
  unfold scan_csv. unfold act_bind at 1. unfold ensure_db at 1.
  replace (match db with Some rows => Some rows | None => Some [] end)
    with (Some (rows_of db)) by now destruct db.
  pose (I := fun d : database => exists added,
                d = Some (rows_of db ++ added)
                /\ (well_formed (rows_of db) ->
                    well_formed (rows_of db ++ added))
                /\ Forall scanned_row added).
  apply (act_for_each_invariant I (fun _ => True)).
  - intros row found d _ D. cbv zeta. rewrite scan_row_detected.
    apply (act_for_each_invariant I
             (fun h => length (lines h) = 3 /\ syllables h = [5; 7; 5]%Z));
      [|apply Forall_forall; intros h; apply detected_facts|exact D].
    intros h st d' Ph D'. now apply cache_step_invariant.
  - apply Forall_forall. trivial.
  - exists []. rewrite app_nil_r.
    split; [reflexivity|split; [trivial|constructor]].
Qed.

Lemma calls_app (a b : list event) : calls (a ++ b) = calls a ++ calls b.
Proof.
  induction a as [|[s|t] a IH]; cbn [calls app]; [reflexivity|exact IH|].
  now rewrite IH.
Qed.

Lemma compose_len (h : Haiku) (include_attribution : bool) :
  (len (compose_tweet_text h include_attribution) <= 280)%Z.
Proof.
  rewrite compose_unfold.
  destruct (len (strip (text h) ++ attribution_full h) <=? 280)%Z eqn:A;
    destruct (len (strip (text h) ++ attribution_title h) <=? 280)%Z eqn:B;
    destruct include_attribution; cbn [andb];
    try (now apply Z.leb_le);
    unfold len; rewrite length_firstn; lia.
Qed.

(** The command up to the choice of the haiku: the table exists, and the
    unused row at the drawn position is read. *)
Ltac tweet_start db :=
  unfold main_tweet; unfold io_bind at 1; unfold on_db at 1, ensure_db at 1;
  cbn [fst snd];
  replace (match db with Some rows => Some rows | None => Some [] end)
    with (Some (rows_of db)) by (now destruct db);
  unfold io_bind at 1; unfold on_db at 1; cbn [fst snd];
  unfold load_one_unused_haiku; cbv zeta.

(** One statement of the command, on every way it can end. *)
Ltac tweet_step :=
  match goal with
  | |- context [print ?w ?s _] =>
      unfold print at 1; destruct (stdout w s); cbn [fst snd]
  | |- context [on_db (mark_tweeted ?n ?h) (?d, _)] =>
      unfold on_db at 1; cbn [fst snd];
      destruct (mark_tweeted n h d) as [[[]|?] ?] eqn:?M; cbn [fst snd]
  | |- context [io_lift (make_client ?w ?k) _] =>
      unfold io_lift at 1, make_client at 1;
      destruct (tweepy w) as [?client_of|]; cbn [fst snd]
  | |- context [post_tweet ?t ?c _] =>
      unfold post_tweet at 1; destruct (c t) as [?tweet_id|?]; cbn [fst snd]
  | |- context [io_bind _ _ _] => unfold io_bind at 1
  end.

(** X21: one run of the command adds to the events and calls
    [create_tweet] at most once: never in a dry run, and otherwise only
    with the composed text of an unused haiku of the table, which has at
    most 280 characters. *)
Theorem tweet_calls_api_at_most_once (w : World) (no_attrib : bool)
  (db : database) (tr : list event) :
  exists new,
    snd (snd (main_tweet w no_attrib (db, tr))) = tr ++ new
    /\ (calls new = []
        \/ exists h,
             dry_run (load_keys w) = false
             /\ fst (load_one_unused_haiku (random_draw w)
                       (Some (rows_of db))) = Done (Some h)
             /\ calls new = [compose_tweet_text h (negb no_attrib)])
    /\ Forall (fun text => (len text <= 280)%Z) (calls new).
Proof.
  tweet_start db.
  destruct (nth_error _ _) as [r|] eqn:E; cbn [option_map].
  - destruct (dry_run (load_keys w)) eqn:D; repeat tweet_step;
      rewrite <- ?app_assoc;
      (eexists; split; [first [reflexivity|symmetry; apply app_nil_r]|]);
      cbn [calls app].
    all: try (split; [now left|constructor]).
    all: (split; [right; now exists (haiku_of_row r)|]).
    all: constructor; [apply compose_len|constructor].
  - repeat tweet_step;
      (eexists; split; [first [reflexivity|symmetry; apply app_nil_r]|]);
      (split; [now left|constructor]).
Qed.

Lemma drawn_some {A : Type} (l : list A) (draw : nat) :
  l <> [] -> exists x, nth_error l (draw mod length l) = Some x.
Proof.
  intro H. destruct (nth_error l (draw mod length l)) as [x|] eqn:E;
    [now exists x|].
  apply nth_error_None in E. destruct l as [|a l]; [contradiction|].
  pose proof (Nat.mod_upper_bound draw (length (a :: l))) as B.
  cbn [length] in *. lia.
Qed.

(** X22: outside a dry run, when [tweepy] is missing or the post fails, the
    run leaves every row as it was, and it ends in an exception whenever
    there was an unused haiku to post. *)
Theorem failed_post_marks_nothing (w : World) (no_attrib : bool)
  (db : database) (tr : list event) :
  dry_run (load_keys w) = false ->
  (forall client_of text,
     tweepy w = Some client_of ->
     exists f, client_of (load_keys w) text = Failed f) ->
  fst (snd (main_tweet w no_attrib (db, tr))) = Some (rows_of db)
  /\ (unused_count db <> 0 ->
      exists f, fst (main_tweet w no_attrib (db, tr)) = Failed f).
Proof.
  intros D P. unfold unused_count.
  destruct (main_tweet w no_attrib (db, tr)) as [res [db' tr']] eqn:R.
  cbn [fst snd]. revert R. tweet_start db. rewrite D.
  destruct (nth_error _ _) as [r|] eqn:E; cbn [option_map].
  - unfold io_bind at 1. unfold io_lift, make_client.
    destruct (tweepy w) as [client_of|] eqn:T; cbn [fst snd].
    + unfold io_bind at 1. unfold post_tweet. cbn [fst snd].
      destruct (P client_of (compose_tweet_text (haiku_of_row r)
                               (negb no_attrib)) eq_refl) as [f F].
      rewrite F. intros [= <- <- <-]. eauto.
    + intros [= <- <- <-]. eauto.
  - unfold print. intro R. split;
      [destruct (stdout w _); now injection R as <- <- <-|].
    intro U. exfalso.
    destruct (drawn_some (filter is_unused (rows_of db)) (random_draw w))
      as [x X]; [|congruence].
    intro Z. now rewrite Z in U.
Qed.

Lemma failed_post_marks_nothing_witness :
  fst (snd (main_tweet (demo_world None false) true (Some [demo_row], [])))
  = Some [demo_row]
  /\ (unused_count (Some [demo_row]) <> 0 ->
      exists f,
        fst (main_tweet (demo_world None false) true (Some [demo_row], []))
        = Failed f).
Proof.
  apply (failed_post_marks_nothing (demo_world None false) true
           (Some [demo_row]) []).
  - vm_compute. reflexivity.
  - intros client_of text T. discriminate T.
Defined.

Lemma mark_row_sig (now s : str) (rows : list Row) :
  map row_sig (map (mark_row now s) rows) = map row_sig rows.
Proof.
  rewrite map_map. apply map_ext. intro r. unfold mark_row.
  now destruct (str_eqb (row_sig r) s).
Qed.

(** X23: on a well-formed table, a run of the command that ends normally
    (posted, or shown in a dry run) uses up exactly one unused haiku, if
    there is one: the rows keep their signatures and their order, the table
    stays well formed, and the number of unused rows goes down by one. *)
Theorem tweet_run_uses_one_haiku (w : World) (no_attrib : bool)
  (db : database) (tr : list event) :
  well_formed (rows_of db) ->
  fst (main_tweet w no_attrib (db, tr)) = Done tt ->
  exists rows',
    fst (snd (main_tweet w no_attrib (db, tr))) = Some rows'
    /\ well_formed rows'
    /\ map row_sig rows' = map row_sig (rows_of db)
    /\ unused_count (Some rows') = pred (unused_count db).
Proof.
  intros W. unfold unused_count. cbn [rows_of].
  destruct (main_tweet w no_attrib (db, tr)) as [res [db' tr']] eqn:R.
  cbn [fst snd]. intros ->. revert R. tweet_start db.
  destruct (nth_error _ _) as [r|] eqn:E; cbn [option_map].
  - apply nth_error_In, filter_In in E as [I U].
    assert (M : mark_tweeted (utcnow w) (haiku_of_row r)
                  (Some (rows_of db))
                = (Done tt,
                   Some (map (mark_row (utcnow w) (row_sig r)) (rows_of db)))).
    { destruct W as [_ W]. rewrite Forall_forall in W.
      unfold mark_tweeted. now rewrite (W r I). }
    assert (G : exists rows',
               Some (map (mark_row (utcnow w) (row_sig r)) (rows_of db))
               = Some rows'
               /\ well_formed rows'
               /\ map row_sig rows' = map row_sig (rows_of db)
               /\ length (filter is_unused rows')
                  = pred (length (filter is_unused (rows_of db)))).
    { eexists. split; [reflexivity|]. split; [|split].
      - apply (mark_keeps_well_formed (utcnow w) (haiku_of_row r)
                 (rows_of db)); [exact W|now rewrite M].
      - apply mark_row_sig.
      - pose proof (mark_row_unused_count (utcnow w) (rows_of db) r
                      (proj1 W) I U). lia. }
    destruct (dry_run (load_keys w)); repeat tweet_step;
      try discriminate; intros [= <- <-];
      rewrite M in *; try discriminate.
    all: match goal with H : (_, _) = (_, _) |- _ => injection H as -> end.
    all: exact G.
  - unfold print. destruct (stdout w _); intros [= <- <-].
    exists (rows_of db). split; [reflexivity|]. split; [exact W|].
    split; [reflexivity|].
    destruct (filter is_unused (rows_of db)) as [|x l] eqn:F; [reflexivity|].
    destruct (drawn_some (x :: l) (random_draw w)) as [y Y];
      [discriminate|congruence].
Qed.

Lemma tweet_run_uses_one_haiku_witness :
  well_formed (rows_of (Some [demo_row]))
  /\ fst (main_tweet (demo_world None true) false (Some [demo_row], []))
     = Done tt
  /\ exists rows',
       fst (snd (main_tweet (demo_world None true) false
                   (Some [demo_row], []))) = Some rows'
       /\ well_formed rows'
       /\ map row_sig rows' = map row_sig (rows_of (Some [demo_row]))
       /\ unused_count (Some rows') = pred (unused_count (Some [demo_row])).
Proof.
  assert (W : well_formed (rows_of (Some [demo_row]))).
  { split.
    - apply NoDup_cons; [intros []|apply NoDup_nil].
    - apply Forall_cons; [|apply Forall_nil].
      unfold well_signed. vm_compute. reflexivity. }
  assert (D : fst (main_tweet (demo_world None true) false
                     (Some [demo_row], [])) = Done tt)
    by (vm_compute; reflexivity).
  exact (conj W (conj D
           (tweet_run_uses_one_haiku (demo_world None true) false
              (Some [demo_row]) [] W D))).
Defined.
